(** * DebateMasterAI: dashboard statistics, error classification, archetype cards

    A shallow embedding of the computations of
    - [src/components/Dashboard.tsx] (win rate, recent averages, improvement
      rate, performance score, improvement card),
    - [src/components/PersonaErrorBoundary.tsx] ([getErrorMessage]),
    - the archetype card component ([getArchetypeIcon],
      [ArchetypeCardComponent]),
    together with the properties the specification states about them.

    JavaScript numbers are IEEE 754 binary64 values; they are modelled by the
    Standard Library's executable specification of floating-point arithmetic
    ([spec_float] at precision 53 and maximal exponent 1024), so that every
    function below evaluates to the very number the source computes. *)

From Stdlib Require Import String Ascii.
From Stdlib Require Import ZArith List Bool Lia.
From Stdlib Require Import SpecFloat.
Import ListNotations.

Local Open Scope Z_scope.

(* ================================================================= *)
(** ** JavaScript numbers *)

Module JS.

Definition prec : Z := 53.
Definition emax : Z := 1024.

(** The type [number]: a binary64 value. *)
Definition number : Type := spec_float.

(** An integer literal, or the value of an integer such as an array
    length, as a [number] (rounded to nearest even when it does not fit). *)
Definition of_Z (z : Z) : number := binary_normalize prec emax z 0 false.
Definition of_nat (n : nat) : number := of_Z (Z.of_nat n).

Definition add : number -> number -> number := SFadd prec emax.
Definition sub : number -> number -> number := SFsub prec emax.
Definition mul : number -> number -> number := SFmul prec emax.
Definition div : number -> number -> number := SFdiv prec emax.

(** [x < y] and [x > y]; both are false when an operand is NaN. *)
Definition lt (x y : number) : bool := SFltb x y.
Definition gt (x y : number) : bool := SFltb y x.
Definition le (x y : number) : bool := SFleb x y.

Definition NaN : number := S754_nan.
Definition Infinity : number := S754_infinity false.

(** ToBoolean on a number: [+0], [-0] and [NaN] are falsy. *)
Definition truthy (x : number) : bool :=
  match x with
  | S754_zero _ | S754_nan => false
  | _ => true
  end.

(** [x || d] for numbers. *)
Definition or_else (x d : number) : number := if truthy x then x else d.

Definition is_finite (x : number) : bool :=
  match x with
  | S754_zero _ | S754_finite _ _ _ => true
  | _ => false
  end.

(** [Math.round]: the integer closest to [x], a tie going towards
    [+Infinity]; [NaN], the infinities and the zeros are returned as they
    are, and a result of zero keeps the sign of [x]. For a finite
    [x = (-1)^s * m * 2^e] with [e < 0] the result is
    [floor (x + 1/2) = floor ((2 * (-1)^s * m + 2^(-e)) / 2^(1-e))]. *)
Definition Math_round (x : number) : number :=
  match x with
  | S754_finite s m e =>
      if 0 <=? e then x
      else
        let r := Z.shiftr (2 * cond_Zopp s (Zpos m) + 2 ^ (- e)) (1 - e) in
        if r =? 0 then S754_zero s else of_Z r
  | _ => x
  end.

(** The decimal literal [0.7]: the binary64 value nearest to 7/10. *)
Definition lit_0_7 : number := div (of_Z 7) (of_Z 10).

(** [Array.prototype.slice(start, end)] on relative indices: a negative
    index counts from the end of the array, and both are clamped to
    [0 .. length]. [None] stands for an omitted [end]. *)
Definition relative_index (len k : Z) : Z :=
  if k <? 0 then Z.max (len + k) 0 else Z.min k len.

Definition slice {A : Type} (l : list A) (start : Z) (end_ : option Z)
  : list A :=
  let len := Z.of_nat (length l) in
  let k := relative_index len start in
  let final :=
    match end_ with
    | None => len
    | Some e => relative_index len e
    end in
  firstn (Z.to_nat (Z.max (final - k) 0)) (skipn (Z.to_nat k) l).

(** [Array.prototype.reduce(callback, initialValue)]. *)
Definition reduce {A B : Type} (f : B -> A -> B) (init : B) (l : list A)
  : B := fold_left f l init.

(** How an evaluation ends: with a value, or with a thrown error. *)
Inductive error : Type := TypeError.

Inductive completion (A : Type) : Type :=
| Normal (v : A)
| Throw (e : error).
Arguments Normal {A} v.
Arguments Throw {A} e.

End JS.

(* ================================================================= *)
(** ** Reading binary64 rounding as integer arithmetic

    The definitions used to reason about the rounding that every arithmetic
    operation performs. A non-negative real [x] is followed through the
    rounding by its sticky code at an exponent [e]: for
    [x = (num / den) * 2^(e-1)], the code [tau num den] is twice the integer
    part of [num / den], plus one when [num / den] is not an integer. Its
    bits above the lowest two are the mantissa at exponent [e], the next one
    is the round bit and the lowest one is the sticky bit. *)

Module Binary64.
Import JS.

Definition tau (num den : Z) : Z :=
  2 * (num / den) + (if num mod den =? 0 then 0 else 1).

(** The code held by a shift record: mantissa, round bit, sticky bit. *)
Definition code (mrs : shr_record) : Z :=
  4 * shr_m mrs + (if shr_r mrs then 2 else 0) + (if shr_s mrs then 1 else 0).

(** One step of shifting to the right, on codes. *)
Definition sshift (t : Z) : Z :=
  2 * (t / 4) + (if t mod 4 =? 0 then 0 else 1).

(** Rounding a code to the nearest mantissa, a tie going to the even one. *)
Definition rne (t : Z) : Z :=
  let m := t / 4 in
  let c := t mod 4 in
  if c <? 2 then m
  else if c =? 2 then (if Z.even m then m else m + 1)
  else m + 1.

(** The position of a non-negative number among the binary64 values: its
    bit pattern read as an integer. [INF] is the position of [Infinity]. *)
Definition INF : Z := 2047 * 2 ^ 52.

Definition ford (x : number) : Z :=
  match x with
  | S754_zero _ => 0
  | S754_finite _ m e => (e + 1074) * 2 ^ 52 + Zpos m
  | S754_infinity _ => INF
  | S754_nan => -1
  end.

(** The non-negative numbers in canonical form: [+0], [Infinity], and the
    positive finite numbers, normal (a 53-bit mantissa) or subnormal (the
    least exponent). *)
Definition nonneg_wf (x : number) : Prop :=
  match x with
  | S754_zero false | S754_infinity false => True
  | S754_finite false m e =>
      -1074 <= e <= 971 /\ Zpos m < 2 ^ 53 /\ (-1074 < e -> 2 ^ 52 <= Zpos m)
  | _ => False
  end.

Definition finite_pos (c : number) : Prop :=
  match c with
  | S754_finite false _ _ => True
  | _ => False
  end.

(** The exponent and mantissa with which a positive integer enters the
    rounding of [of_Z], and the position of the result. *)
Definition zexp (p : positive) : Z :=
  Z.min 0 (fexp prec emax (Zpos (digits2_pos p))).

Definition zman (p : positive) : Z := Zpos p * 2 ^ (- zexp p).

Definition ordZ (p : positive) : Z :=
  (fexp prec emax (Zpos (digits2_pos p)) + 1074) * 2 ^ 52
  + rne (tau (2 * zman p)
             (1 * 2 ^ (fexp prec emax (Zpos (digits2_pos p)) - zexp p))).

(** The exponent and the scaled dividend of a division. *)
Definition dexp (mx : positive) (ex : Z) (mc : positive) (ec : Z) : Z :=
  Z.min (fexp prec emax (Zpos (digits2_pos mx) + ex - (Zpos (digits2_pos mc) + ec)))
        (ex - ec).

Definition dnum (mx : positive) (ex : Z) (mc : positive) (ec : Z) : Z :=
  Zpos mx * 2 ^ (ex - ec - dexp mx ex mc ec).

(** The integer [Math.round] yields on a positive number with a negative
    exponent: [floor (m * 2^e + 1/2)]. *)
Definition round_int (m : positive) (e : Z) : Z :=
  (2 * Zpos m + 2 ^ (- e)) / 2 ^ (1 - e).

End Binary64.

(* ================================================================= *)
(** ** Dashboard.tsx *)

Module Dashboard.
Import JS.

(** The fields of [UserStats] and [SessionHistoryItem] that the dashboard
    computes with; an optional sub-score that is absent is [None]. *)
Record UserStats : Type := {
  totalSessions : number;
  totalMinutes : number
}.

Record SessionHistoryItem : Type := {
  score : number;
  vocabularyScore : option number;
  clarityScore : option number;
  persuasionScore : option number
}.

(** [s.vocabularyScore || 0] and its siblings. *)
Definition sub_or_0 (o : option number) : number :=
  match o with
  | Some v => or_else v (of_Z 0)
  | None => of_Z 0
  end.

(** Lines 44-46. *)
Definition winRate (stats : option UserStats) : number :=
  match stats with
  | Some st =>
      if gt (totalSessions st) (of_Z 0)
      then div (Math_round (mul (mul (totalSessions st) lit_0_7) (of_Z 100)))
               (of_Z 100)
      else of_Z 0
  | None => of_Z 0
  end.

(** Line 49. *)
Definition recentSessions (history : list SessionHistoryItem)
  : list SessionHistoryItem := slice history 0 (Some 10).

(** Lines 50-58, for one sub-score [field]. *)
Definition recentAverage (field : SessionHistoryItem -> option number)
    (history : list SessionHistoryItem) : number :=
  let rs := recentSessions history in
  if (0 <? length rs)%nat
  then Math_round
         (div (reduce (fun sum s => add sum (sub_or_0 (field s))) (of_Z 0) rs)
              (of_nat (length rs)))
  else of_Z 0.

Definition avgVocabulary := recentAverage vocabularyScore.
Definition avgClarity := recentAverage clarityScore.
Definition avgPersuasion := recentAverage persuasionScore.

(** The three dimensions, the field each one reads and its average. *)
Inductive dimension : Type := Vocabulary | Clarity | Persuasion.

Definition subScore (d : dimension) : SessionHistoryItem -> option number :=
  match d with
  | Vocabulary => vocabularyScore
  | Clarity => clarityScore
  | Persuasion => persuasionScore
  end.

Definition recentAverageOf (d : dimension)
  : list SessionHistoryItem -> number :=
  match d with
  | Vocabulary => avgVocabulary
  | Clarity => avgClarity
  | Persuasion => avgPersuasion
  end.

(** Lines 61-71. [Math.floor(history.length / 2)] is the integer quotient:
    an array length is an integer below [2^32], and halving it is exact. *)
Definition calculateImprovementRate (history : list SessionHistoryItem)
  : number :=
  if (length history <? 4)%nat then of_Z 0
  else
    let halfPoint := Z.of_nat (length history / 2) in
    let recentHalf := slice history 0 (Some halfPoint) in
    let olderHalf := slice history halfPoint None in
    let recentAvg :=
      div (reduce (fun sum s => add sum (score s)) (of_Z 0) recentHalf)
          (of_nat (length recentHalf)) in
    let olderAvg :=
      div (reduce (fun sum s => add sum (score s)) (of_Z 0) olderHalf)
          (of_nat (length olderHalf)) in
    Math_round (mul (div (sub recentAvg olderAvg) olderAvg) (of_Z 100)).

Definition improvementRate := calculateImprovementRate.

(** Lines 87-90: the number shown on the Performance Score card. *)
Definition performanceScore (history : list SessionHistoryItem) : number :=
  if (0 <? length history)%nat
  then Math_round
         (div (reduce (fun sum session => add sum (score session)) (of_Z 0)
                      history)
              (of_nat (length history)))
  else of_Z 0.

(** Lines 226-241: the Improvement Rate card shows an optional ["+"], the
    rate, and - only for a history of at least four sessions - a badge
    with an arrow. *)
Inductive arrow : Type := ArrowUp | ArrowDown | ArrowFlat.

Record improvementCard : Type := {
  signPrefix : string;
  shownRate : number;
  badge : option arrow
}.

Definition arrowOf (r : number) : arrow :=
  if gt r (of_Z 0) then ArrowUp
  else if lt r (of_Z 0) then ArrowDown
  else ArrowFlat.

Definition renderImprovementCard (history : list SessionHistoryItem)
  : improvementCard :=
  let r := improvementRate history in
  {| signPrefix := if gt r (of_Z 0) then "+" else "";
     shownRate := r;
     badge := if (4 <=? length history)%nat then Some (arrowOf r) else None |}.

(** A session with the given score and no sub-scores, for examples. *)
Definition session (sc : Z) : SessionHistoryItem :=
  {| score := of_Z sc; vocabularyScore := None;
     clarityScore := None; persuasionScore := None |}.

Definition session_v (v : option Z) : SessionHistoryItem :=
  {| score := of_Z 0; vocabularyScore := option_map of_Z v;
     clarityScore := None; persuasionScore := None |}.

End Dashboard.

(* ================================================================= *)
(** ** JavaScript strings

    A string is a sequence of code units; the model takes them in the range
    [0 .. 255] (Latin-1), where [toLowerCase] maps [A-Z] and the accented
    capitals [U+00C0 .. U+00DE] (without the multiplication sign [U+00D7])
    to the letter 32 places up and leaves every other unit alone. *)

Module JSString.

Definition lower_unit (c : ascii) : ascii :=
  let n := nat_of_ascii c in
  if ((65 <=? n) && (n <=? 90)
      || (192 <=? n) && (n <=? 222) && negb (n =? 215))%nat
  then ascii_of_nat (n + 32)
  else c.

Fixpoint toLowerCase (s : string) : string :=
  match s with
  | EmptyString => EmptyString
  | String c rest => String (lower_unit c) (toLowerCase rest)
  end.

(** [s.includes(sub)]: [sub] occurs in [s] at some position. *)
Fixpoint includes (s sub : string) : bool :=
  if String.prefix sub s then true
  else
    match s with
    | EmptyString => false
    | String _ rest => includes rest sub
    end.

(** ToBoolean on a string: only the empty string is falsy. *)
Definition nonempty (s : string) : bool :=
  match s with
  | EmptyString => false
  | String _ _ => true
  end.

End JSString.

(* ================================================================= *)
(** ** PersonaErrorBoundary.tsx *)

Module PersonaErrorBoundary.
Import JSString.
Local Open Scope string_scope.

Record Error : Type := { message : string }.

Record errorText : Type := { title : string; description : string }.

(** Lines 93-132; [None] is a [null] error. *)
Definition getErrorMessage (error : option Error) : errorText :=
  match error with
  | None =>
      {| title := "Something went wrong";
         description :=
           "An unexpected error occurred while loading your persona." |}
  | Some error =>
      let errorMessage := toLowerCase (message error) in
      if includes errorMessage "spline" || includes errorMessage "3d"
         || includes errorMessage "scene"
      then
        {| title := "3D Scene Loading Error";
           description :=
             "Unable to load the 3D visualization. The persona data is still available below." |}
      else if includes errorMessage "calculate"
              || includes errorMessage "persona"
      then
        {| title := "Persona Calculation Error";
           description :=
             "Unable to calculate your persona from session data. Please try again or check your session history." |}
      else if includes errorMessage "data" || includes errorMessage "invalid"
      then
        {| title := "Data Error";
           description :=
             "There was a problem with your session data. Please try refreshing or contact support." |}
      else
        {| title := "Unexpected Error";
           description :=
             if nonempty (message error) then message error
             else "An unexpected error occurred. Please try again." |}
  end.

End PersonaErrorBoundary.

(* ================================================================= *)
(** ** The archetype card *)

Module ArchetypeCard.
Import JSString.
Local Open Scope string_scope.

(** The icon components imported from the icon library. *)
Inductive LucideIcon : Type :=
| Brain | Heart | Scale | Sword | Lightbulb | Book | Star | Target | Lock.

(** What reading a property of the [icons] object can yield: one of its
    own entries, something inherited from [Object.prototype] (the object
    is written as a literal, so that is its prototype), or [undefined]. *)
Inductive value : Type :=
| Component (i : LucideIcon)
| ObjectConstructor
| ObjectPrototype
| BuiltinMethod (name : string)
| Undefined.

(** ToBoolean: functions and objects are truthy, [undefined] is not. *)
Definition truthy (v : value) : bool :=
  match v with
  | Undefined => false
  | _ => true
  end.

Fixpoint own_property (props : list (string * LucideIcon)) (key : string)
  : option LucideIcon :=
  match props with
  | [] => None
  | (k, v) :: rest => if String.eqb k key then Some v else own_property rest key
  end.

(** The properties of [Object.prototype]: [constructor] is the function
    [Object], the accessor [__proto__] yields the prototype of the
    receiver, the others are built-in methods. *)
Definition Object_prototype_methods : list string :=
  ["hasOwnProperty"; "isPrototypeOf"; "propertyIsEnumerable";
   "toLocaleString"; "toString"; "valueOf";
   "__defineGetter__"; "__defineSetter__";
   "__lookupGetter__"; "__lookupSetter__"].

Definition inherited_property (key : string) : value :=
  if String.eqb key "constructor" then ObjectConstructor
  else if String.eqb key "__proto__" then ObjectPrototype
  else if existsb (String.eqb key) Object_prototype_methods
       then BuiltinMethod key
  else Undefined.

(** [obj[key]] for an object literal with the given own properties. *)
Definition get (props : list (string * LucideIcon)) (key : string) : value :=
  match own_property props key with
  | Some v => Component v
  | None => inherited_property key
  end.

(** Lines 26-39. *)
Definition icons : list (string * LucideIcon) :=
  [("brain", Brain); ("heart", Heart); ("scale", Scale); ("sword", Sword);
   ("lightbulb", Lightbulb); ("book", Book); ("star", Star);
   ("target", Target)].

Definition getArchetypeIcon (iconName : string) : value :=
  let found := get icons (toLowerCase iconName) in
  if truthy found then found else Component Brain.

(** A field that may be [undefined] or [null]. *)
Inductive nullable (A : Type) : Type :=
| JSUndefined
| JSNull
| Present (a : A).
Arguments JSUndefined {A}.
Arguments JSNull {A}.
Arguments Present {A} a.

(** [x ?? d]. *)
Definition nullish_or {A : Type} (x : nullable A) (d : A) : A :=
  match x with
  | Present a => a
  | JSUndefined | JSNull => d
  end.

Record PersonaArchetype : Type := {
  name : string;
  icon : string;
  color : string;
  description : string;
  isLocked : nullable bool
}.

(** The attributes of the rendered button that govern clicks; [H] is the
    type of click handlers. *)
Record button (H : Type) : Type := {
  btn_onClick : option H;
  btn_disabled : bool;
  btn_aria_label : string;
  btn_aria_pressed : bool;
  btn_aria_disabled : bool;
  btn_icon : value;
  btn_lock_overlay : bool
}.
Arguments btn_onClick {H} b.
Arguments btn_disabled {H} b.
Arguments btn_aria_label {H} b.
Arguments btn_aria_pressed {H} b.
Arguments btn_aria_disabled {H} b.
Arguments btn_icon {H} b.
Arguments btn_lock_overlay {H} b.

(** Lines 47-153. *)
Definition ArchetypeCardComponent {H : Type} (archetype : PersonaArchetype)
    (isActive : bool) (onClick : option H) : button H :=
  let Icon := getArchetypeIcon (icon archetype) in
  let isLocked := nullish_or (isLocked archetype) false in
  {| btn_onClick := if isLocked then None else onClick;
     btn_disabled := isLocked;
     btn_aria_label :=
       if isLocked then name archetype ++ " archetype (locked)"
       else "Select " ++ name archetype ++ " archetype";
     btn_aria_pressed := isActive;
     btn_aria_disabled := isLocked;
     btn_icon := Icon;
     btn_lock_overlay := isLocked |}.

(** A click on the button: a disabled button receives no click event;
    otherwise the attached handler, if there is one, is the one invoked. *)
Definition click {H : Type} (b : button H) : option H :=
  if btn_disabled b then None else btn_onClick b.

(** The handlers invoked by a sequence of [n] clicks. *)
Fixpoint clicks {H : Type} (n : nat) (b : button H) : list H :=
  match n with
  | O => []
  | S k =>
      match click b with
      | Some h => h :: clicks k b
      | None => clicks k b
      end
  end.

End ArchetypeCard.

(* ================================================================= *)
(** ** The statistics as the specification words them *)

Module Spec.
Import JS Dashboard.

(** The sum of a sequence of numbers, accumulated from [0] in sequence
    order, and the arithmetic mean: the sum divided by the count. *)
Fixpoint sumFrom (acc : number) (xs : list number) : number :=
  match xs with
  | [] => acc
  | x :: rest => sumFrom (add acc x) rest
  end.

Definition sum (xs : list number) : number := sumFrom (of_Z 0) xs.

Definition arithmeticMean (xs : list number) : number :=
  div (sum xs) (of_nat (length xs)).

(** "Split history in half: the first half as recentHalf, the second half
    as olderHalf. Compute arithmetic mean of score for each half.
    improvementRatePercent =
    round(((recentAvg - olderAvg) / olderAvg) * 100)." *)
Definition recentHalf (history : list SessionHistoryItem) :=
  firstn (length history / 2) history.

Definition olderHalf (history : list SessionHistoryItem) :=
  skipn (length history / 2) history.

Definition improvementRatePercent (history : list SessionHistoryItem)
  : number :=
  let recentAvg := arithmeticMean (map score (recentHalf history)) in
  let olderAvg := arithmeticMean (map score (olderHalf history)) in
  Math_round (mul (div (sub recentAvg olderAvg) olderAvg) (of_Z 100)).

(** "Sum of (value or 0) divided by window length", rounded to the nearest
    integer; 0 if the window is empty. *)
Definition valueOr0 (o : option number) : number :=
  match o with
  | Some v => v
  | None => of_Z 0
  end.

(** A sub-score that is present is a measured value: not [NaN], and not the
    negative zero. *)
Definition measured (o : option number) : bool :=
  match o with
  | Some S754_nan | Some (S754_zero true) => false
  | _ => true
  end.

Definition windowAverage (field : SessionHistoryItem -> option number)
    (window : list SessionHistoryItem) : number :=
  match window with
  | [] => of_Z 0
  | _ :: _ =>
      Math_round (div (sum (map (fun s => valueOr0 (field s)) window))
                      (of_nat (length window)))
  end.

(** "round(totalSessions * 0.7 * 100) / 100". *)
Definition winRateFormula (totalSessions : number) : number :=
  div (Math_round (mul (mul totalSessions lit_0_7) (of_Z 100))) (of_Z 100).



End Spec.

(* ================================================================= *)
(** ** Error classification *)

Module ErrorSpec.
Import JSString PersonaErrorBoundary.
Local Open Scope string_scope.

Inductive category : Type := Scene3D | Calculation | DataError | Generic.

(** Case-insensitive substring match: some substring of [msg] equals the
    keyword up to the case of its letters. *)
Definition contains_ci (msg kw : string) : Prop :=
  exists pre mid post,
    msg = pre ++ mid ++ post /\ toLowerCase mid = toLowerCase kw.

Definition hits (msg : string) (kws : list string) : Prop :=
  exists kw, In kw kws /\ contains_ci msg kw.

Definition keywords (c : category) : list string :=
  match c with
  | Scene3D => ["spline"; "3d"; "scene"]
  | Calculation => ["calculate"; "persona"]
  | DataError => ["data"; "invalid"]
  | Generic => []
  end.

(** The categories are tried in the fixed order 3D scene, calculation,
    data; the first one with a matching keyword wins, and a message that
    matches none is generic. *)
Inductive classified (msg : string) : category -> Prop :=
| classified_scene :
    hits msg (keywords Scene3D) -> classified msg Scene3D
| classified_calculation :
    ~ hits msg (keywords Scene3D) ->
    hits msg (keywords Calculation) -> classified msg Calculation
| classified_data :
    ~ hits msg (keywords Scene3D) ->
    ~ hits msg (keywords Calculation) ->
    hits msg (keywords DataError) -> classified msg DataError
| classified_generic :
    ~ hits msg (keywords Scene3D) ->
    ~ hits msg (keywords Calculation) ->
    ~ hits msg (keywords DataError) -> classified msg Generic.

(** What the fallback screen shows for each category. *)
Definition shown (c : category) (error : Error) : errorText :=
  match c with
  | Scene3D =>
      {| title := "3D Scene Loading Error";
         description :=
           "Unable to load the 3D visualization. The persona data is still available below." |}
  | Calculation =>
      {| title := "Persona Calculation Error";
         description :=
           "Unable to calculate your persona from session data. Please try again or check your session history." |}
  | DataError =>
      {| title := "Data Error";
         description :=
           "There was a problem with your session data. Please try refreshing or contact support." |}
  | Generic =>
      {| title := "Unexpected Error";
         description :=
           if nonempty (message error) then message error
           else "An unexpected error occurred. Please try again." |}
  end.

End ErrorSpec.

(* ================================================================= *)
(** ** Dashboard.tsx: the start form *)

Module StartForm.
Import JS JSString.
Local Open Scope string_scope.

Inductive DebateStyle : Type := COACH | AGGRESSIVE.

(** The code units that [trim] removes, among those in [0 .. 255]: tab,
    line feed, vertical tab, form feed, carriage return, space and the
    no-break space. *)
Definition is_whitespace (c : ascii) : bool :=
  let n := nat_of_ascii c in
  ((n =? 9) || (n =? 10) || (n =? 11) || (n =? 12) || (n =? 13)
   || (n =? 32) || (n =? 160))%nat.

Fixpoint trimStart (s : string) : string :=
  match s with
  | EmptyString => EmptyString
  | String c rest => if is_whitespace c then trimStart rest else s
  end.

Fixpoint trimEnd (s : string) : string :=
  match s with
  | EmptyString => EmptyString
  | String c rest =>
      match trimEnd rest with
      | EmptyString => if is_whitespace c then EmptyString else String c EmptyString
      | kept => String c kept
      end
  end.

(** [s.trim()]. *)
Definition trim (s : string) : string := trimEnd (trimStart s).

(** Lines 24-26: the state of the form, and its initial value. *)
Record form : Type := {
  topic : string;
  selectedStyle : DebateStyle;
  duration : number
}.

Definition initialForm : form :=
  {| topic := ""; selectedStyle := COACH; duration := of_Z 5 |}.

(** A call [onStartDebate(topic, style, duration)]. *)
Record startCall : Type := {
  call_topic : string;
  call_style : DebateStyle;
  call_duration : number
}.

(** Lines 37-41; the result is the list of calls made. *)
Definition handleStartDebate (f : form) : list startCall :=
  if nonempty (trim (topic f))
  then [{| call_topic := trim (topic f);
           call_style := selectedStyle f;
           call_duration := duration f |}]
  else [].

(** Line 168: [disabled={!topic.trim()}]. *)
Definition startDisabled (f : form) : bool := negb (nonempty (trim (topic f))).

(** What the user can do: type in the topic field, pick a style, move the
    duration slider (the event carries [Number(e.target.value)]), click the
    start button. A disabled button receives no click. *)
Inductive event : Type :=
| ChangeTopic (value : string)
| ClickCoach
| ClickFierce
| ChangeDuration (value : number)
| ClickStart.

Definition step (f : form) (ev : event) : form * list startCall :=
  match ev with
  | ChangeTopic value =>
      ({| topic := value; selectedStyle := selectedStyle f;
          duration := duration f |}, [])
  | ClickCoach =>
      ({| topic := topic f; selectedStyle := COACH; duration := duration f |},
       [])
  | ClickFierce =>
      ({| topic := topic f; selectedStyle := AGGRESSIVE;
          duration := duration f |}, [])
  | ChangeDuration value =>
      ({| topic := topic f; selectedStyle := selectedStyle f;
          duration := value |}, [])
  | ClickStart =>
      (f, if startDisabled f then [] else handleStartDebate f)
  end.

(** The form after a sequence of events, and all the calls made. *)
Fixpoint run (f : form) (evs : list event) : form * list startCall :=
  match evs with
  | [] => (f, [])
  | ev :: rest =>
      let '(f1, calls1) := step f ev in
      let '(f2, calls2) := run f1 rest in
      (f2, (calls1 ++ calls2)%list)
  end.

End StartForm.

(* ================================================================= *)
(** ** Dashboard.tsx: the lists and charts *)

Module Charts.
Import JS Dashboard.

(** The decimal literals [0.3] and [0.15]. *)
Definition lit_0_3 : number := div (of_Z 3) (of_Z 10).
Definition lit_0_15 : number := div (of_Z 15) (of_Z 100).

(** [Math.floor]: the greatest integer not above [x]; a result of zero
    keeps the sign of [x]. *)
Definition Math_floor (x : number) : number :=
  match x with
  | S754_finite s m e =>
      if 0 <=? e then x
      else
        let r := Z.shiftr (cond_Zopp s (Zpos m)) (- e) in
        if r =? 0 then S754_zero s else of_Z r
  | _ => x
  end.

(** [array.map((item, idx) => ...)]. *)
Fixpoint map_indexed {A B : Type} (f : A -> nat -> B) (idx : nat)
    (l : list A) : list B :=
  match l with
  | [] => []
  | x :: rest => f x idx :: map_indexed f (S idx) rest
  end.

(** Line 197: the sessions listed on the history card. *)
Definition recentList (history : list SessionHistoryItem)
  : list SessionHistoryItem := slice history 0 (Some 5).

(** Line 211: the minutes shown for a session of the list. *)
Definition minutesLabel (durationSeconds : number) : number :=
  Math_floor (div durationSeconds (of_Z 60)).

(** Lines 247-257: one bar of the score progression chart: its height in
    percent, its opacity and the score shown on hover. *)
Record bar : Type := {
  bar_height : number;
  bar_opacity : number;
  bar_label : number
}.

Definition scoreBar (session : SessionHistoryItem) (idx : nat) : bar :=
  {| bar_height := mul (div (score session) (of_Z 100)) (of_Z 100);
     bar_opacity := add lit_0_3 (mul (of_nat idx) lit_0_15);
     bar_label := score session |}.

Definition scoreChart (history : list SessionHistoryItem) : list bar :=
  map_indexed scoreBar 0 (rev (slice history 0 (Some 5))).

(** Line 326: the figure on the Avg badge of the metrics card. *)
Definition metricsAverage (history : list SessionHistoryItem) : number :=
  Math_round
    (div (add (add (avgVocabulary history) (avgClarity history))
              (avgPersuasion history))
         (of_Z 3)).

End Charts.

(* ================================================================= *)
(** ** PersonaErrorBoundary.tsx: the boundary component *)

Module Boundary.
Import JS PersonaErrorBoundary.

Record ErrorInfo : Type := { componentStack : string }.

(** What a child can throw. The types say [Error], but JavaScript throws
    any value and the boundary stores what it is handed. The component only
    tests the value for truth and reads the [message] of a truthy one, so
    that the values fall into: an [Error], or any object whose [message] is
    a string; [null]; [undefined]; another falsy value ([false], [0], the
    empty string); and another truthy value, whose [message] has no
    [toLowerCase] (a string, a number, an object without a message). *)
Inductive thrown : Type :=
| ThrownError (e : Error)
| ThrownNull
| ThrownUndefined
| ThrownFalsy
| ThrownTruthy.

(** Lines 14-18. The field [error] holds [null] or what was thrown. *)
Record State : Type := {
  hasError : bool;
  error : thrown;
  errorInfo : option ErrorInfo
}.

(** A partial state: the fields an update names. [setState] copies them
    into the state and leaves the others. *)
Record PartialState : Type := {
  upd_hasError : option bool;
  upd_error : option thrown;
  upd_errorInfo : option (option ErrorInfo)
}.

Definition setState (s : State) (p : PartialState) : State :=
  {| hasError := match upd_hasError p with Some v => v | None => hasError s end;
     error := match upd_error p with Some v => v | None => error s end;
     errorInfo :=
       match upd_errorInfo p with Some v => v | None => errorInfo s end |}.

(** Lines 25-32. *)
Definition initialState : State :=
  {| hasError := false; error := ThrownNull; errorInfo := None |}.

(** Lines 34-40. *)
Definition getDerivedStateFromError (err : thrown) : PartialState :=
  {| upd_hasError := Some true; upd_error := Some err;
     upd_errorInfo := None |}.

(** What the component does besides updating its state: it logs to the
    console and it invokes the [onReset] callback of its props. [H] is the
    type of that callback. *)
Inductive effect (H : Type) : Type :=
| ConsoleError (err : thrown) (info : ErrorInfo)
| Invoked (h : H).
Arguments ConsoleError {H} err info.
Arguments Invoked {H} h.

(** Lines 42-50. *)
Definition componentDidCatch {H : Type} (err : thrown) (info : ErrorInfo)
    (s : State) : State * list (effect H) :=
  (setState s {| upd_hasError := None; upd_error := Some err;
                 upd_errorInfo := Some (Some info) |},
   [ConsoleError err info]).

(** Lines 52-64. *)
Definition handleReset {H : Type} (onReset : option H) (s : State)
  : State * list (effect H) :=
  (setState s {| upd_hasError := Some false; upd_error := Some ThrownNull;
                 upd_errorInfo := Some None |},
   match onReset with
   | Some h => [Invoked h]
   | None => []
   end).

(** Lines 66-78: the boundary renders its children, or the fallback element
    with the value it holds, with [handleReset] as its [onReset] (always
    given) and with the [onReset] of the props as its [onGoBack]. *)
Inductive view (H : Type) : Type :=
| ShowChildren
| ShowFallback (held : thrown) (tryAgain : bool) (goBack : option H).
Arguments ShowChildren {H}.
Arguments ShowFallback {H} held tryAgain goBack.

Definition render {H : Type} (onReset : option H) (s : State) : view H :=
  if hasError s
  then ShowFallback (error s) true onReset
  else ShowChildren.

(** Lines 93-132 on the value held: [!error] sends every falsy value to the
    text for a missing error; on a truthy value [error.message.toLowerCase()]
    is evaluated, which throws a [TypeError] when the message is not a
    string. *)
Definition errorMessageOf (error : thrown) : completion errorText :=
  match error with
  | ThrownError e => Normal (getErrorMessage (Some e))
  | ThrownNull | ThrownUndefined | ThrownFalsy => Normal (getErrorMessage None)
  | ThrownTruthy => Throw TypeError
  end.

(** Lines 91-203: what the fallback shows: the text, a "Try Again" button
    when [onReset] is given and a "Back to Dashboard" button when [onGoBack]
    is given. *)
Record fallback (H : Type) : Type := {
  shownText : errorText;
  tryAgainButton : bool;
  goBackButton : option H
}.
Arguments shownText {H} f.
Arguments tryAgainButton {H} f.
Arguments goBackButton {H} f.

Definition PersonaErrorFallback {H : Type} (error : thrown) (onReset : bool)
    (onGoBack : option H) : completion (fallback H) :=
  match errorMessageOf error with
  | Normal text =>
      Normal {| shownText := text; tryAgainButton := onReset;
                goBackButton := onGoBack |}
  | Throw e => Throw e
  end.

(** A child throws while rendering (the framework then calls
    [getDerivedStateFromError] and [componentDidCatch]); the user clicks
    one of the two buttons of the fallback. A click is taken to reach its
    handler whenever the boundary renders the fallback element with that
    handler; where the fallback itself fails to render there is no button
    and no such click, so that the sequences of events that can happen are
    among the ones considered here. *)
Inductive event : Type :=
| ChildThrows (err : thrown) (info : ErrorInfo)
| ClickTryAgain
| ClickGoBack.

Definition step {H : Type} (onReset : option H) (s : State) (ev : event)
  : State * list (effect H) :=
  match ev with
  | ChildThrows err info =>
      componentDidCatch err info (setState s (getDerivedStateFromError err))
  | ClickTryAgain =>
      match render onReset s with
      | ShowFallback _ true _ => handleReset onReset s
      | _ => (s, [])
      end
  | ClickGoBack =>
      match render onReset s with
      | ShowFallback _ _ (Some h) => (s, [Invoked h])
      | _ => (s, [])
      end
  end.

Fixpoint run {H : Type} (onReset : option H) (s : State) (evs : list event)
  : State * list (effect H) :=
  match evs with
  | [] => (s, [])
  | ev :: rest =>
      let '(s1, fx1) := step onReset s ev in
      let '(s2, fx2) := run onReset s1 rest in
      (s2, fx1 ++ fx2)
  end.

End Boundary.

(* ================================================================= *)
(** ** Words for the properties of the form and of the boundary *)

Module FormSpec.
Import JSString StartForm.

(** A string of whitespace only. *)
Fixpoint blank (s : string) : bool :=
  match s with
  | EmptyString => true
  | String c rest => is_whitespace c && blank rest
  end.

(** A string that does not start, respectively end, with whitespace. *)
Definition starts_clean (s : string) : bool :=
  match s with
  | EmptyString => true
  | String c _ => negb (is_whitespace c)
  end.

Fixpoint ends_clean (s : string) : bool :=
  match s with
  | EmptyString => true
  | String c EmptyString => negb (is_whitespace c)
  | String _ rest => ends_clean rest
  end.

(** The topics typed in a sequence of events. *)
Fixpoint typed (evs : list event) : list string :=
  match evs with
  | [] => []
  | ChangeTopic value :: rest => value :: typed rest
  | _ :: rest => typed rest
  end.

End FormSpec.

Module BoundarySpec.
Import PersonaErrorBoundary Boundary.

(** The states the component can be in: the initial one, or one in which
    an error was caught. *)
Definition settled (s : State) : Prop :=
  s = initialState \/ hasError s = true.

Definition is_log {H : Type} (fx : effect H) : bool :=
  match fx with ConsoleError _ _ => true | Invoked _ => false end.

Definition is_throw (ev : event) : bool :=
  match ev with ChildThrows _ _ => true | _ => false end.

Definition is_click (ev : event) : bool :=
  match ev with ChildThrows _ _ => false | _ => true end.

End BoundarySpec.

(* ================================================================= *)
(** ** Rounding a scaled integer

    [binary_round] takes a positive integer [p] and an exponent [e], for the
    real [p * 2^e]: it first shifts [p] to the left down to the exponent
    [bexp p e], giving the mantissa [bman p e], and then rounds. [ordB p e]
    is the position of the result, before the overflow to [Infinity]. Sums,
    differences and the conversion of integers all round in this way. *)

Module Rounding.
Import JS Binary64.

Definition bexp (p : positive) (e : Z) : Z :=
  Z.min e (fexp prec emax (Zpos (digits2_pos p) + e)).

Definition bman (p : positive) (e : Z) : Z := Zpos p * 2 ^ (e - bexp p e).

Definition ordB (p : positive) (e : Z) : Z :=
  (fexp prec emax (Zpos (digits2_pos p) + e) + 1074) * 2 ^ 52
  + rne (tau (2 * bman p e)
             (1 * 2 ^ (fexp prec emax (Zpos (digits2_pos p) + e) - bexp p e))).

End Rounding.

(* ================================================================= *)
(** ** The ranges of the dashboard's inputs *)

Module RangeSpec.
Import JS Dashboard.

(** A percentage: a proper binary64 value between 0 and 100. *)
Definition percent (x : number) : bool :=
  valid_binary prec emax x && le (of_Z 0) x && le x (of_Z 100).

Definition percent_or_absent (o : option number) : bool :=
  match o with
  | Some v => percent v
  | None => true
  end.

Definition subscores_in_range (s : SessionHistoryItem) : bool :=
  percent_or_absent (vocabularyScore s)
  && percent_or_absent (clarityScore s)
  && percent_or_absent (persuasionScore s).

(** A score that is a proper binary64 value and not negative. *)
Definition nonneg_score (x : number) : bool :=
  valid_binary prec emax x && le (of_Z 0) x.

(** Line 70 of [Dashboard.tsx], as a function of the two means. *)
Definition rateOf (recentAvg olderAvg : number) : number :=
  Math_round (mul (div (sub recentAvg olderAvg) olderAvg) (of_Z 100)).

End RangeSpec.

(* ================================================================= *)
(** ** Binary64 rounding is monotone *)

Import JS Binary64.

(** The two powers of two that bound a mantissa, as numerals. *)
Ltac unpow :=
  change (2 ^ 52) with 4503599627370496 in *;
  change (2 ^ 53) with 9007199254740992 in *.

Section Binary64Facts.

(** *** Sticky codes and the shift to the right *)

Lemma tau_nonneg num den : 0 <= num -> 0 < den -> 0 <= tau num den.
Proof.
  intros Hn Hd. unfold tau.
  assert (0 <= num / den) by (apply Z.div_pos; lia).
  destruct (_ =? 0); lia.
Qed.

Lemma tau_div4 num den : 0 < den -> tau num den / 4 = num / (2 * den).
Proof.
  intros Hd. unfold tau.
  rewrite (Z.mul_comm 2 den), <- Z.div_div by lia.
  set (q := num / den).
  destruct (_ =? 0); Z.to_euclidean_division_equations; lia.
Qed.

(** Doubling the denominator, that is reading the same real one exponent
    higher, is one shift of the code. *)
Lemma tau_halve num den : 0 < den -> tau num (2 * den) = sshift (tau num den).
Proof.
  intros Hd. unfold tau, sshift.
  rewrite (Z.mul_comm 2 den), Z.rem_mul_r, <- Z.div_div by lia.
  set (q := num / den). set (r := num mod den).
  assert (Hr : 0 <= r < den) by (apply Z.mod_pos_bound; lia).
  assert (Hq2 : q mod 2 = 0 \/ q mod 2 = 1)
    by (pose proof (Z.mod_pos_bound q 2); lia).
  assert (Hq : q = 2 * (q / 2) + q mod 2) by (apply Z.div_mod; lia).
  set (h := q / 2) in *.
  destruct Hq2 as [H2|H2]; rewrite H2 in *;
    [rewrite Z.mul_0_r, Z.add_0_r|rewrite Z.mul_1_r];
    destruct (r =? 0) eqn:Er;
    [apply Z.eqb_eq in Er|apply Z.eqb_neq in Er
    |apply Z.eqb_eq in Er|apply Z.eqb_neq in Er].
  - replace (2 * q + 0) with (h * 4) by lia.
    rewrite Z.div_mul, Z.mod_mul by lia. reflexivity.
  - replace (2 * q + 1) with (1 + h * 4) by lia.
    rewrite Z.div_add, Z.mod_add by lia. reflexivity.
  - replace (r + den =? 0) with false by (symmetry; apply Z.eqb_neq; lia).
    replace (2 * q + 0) with (2 + h * 4) by lia.
    rewrite Z.div_add, Z.mod_add by lia. reflexivity.
  - replace (r + den =? 0) with false by (symmetry; apply Z.eqb_neq; lia).
    replace (2 * q + 1) with (3 + h * 4) by lia.
    rewrite Z.div_add, Z.mod_add by lia. reflexivity.
Qed.

(** [shr_1] is that shift on the record of mantissa, round and sticky
    bit. *)
Lemma code_shr_1 mrs : 0 <= shr_m mrs ->
  code (shr_1 mrs) = sshift (code mrs) /\ 0 <= shr_m (shr_1 mrs).
Proof.
  destruct mrs as [m r s]. cbn [shr_m]. intros Hm.
  unfold sshift, code.
  destruct m as [|[p|p|]|p]; try lia; destruct r, s; cbn [shr_1 shr_m shr_r shr_s orb];
    (split; [|lia]);
    match goal with |- _ = 2 * (?a / 4) + (if ?b mod 4 =? 0 then _ else _) =>
      destruct (b mod 4 =? 0) eqn:E4;
      [apply Z.eqb_eq in E4|apply Z.eqb_neq in E4] end;
    Z.to_euclidean_division_equations; lia.
Qed.

Lemma shr_1_tau mrs num den :
  0 <= shr_m mrs -> 0 < den -> code mrs = tau num den ->
  code (shr_1 mrs) = tau num (2 * den) /\ 0 <= shr_m (shr_1 mrs).
Proof.
  intros Hm Hd Hc. destruct (code_shr_1 mrs Hm) as [H1 H2].
  split; [|exact H2]. now rewrite H1, Hc, tau_halve.
Qed.

Lemma pow2_xO p : 2 ^ Zpos p~0 = 2 ^ Zpos p * 2 ^ Zpos p.
Proof. rewrite <- Z.pow_add_r by lia. f_equal. lia. Qed.

Lemma pow2_xI p : 2 ^ Zpos p~1 = 2 * (2 ^ Zpos p * 2 ^ Zpos p).
Proof.
  rewrite <- Z.pow_add_r by lia.
  rewrite <- (Z.pow_succ_r 2) by lia. f_equal. lia.
Qed.

(** [p] shifts read the real [p] exponents higher. *)
Lemma iter_shr_tau p : forall mrs num den,
  0 <= shr_m mrs -> 0 < den -> code mrs = tau num den ->
  code (iter_pos shr_1 p mrs) = tau num (den * 2 ^ Zpos p)
  /\ 0 <= shr_m (iter_pos shr_1 p mrs).
Proof.
  induction p as [p IH|p IH|]; intros mrs num den Hm Hd Hc; cbn [iter_pos].
  - destruct (shr_1_tau mrs num den Hm Hd Hc) as [H1 H1'].
    assert (Hp : 0 < 2 ^ Zpos p) by (apply Z.pow_pos_nonneg; lia).
    destruct (IH _ num (2 * den) H1' ltac:(lia) H1) as [H2 H2'].
    destruct (IH _ num (2 * den * 2 ^ Zpos p) H2' ltac:(nia) H2) as [H3 H3'].
    split; [|exact H3']. rewrite H3. f_equal. rewrite pow2_xI. ring.
  - assert (Hp : 0 < 2 ^ Zpos p) by (apply Z.pow_pos_nonneg; lia).
    destruct (IH _ num den Hm Hd Hc) as [H2 H2'].
    destruct (IH _ num (den * 2 ^ Zpos p) H2' ltac:(nia) H2) as [H3 H3'].
    split; [|exact H3']. rewrite H3. f_equal. rewrite pow2_xO. ring.
  - destruct (shr_1_tau mrs num den Hm Hd Hc) as [H1 H1'].
    split; [|exact H1']. rewrite H1. f_equal. change (2 ^ 1) with 2. ring.
Qed.

(** *** The number of binary digits *)
Lemma digits2_pos_bounds p :
  2 ^ (Zpos (digits2_pos p) - 1) <= Zpos p < 2 ^ Zpos (digits2_pos p).
Proof.
  induction p as [p IH|p IH|]; cbn [digits2_pos].
  - rewrite Pos2Z.inj_succ.
    replace (Z.succ (Zpos (digits2_pos p)) - 1)
      with (Z.succ (Zpos (digits2_pos p) - 1)) by lia.
    rewrite !Z.pow_succ_r by lia. lia.
  - rewrite Pos2Z.inj_succ.
    replace (Z.succ (Zpos (digits2_pos p)) - 1)
      with (Z.succ (Zpos (digits2_pos p) - 1)) by lia.
    rewrite !Z.pow_succ_r by lia. lia.
  - cbn. lia.
Qed.

Lemma Zdigits2_bounds m : 0 < m ->
  0 < Zdigits2 m /\ 2 ^ (Zdigits2 m - 1) <= m < 2 ^ Zdigits2 m.
Proof.
  destruct m as [|p|p]; try lia. intros _. cbn [Zdigits2].
  split; [lia|apply digits2_pos_bounds].
Qed.

Lemma Zdigits2_unique m k : 0 < m -> 2 ^ (k - 1) <= m < 2 ^ k -> Zdigits2 m = k.
Proof.
  intros Hm [Hlo Hhi].
  destruct (Zdigits2_bounds m Hm) as (Hd & Hlo' & Hhi').
  assert (Hk : 0 < k).
  { destruct (Z.lt_trichotomy k 0) as [H|[H|H]]; try assumption.
    - rewrite Z.pow_neg_r in Hhi by lia. lia.
    - subst k. cbn in Hhi. lia. }
  assert (H1 : k - 1 < Zdigits2 m).
  { apply (Z.pow_lt_mono_r_iff 2); lia. }
  assert (H2 : Zdigits2 m - 1 < k).
  { apply (Z.pow_lt_mono_r_iff 2); lia. }
  lia.
Qed.

Lemma Zdigits2_upper m d : 0 <= d -> 0 <= m < 2 ^ d -> Zdigits2 m <= d.
Proof.
  intros Hd [Hm Hhi]. destruct (Z.eq_dec m 0) as [->|Hne]; [cbn; lia|].
  destruct (Zdigits2_bounds m ltac:(lia)) as (Hp & Hlo & _).
  assert (Zdigits2 m - 1 < d) by (apply (Z.pow_lt_mono_r_iff 2); lia).
  lia.
Qed.

(** *** Rounding a code *)
Lemma rne_code mrs :
  round_nearest_even (shr_m mrs) (loc_of_shr_record mrs) = rne (code mrs).
Proof.
  destruct mrs as [m r s]. unfold rne, code. cbn [shr_m shr_r shr_s].
  destruct r, s; cbn [loc_of_shr_record round_nearest_even].
  - replace (4 * m + 2 + 1) with (3 + m * 4) by lia.
    rewrite Z.div_add, Z.mod_add by lia. reflexivity.
  - replace (4 * m + 2 + 0) with (2 + m * 4) by lia.
    rewrite Z.div_add, Z.mod_add by lia. reflexivity.
  - replace (4 * m + 0 + 1) with (1 + m * 4) by lia.
    rewrite Z.div_add, Z.mod_add by lia. reflexivity.
  - replace (4 * m + 0 + 0) with (0 + m * 4) by lia.
    rewrite Z.div_add, Z.mod_add by lia. reflexivity.
Qed.

Lemma rne_bounds t : t / 4 <= rne t <= t / 4 + 1.
Proof.
  unfold rne. cbv zeta.
  destruct (_ <? 2); [lia|]. destruct (_ =? 2); [|lia].
  destruct (Z.even _); lia.
Qed.

Lemma rne_low t : t mod 4 = 0 -> rne t = t / 4.
Proof. intros H. unfold rne. cbv zeta. now rewrite H. Qed.

Lemma rne_mono t1 t2 : t1 <= t2 -> rne t1 <= rne t2.
Proof.
  intros Hle.
  assert (Hd : t1 / 4 <= t2 / 4) by (apply Z.div_le_mono; lia).
  destruct (Z.eq_dec (t1 / 4) (t2 / 4)) as [Heq|Hne].
  - assert (Hm : t1 mod 4 <= t2 mod 4).
    { rewrite (Z.div_mod t1 4), (Z.div_mod t2 4) in Hle by lia. lia. }
    pose proof (Z.mod_pos_bound t1 4 ltac:(lia)) as B1.
    pose proof (Z.mod_pos_bound t2 4 ltac:(lia)) as B2.
    unfold rne. cbv zeta. rewrite Heq.
    destruct (Z.ltb_spec (t1 mod 4) 2), (Z.ltb_spec (t2 mod 4) 2);
      destruct (Z.eqb_spec (t1 mod 4) 2), (Z.eqb_spec (t2 mod 4) 2);
      destruct (Z.even (t2 / 4)); lia.
  - pose proof (rne_bounds t1). pose proof (rne_bounds t2). lia.
Qed.

Lemma shr_m_of_loc m l : shr_m (shr_record_of_loc m l) = m.
Proof. destruct l as [|[| |]]; reflexivity. Qed.

Lemma fexp_eq e : fexp prec emax e = Z.max (e - 53) (-1074).
Proof. reflexivity. Qed.

(** The first shift of [binary_round_aux] brings the code to the exponent
    of the format. *)
Lemma shr_fexp_tau m e l num den :
  0 <= m -> 0 < den -> code (shr_record_of_loc m l) = tau num den ->
  e <= fexp prec emax (Zdigits2 m + e) ->
  exists mrs,
    shr_fexp prec emax m e l = (mrs, fexp prec emax (Zdigits2 m + e))
    /\ 0 <= shr_m mrs
    /\ code mrs = tau num (den * 2 ^ (fexp prec emax (Zdigits2 m + e) - e)).
Proof.
  intros Hm Hd Hc He. unfold shr_fexp, shr.
  set (E := fexp prec emax (Zdigits2 m + e)) in *.
  destruct (E - e) as [|p|p] eqn:Hn; try lia.
  - exists (shr_record_of_loc m l). repeat split.
    + f_equal. lia.
    + now rewrite shr_m_of_loc.
    + now rewrite Z.pow_0_r, Z.mul_1_r.
  - destruct (iter_shr_tau p (shr_record_of_loc m l) num den) as [H1 H2];
      [now rewrite shr_m_of_loc|exact Hd|exact Hc|].
    exists (iter_pos shr_1 p (shr_record_of_loc m l)). repeat split.
    + f_equal. lia.
    + exact H2.
    + exact H1.
Qed.

Lemma pow2_pos n : 0 <= n -> 0 < 2 ^ n.
Proof. intros. apply Z.pow_pos_nonneg; lia. Qed.

(** At that exponent the mantissa fits in 53 bits, and fills them above
    the least exponent. *)
Lemma shifted_bounds m e :
  0 <= m ->
  e <= fexp prec emax (Zdigits2 m + e) ->
  0 <= m / 2 ^ (fexp prec emax (Zdigits2 m + e) - e) < 2 ^ 53
  /\ (-1074 < fexp prec emax (Zdigits2 m + e) ->
      2 ^ 52 <= m / 2 ^ (fexp prec emax (Zdigits2 m + e) - e)).
Proof.
  intros Hm. rewrite fexp_eq. intros He.
  set (E := Z.max (Zdigits2 m + e - 53) (-1074)) in *.
  assert (Hn : 0 <= E - e) by lia.
  pose proof (pow2_pos (E - e) Hn) as Hp.
  destruct (Z.eq_dec m 0) as [->|Hne].
  - cbn [Zdigits2] in *. rewrite Z.div_0_l by lia.
    split; [split; [lia|reflexivity]|]. lia.
  - destruct (Zdigits2_bounds m ltac:(lia)) as (Hd & Hlo & Hhi).
    set (d := Zdigits2 m) in *.
    split; [split|].
    + apply Z.div_pos; lia.
    + apply Z.div_lt_upper_bound; [exact Hp|].
      rewrite <- Z.pow_add_r by lia.
      apply Z.lt_le_trans with (1 := Hhi).
      apply Z.pow_le_mono_r; lia.
    + intros HE. apply Z.div_le_lower_bound; [exact Hp|].
      rewrite <- Z.pow_add_r by lia.
      replace (E - e + 52) with (d - 1) by lia. exact Hlo.
Qed.

Lemma code_div4 mrs : code mrs / 4 = shr_m mrs.
Proof.
  destruct mrs as [m r s]. unfold code. cbn [shr_m shr_r shr_s].
  destruct r, s; Z.to_euclidean_division_equations; lia.
Qed.

(** The result of [binary_round_aux] on a non-negative real given by its
    code: a canonical number whose position is the exponent's offset plus
    the rounded mantissa, capped at [Infinity]. The carry of a mantissa
    rounded up to [2^53] is the position of the next binade's first
    number. *)
Lemma binary_round_aux_ord m e l num den :
  0 <= m -> 0 < den ->
  code (shr_record_of_loc m l) = tau num den ->
  e <= fexp prec emax (Zdigits2 m + e) ->
  nonneg_wf (binary_round_aux prec emax false m e l)
  /\ ford (binary_round_aux prec emax false m e l)
     = Z.min ((fexp prec emax (Zdigits2 m + e) + 1074) * 2 ^ 52
              + rne (tau num (den * 2 ^ (fexp prec emax (Zdigits2 m + e) - e))))
             INF.
Proof.
  intros Hm Hd Hc He.
  destruct (shr_fexp_tau m e l num den Hm Hd Hc He) as (mrs & Hs & Hm' & Hc').
  destruct (shifted_bounds m e Hm He) as [[_ Hup] Hlow].
  set (E := fexp prec emax (Zdigits2 m + e)) in *.
  assert (HE : -1074 <= E) by (subst E; rewrite fexp_eq; lia).
  assert (Hn : 0 <= E - e) by lia.
  pose proof (pow2_pos (E - e) Hn) as Hp.
  assert (Hmm : shr_m mrs = m / 2 ^ (E - e)).
  { assert (Hm0 : m = num / (2 * den))
      by (now rewrite <- (shr_m_of_loc m l), <- code_div4, Hc, tau_div4).
    rewrite <- code_div4, Hc', tau_div4 by nia.
    rewrite Hm0, Z.div_div by lia. f_equal. ring. }
  rewrite <- Hmm in Hup, Hlow.
  unfold binary_round_aux. rewrite Hs.
  rewrite rne_code, Hc'.
  set (T := tau num (den * 2 ^ (E - e))) in *.
  assert (HT4 : T / 4 = shr_m mrs) by (now rewrite <- Hc', code_div4).
  pose proof (rne_bounds T) as Hb. rewrite HT4 in Hb.
  set (m1 := rne T) in *.
  unfold INF. unpow.
  destruct (Z.eq_dec m1 0) as [H0|H0];
    [|destruct (Z.eq_dec m1 9007199254740992) as [H53|H53]].
  - (* rounds to zero *)
    assert (HE0 : E = -1074) by lia.
    rewrite H0, HE0. cbn. split; [exact I|reflexivity].
  - (* carry into the next binade *)
    rewrite H53. unfold shr_fexp.
    change (Zdigits2 9007199254740992) with 54.
    rewrite fexp_eq. replace (Z.max (54 + E - 53) (-1074) - E) with 1 by lia.
    cbn [shr shr_record_of_loc iter_pos shr_1 shr_m].
    change (emax - prec) with 971.
    destruct (Z.leb_spec (E + 1) 971) as [Hle|Hgt]; cbn [nonneg_wf ford]; unpow.
    + split; [repeat split; lia|]. lia.
    + split; [exact I|]. unfold INF. unpow. lia.
  - (* no carry *)
    assert (Hpos : 0 < m1 < 9007199254740992) by lia.
    assert (Hfx : fexp prec emax (Zdigits2 m1 + E) - E = 0).
    { rewrite fexp_eq.
      destruct (Z.eq_dec E (-1074)) as [HE0|HE0].
      - pose proof (Zdigits2_upper m1 53 ltac:(lia) ltac:(unpow; lia)). lia.
      - rewrite (Zdigits2_unique m1 53)
          by (change (2 ^ (53 - 1)) with (2 ^ 52); unpow; lia).
        lia. }
    unfold shr_fexp. rewrite Hfx. cbn [shr shr_record_of_loc shr_m].
    destruct m1 as [|p|p] eqn:Hm1; try lia.
    change (emax - prec) with 971.
    destruct (Z.leb_spec E 971) as [Hle|Hgt]; cbn [nonneg_wf ford]; unpow.
    + split; [repeat split; lia|]. lia.
    + split; [exact I|]. unfold INF. unpow.
      assert (4503599627370496 <= Z.pos p) by lia. lia.
Qed.

(** *** The position of the result is monotone in the real *)
Lemma tau_mono a1 b1 a2 b2 :
  0 < b1 -> 0 < b2 -> a1 * b2 <= a2 * b1 -> tau a1 b1 <= tau a2 b2.
Proof.
  intros H1 H2 Hle. unfold tau.
  pose proof (Z.div_mod a1 b1 ltac:(lia)) as D1.
  pose proof (Z.div_mod a2 b2 ltac:(lia)) as D2.
  pose proof (Z.mod_pos_bound a1 b1 H1) as B1.
  pose proof (Z.mod_pos_bound a2 b2 H2) as B2.
  set (q1 := a1 / b1) in *. set (q2 := a2 / b2) in *.
  set (r1 := a1 mod b1) in *. set (r2 := a2 mod b2) in *.
  assert (Hq : q1 <= q2).
  { destruct (Z.le_gt_cases q1 q2) as [|Hgt]; [assumption|exfalso].
    assert (q2 + 1 <= q1) by lia.
    assert (b1 * b2 * (q2 + 1) <= b1 * b2 * q1) by (apply Z.mul_le_mono_nonneg_l; nia).
    nia. }
  destruct (Z.eqb_spec r1 0) as [E1|E1], (Z.eqb_spec r2 0) as [E2|E2]; try lia.
  destruct (Z.eq_dec q1 q2) as [Heq|Hne]; [exfalso|lia].
  rewrite Heq, E2 in *. nia.
Qed.

Lemma Zdigits2_lt m : 0 <= m -> m < 2 ^ Zdigits2 m.
Proof.
  intros Hm. destruct (Z.eq_dec m 0) as [->|Hne]; [reflexivity|].
  now destruct (Zdigits2_bounds m ltac:(lia)) as (_ & _ & H).
Qed.

Lemma fexp_mono a b : a <= b -> fexp prec emax a <= fexp prec emax b.
Proof. rewrite !fexp_eq. lia. Qed.

(** Two reals [(num1 / den1) * 2^(e1-1) <= (num2 / den2) * 2^(e2-1)], each
    given at its own exponent, round to positions in the same order. *)
Lemma ord_mono m1 e1 num1 den1 m2 e2 num2 den2 :
  0 <= m1 -> 0 <= m2 -> 0 < den1 -> 0 < den2 ->
  m1 = num1 / (2 * den1) -> m2 = num2 / (2 * den2) ->
  e1 <= fexp prec emax (Zdigits2 m1 + e1) ->
  e2 <= fexp prec emax (Zdigits2 m2 + e2) ->
  num1 * den2 * 2 ^ (e1 - Z.min e1 e2) <= num2 * den1 * 2 ^ (e2 - Z.min e1 e2) ->
  (fexp prec emax (Zdigits2 m1 + e1) + 1074) * 2 ^ 52
  + rne (tau num1 (den1 * 2 ^ (fexp prec emax (Zdigits2 m1 + e1) - e1)))
  <= (fexp prec emax (Zdigits2 m2 + e2) + 1074) * 2 ^ 52
     + rne (tau num2 (den2 * 2 ^ (fexp prec emax (Zdigits2 m2 + e2) - e2))).
Proof.
  intros Hm1 Hm2 Hd1 Hd2 Hn1 Hn2 He1 He2 Hle.
  destruct (shifted_bounds m1 e1 Hm1 He1) as [[_ Hup1] Hlow1].
  destruct (shifted_bounds m2 e2 Hm2 He2) as [[_ Hup2] Hlow2].
  set (E1 := fexp prec emax (Zdigits2 m1 + e1)) in *.
  set (E2 := fexp prec emax (Zdigits2 m2 + e2)) in *.
  pose proof (pow2_pos (E1 - e1) ltac:(lia)) as Hp1.
  pose proof (pow2_pos (E2 - e2) ltac:(lia)) as Hp2.
  set (T1 := tau num1 (den1 * 2 ^ (E1 - e1))).
  set (T2 := tau num2 (den2 * 2 ^ (E2 - e2))).
  assert (HT1 : T1 / 4 = m1 / 2 ^ (E1 - e1)).
  { unfold T1. rewrite tau_div4 by nia. rewrite Hn1, Z.div_div by lia.
    f_equal. ring. }
  assert (HT2 : T2 / 4 = m2 / 2 ^ (E2 - e2)).
  { unfold T2. rewrite tau_div4 by nia. rewrite Hn2, Z.div_div by lia.
    f_equal. ring. }
  pose proof (rne_bounds T1) as Hb1. pose proof (rne_bounds T2) as Hb2.
  rewrite HT1 in Hb1. rewrite HT2 in Hb2.
  set (mu := Z.min e1 e2) in *.
  pose proof (pow2_pos (e1 - mu) ltac:(lia)) as Hq1.
  pose proof (pow2_pos (e2 - mu) ltac:(lia)) as Hq2.
  destruct (Z.lt_trichotomy E1 E2) as [Hlt|[Heq|Hgt]].
  - (* the second value lies in a higher binade *)
    assert (-1074 <= E1) by (subst E1; rewrite fexp_eq; lia).
    specialize (Hlow2 ltac:(lia)). unpow. nia.
  - (* same binade *)
    apply Z.add_le_mono; [rewrite Heq; lia|]. apply rne_mono.
    apply tau_mono; [nia|nia|].
    rewrite <- Heq.
    set (M := Z.max e1 e2).
    pose proof (pow2_pos (E1 - M) ltac:(lia)) as HK.
    replace (2 ^ (E1 - e2)) with (2 ^ (e1 - mu) * 2 ^ (E1 - M))
      by (rewrite <- Z.pow_add_r by lia; f_equal; lia).
    replace (2 ^ (E1 - e1)) with (2 ^ (e2 - mu) * 2 ^ (E1 - M))
      by (rewrite <- Z.pow_add_r by lia; f_equal; lia).
    replace (num1 * (den2 * (2 ^ (e1 - mu) * 2 ^ (E1 - M))))
      with (num1 * den2 * 2 ^ (e1 - mu) * 2 ^ (E1 - M)) by ring.
    replace (num2 * (den1 * (2 ^ (e2 - mu) * 2 ^ (E1 - M))))
      with (num2 * den1 * 2 ^ (e2 - mu) * 2 ^ (E1 - M)) by ring.
    apply Z.mul_le_mono_nonneg_r; lia.
  - (* impossible: the first value would be the larger one *)
    exfalso.
    assert (HE2 : -1074 <= E2) by (subst E2; rewrite fexp_eq; lia).
    assert (HE1 : E1 = Zdigits2 m1 + e1 - 53) by (subst E1; rewrite fexp_eq in *; lia).
    assert (Hd : Zdigits2 m2 + e2 < Zdigits2 m1 + e1).
    { destruct (Z.lt_ge_cases (Zdigits2 m2 + e2) (Zdigits2 m1 + e1)); [assumption|].
      pose proof (fexp_mono (Zdigits2 m1 + e1) (Zdigits2 m2 + e2) ltac:(lia)). lia. }
    assert (Hm1pos : 0 < m1).
    { destruct (Z.eq_dec m1 0) as [Hz|]; [|lia]. rewrite Hz in HE1. cbn in HE1. lia. }
    destruct (Zdigits2_bounds m1 Hm1pos) as (Hdp & Hlo & _).
    pose proof (Zdigits2_lt m2 Hm2) as Hhi.
    assert (Hdn2 : 0 <= Zdigits2 m2) by (destruct m2; cbn; lia).
    set (d1 := Zdigits2 m1) in *. set (d2 := Zdigits2 m2) in *.
    assert (A1 : 2 * den1 * m1 <= num1)
      by (rewrite Hn1; apply Z.mul_div_le; lia).
    assert (A2 : num2 < 2 * den2 * (m2 + 1)).
    { rewrite Hn2. pose proof (Z.mul_succ_div_gt num2 (2 * den2) ltac:(lia)). lia. }
    set (P1 := 2 ^ (e1 - mu)) in *. set (P2 := 2 ^ (e2 - mu)) in *.
    assert (A3 : m1 * P1 < (m2 + 1) * P2).
    { assert (2 * den1 * m1 * (den2 * P1) <= num1 * (den2 * P1))
        by (apply Z.mul_le_mono_nonneg_r; nia).
      assert (num2 * (den1 * P2) < 2 * den2 * (m2 + 1) * (den1 * P2))
        by (apply Z.mul_lt_mono_pos_r; nia).
      assert (2 * den1 * den2 * (m1 * P1) < 2 * den1 * den2 * ((m2 + 1) * P2)) by lia.
      apply Z.mul_lt_mono_pos_l in H1; [exact H1|nia]. }
    assert (A4 : 2 ^ (d1 - 1) * P1 < 2 ^ d2 * P2).
    { apply Z.le_lt_trans with (m1 * P1); [apply Z.mul_le_mono_nonneg_r; lia|].
      apply Z.lt_le_trans with (1 := A3). apply Z.mul_le_mono_nonneg_r; lia. }
    unfold P1, P2 in A4. rewrite <- !Z.pow_add_r in A4 by lia.
    apply Z.pow_lt_mono_r_iff in A4; lia.
Qed.

(** *** Order on the non-negative numbers, and multiplication *)
Lemma ford_range x : nonneg_wf x -> 0 <= ford x <= INF.
Proof.
  destruct x as [[|]|[|]| |[|] m e]; cbn [nonneg_wf ford]; unfold INF; unpow;
    try contradiction; intros; lia.
Qed.

(** On canonical non-negative numbers [<=] is the order of positions. *)
Lemma SFleb_ford x y :
  nonneg_wf x -> nonneg_wf y -> (SFleb x y = true <-> ford x <= ford y).
Proof.
  destruct x as [[|]|[|]| |[|] mx ex]; try contradiction;
    destruct y as [[|]|[|]| |[|] my ey]; try contradiction;
    cbn [nonneg_wf ford]; unfold INF, SFleb; cbn [SFcompare]; unpow;
    intros Hx Hy; try (split; [intros _; lia|reflexivity]);
    try (split; [discriminate|intros; lia]).
  destruct (Z.compare_spec ex ey) as [Heq|Hlt|Hgt].
  - subst ey. rewrite Pos.compare_cont_spec. cbn [Pos.switch_Eq].
    destruct (Pos.compare_spec mx my); split; try reflexivity; try discriminate; lia.
  - split; [intros _|reflexivity]. nia.
  - split; [discriminate|]. nia.
Qed.

(** ... and the order of the values [m * 2^e]. *)
Lemma ford_le_val mx ex my ey :
  nonneg_wf (S754_finite false mx ex) -> nonneg_wf (S754_finite false my ey) ->
  ford (S754_finite false mx ex) <= ford (S754_finite false my ey) ->
  Zpos mx * 2 ^ (ex - Z.min ex ey) <= Zpos my * 2 ^ (ey - Z.min ex ey).
Proof.
  cbn [nonneg_wf ford]. unpow. intros Hx Hy Hle.
  destruct (Z.lt_trichotomy ex ey) as [Hlt|[Heq|Hgt]].
  - rewrite Z.min_l by lia. rewrite Z.sub_diag, Z.pow_0_r, Z.mul_1_r.
    assert (2 ^ 1 <= 2 ^ (ey - ex)) by (apply Z.pow_le_mono_r; lia).
    change (2 ^ 1) with 2 in *. nia.
  - subst ey. rewrite Z.min_id, Z.sub_diag, Z.pow_0_r. lia.
  - exfalso. nia.
Qed.

Lemma tau_exact m : tau (2 * m) 1 = 4 * m.
Proof. unfold tau. rewrite Z.div_1_r, Z.mod_1_r, Z.eqb_refl. lia. Qed.

Lemma code_exact m : code (shr_record_of_loc m loc_Exact) = tau (2 * m) 1.
Proof. rewrite tau_exact. unfold code. cbn [shr_record_of_loc shr_m shr_r shr_s]. lia. Qed.

Lemma wf_digits m e :
  nonneg_wf (S754_finite false m e) ->
  Zpos (digits2_pos m) <= 53 /\ (-1074 < e -> Zpos (digits2_pos m) = 53).
Proof.
  cbn [nonneg_wf]. intros (He & Hm & Hn). split.
  - apply (Zdigits2_upper (Zpos m) 53); lia.
  - intros H. apply (Zdigits2_unique (Zpos m) 53); [lia|].
    change (2 ^ (53 - 1)) with (2 ^ 52). specialize (Hn H). lia.
Qed.

Lemma digits_mul_lower (a b : positive) :
  Zpos (digits2_pos a) + Zpos (digits2_pos b) - 1 <= Zpos (digits2_pos (a * b)).
Proof.
  pose proof (digits2_pos_bounds a) as [La _].
  pose proof (digits2_pos_bounds b) as [Lb _].
  pose proof (digits2_pos_bounds (a * b)) as [_ Hab].
  set (da := Zpos (digits2_pos a)) in *. set (db := Zpos (digits2_pos b)) in *.
  assert (H : 2 ^ (da - 1 + (db - 1)) < 2 ^ Zpos (digits2_pos (a * b))).
  { rewrite Z.pow_add_r by lia. rewrite Pos2Z.inj_mul in Hab.
    apply Z.le_lt_trans with (2 := Hab). apply Z.mul_le_mono_nonneg; try lia;
      apply Z.pow_nonneg; lia. }
  apply Z.pow_lt_mono_r_iff in H; lia.
Qed.

Lemma mul_precondition mx ex mc ec :
  nonneg_wf (S754_finite false mx ex) -> nonneg_wf (S754_finite false mc ec) ->
  ex + ec <= fexp prec emax (Zdigits2 (Zpos (mx * mc)) + (ex + ec)).
Proof.
  intros Hx Hc. destruct (wf_digits _ _ Hx) as [Dx Nx].
  destruct (wf_digits _ _ Hc) as [Dc Nc].
  pose proof (digits_mul_lower mx mc) as Hd.
  cbn [nonneg_wf] in Hx, Hc. rewrite fexp_eq. cbn [Zdigits2].
  destruct (Z.eq_dec ex (-1074)), (Z.eq_dec ec (-1074)); lia.
Qed.

Lemma mul_finite_ord mx ex mc ec :
  nonneg_wf (S754_finite false mx ex) -> nonneg_wf (S754_finite false mc ec) ->
  nonneg_wf (SFmul prec emax (S754_finite false mx ex) (S754_finite false mc ec))
  /\ ford (SFmul prec emax (S754_finite false mx ex) (S754_finite false mc ec))
     = Z.min ((fexp prec emax (Zdigits2 (Zpos (mx * mc)) + (ex + ec)) + 1074) * 2 ^ 52
              + rne (tau (2 * Zpos (mx * mc))
                         (1 * 2 ^ (fexp prec emax (Zdigits2 (Zpos (mx * mc)) + (ex + ec))
                                   - (ex + ec)))))
             INF.
Proof.
  intros Hx Hc. cbn [SFmul xorb].
  apply binary_round_aux_ord; try lia.
  - apply code_exact.
  - now apply mul_precondition.
Qed.

Lemma mul_wf x c :
  nonneg_wf x -> nonneg_wf c -> finite_pos c -> nonneg_wf (SFmul prec emax x c).
Proof.
  intros Hx Hc Hf.
  destruct c as [[|]|[|]| |[|] mc ec]; try contradiction.
  destruct x as [[|]|[|]| |[|] mx ex]; try contradiction; try exact I.
  now apply mul_finite_ord.
Qed.

(** Multiplying by a positive finite number is monotone. *)
Lemma mul_mono x y c :
  nonneg_wf x -> nonneg_wf y -> nonneg_wf c -> finite_pos c ->
  ford x <= ford y ->
  ford (SFmul prec emax x c) <= ford (SFmul prec emax y c).
Proof.
  intros Hx Hy Hc Hf Hle.
  pose proof (ford_range _ (mul_wf x c Hx Hc Hf)) as Rx.
  pose proof (ford_range _ (mul_wf y c Hy Hc Hf)) as Ry.
  destruct c as [[|]|[|]| |[|] mc ec]; try contradiction.
  destruct x as [[|]|[|]| |[|] mx ex]; try contradiction;
    destruct y as [[|]|[|]| |[|] my ey]; try contradiction;
    try (cbn [SFmul xorb ford] in *; lia);
    try (exfalso; cbn [ford nonneg_wf] in *; unfold INF in *; unpow; lia).
  destruct (mul_finite_ord mx ex mc ec Hx Hc) as [_ ->].
  destruct (mul_finite_ord my ey mc ec Hy Hc) as [_ ->].
  apply Z.min_le_compat_r.
  apply ord_mono; try lia.
  - rewrite Z.mul_1_r, Z.mul_comm, Z.div_mul; lia.
  - rewrite Z.mul_1_r, Z.mul_comm, Z.div_mul; lia.
  - now apply mul_precondition.
  - now apply mul_precondition.
  - pose proof (ford_le_val mx ex my ey Hx Hy Hle) as Hv.
    replace (ex + ec - Z.min (ex + ec) (ey + ec)) with (ex - Z.min ex ey) by lia.
    replace (ey + ec - Z.min (ex + ec) (ey + ec)) with (ey - Z.min ex ey) by lia.
    rewrite !Pos2Z.inj_mul, !Z.mul_1_r. nia.
Qed.

(** *** Integers as numbers *)
Lemma iter_xO m d : Zpos (Pos.iter xO m d) = Zpos m * 2 ^ Zpos d.
Proof.
  induction d as [|d IH] using Pos.peano_ind.
  - cbn [Pos.iter]. change (2 ^ 1) with 2. lia.
  - rewrite Pos.iter_succ, Pos2Z.inj_xO, IH, Pos2Z.inj_succ, Z.pow_succ_r by lia.
    ring.
Qed.

Lemma Zdigits2_shift m k :
  0 < m -> 0 <= k -> Zdigits2 (m * 2 ^ k) = Zdigits2 m + k.
Proof.
  intros Hm Hk. destruct (Zdigits2_bounds m Hm) as (Hd & Hlo & Hhi).
  pose proof (pow2_pos k Hk) as Hp.
  apply Zdigits2_unique; [nia|].
  replace (Zdigits2 m + k - 1) with (Zdigits2 m - 1 + k) by lia.
  rewrite !Z.pow_add_r by lia. nia.
Qed.

Lemma zexp_range p : -52 <= zexp p <= 0.
Proof. unfold zexp. rewrite fexp_eq. lia. Qed.

Lemma zman_pos p : 0 < zman p.
Proof.
  unfold zman. pose proof (zexp_range p).
  pose proof (pow2_pos (- zexp p) ltac:(lia)). nia.
Qed.

Lemma zman_digits p : Zdigits2 (zman p) + zexp p = Zpos (digits2_pos p).
Proof.
  unfold zman. pose proof (zexp_range p).
  rewrite Zdigits2_shift by lia. cbn [Zdigits2]. lia.
Qed.

Lemma of_Z_pos_eq p :
  binary_normalize prec emax (Zpos p) 0 false
  = binary_round_aux prec emax false (zman p) (zexp p) loc_Exact.
Proof.
  cbn [binary_normalize]. unfold binary_round, shl_align, zman, zexp.
  rewrite Z.add_0_r, Z.sub_0_r.
  destruct (fexp prec emax (Zpos (digits2_pos p))) as [|f|f] eqn:Hf.
  - rewrite Z.min_id. cbn [Z.opp]. now rewrite Z.pow_0_r, Z.mul_1_r.
  - rewrite Z.min_l by lia. cbn [Z.opp]. now rewrite Z.pow_0_r, Z.mul_1_r.
  - rewrite Z.min_r by lia. cbn [Z.opp]. now rewrite iter_xO.
Qed.

Lemma of_Z_pos_ord p :
  nonneg_wf (binary_normalize prec emax (Zpos p) 0 false)
  /\ ford (binary_normalize prec emax (Zpos p) 0 false) = Z.min (ordZ p) INF.
Proof.
  rewrite of_Z_pos_eq. unfold ordZ. rewrite <- (zman_digits p).
  pose proof (zman_pos p).
  apply binary_round_aux_ord; try lia.
  - apply code_exact.
  - rewrite zman_digits. unfold zexp. lia.
Qed.

Lemma ordZ_mono p q : (p <= q)%positive -> ordZ p <= ordZ q.
Proof.
  intros Hle. unfold ordZ. rewrite <- (zman_digits p), <- (zman_digits q).
  pose proof (zman_pos p). pose proof (zman_pos q).
  pose proof (zexp_range p) as Rp. pose proof (zexp_range q) as Rq.
  apply ord_mono; try lia.
  - rewrite Z.mul_1_r, Z.mul_comm, Z.div_mul; lia.
  - rewrite Z.mul_1_r, Z.mul_comm, Z.div_mul; lia.
  - rewrite zman_digits. unfold zexp. lia.
  - rewrite zman_digits. unfold zexp. lia.
  - unfold zman. set (mu := Z.min (zexp p) (zexp q)).
    rewrite !Z.mul_1_r.
    replace (2 * (Zpos p * 2 ^ (- zexp p)) * 2 ^ (zexp p - mu))
      with (2 * Zpos p * (2 ^ (- zexp p) * 2 ^ (zexp p - mu))) by ring.
    replace (2 * (Zpos q * 2 ^ (- zexp q)) * 2 ^ (zexp q - mu))
      with (2 * Zpos q * (2 ^ (- zexp q) * 2 ^ (zexp q - mu))) by ring.
    rewrite <- !Z.pow_add_r by lia.
    replace (- zexp p + (zexp p - mu)) with (- mu) by lia.
    replace (- zexp q + (zexp q - mu)) with (- mu) by lia.
    pose proof (pow2_pos (- mu) ltac:(lia)).
    apply Z.mul_le_mono_nonneg_r; lia.
Qed.

Lemma rne_nonneg t : 0 <= t -> 0 <= rne t.
Proof.
  intros Ht. pose proof (rne_bounds t).
  assert (0 <= t / 4) by (apply Z.div_pos; lia). lia.
Qed.

Lemma ordZ_pos p : 0 < ordZ p.
Proof.
  unfold ordZ. pose proof (zexp_range p) as R.
  pose proof (zman_pos p).
  assert (0 <= rne (tau (2 * zman p)
             (1 * 2 ^ (fexp prec emax (Zpos (digits2_pos p)) - zexp p)))).
  { apply rne_nonneg, tau_nonneg; [lia|].
    rewrite Z.mul_1_l. apply pow2_pos. unfold zexp. lia. }
  rewrite fexp_eq in *. unpow. lia.
Qed.

(** An integer that is a number is converted to itself. *)
Lemma ordZ_exact m e :
  nonneg_wf (S754_finite false m e) -> 0 <= e ->
  ordZ (Z.to_pos (Zpos m * 2 ^ e)) = ford (S754_finite false m e).
Proof.
  intros Hwf He. destruct (wf_digits m e Hwf) as [_ Hd].
  specialize (Hd ltac:(lia)).
  pose proof (pow2_pos e He) as Hp.
  assert (Hpos : 0 < Zpos m * 2 ^ e) by nia.
  assert (Hdig : Zpos (digits2_pos (Z.to_pos (Zpos m * 2 ^ e))) = 53 + e).
  { change (Zpos (digits2_pos ?p)) with (Zdigits2 (Zpos p)).
    rewrite Z2Pos.id by exact Hpos.
    rewrite Zdigits2_shift by lia. cbn [Zdigits2]. lia. }
  unfold ordZ, zman, zexp. rewrite Hdig, fexp_eq.
  rewrite Z2Pos.id by exact Hpos.
  replace (Z.max (53 + e - 53) (-1074)) with e by lia.
  rewrite Z.min_l by lia. cbn [Z.opp]. rewrite Z.pow_0_r, Z.sub_0_r, Z.mul_1_r, Z.mul_1_l.
  unfold tau.
  replace (2 * (Zpos m * 2 ^ e)) with (2 * Zpos m * 2 ^ e) by ring.
  rewrite Z.div_mul, Z.mod_mul, Z.eqb_refl by lia.
  rewrite rne_low.
  - cbn [ford]. replace (2 * (2 * Zpos m) + 0) with (Zpos m * 4) by lia.
    rewrite Z.div_mul by lia. reflexivity.
  - replace (2 * (2 * Zpos m) + 0) with (Zpos m * 4) by lia.
    apply Z.mod_mul. lia.
Qed.

(** *** Division *)
(** The location that the division computes from the remainder is the
    code of the quotient. *)
Lemma new_location_code mc q r :
  0 < mc -> 0 <= r < mc ->
  code (shr_record_of_loc q (new_location mc r)) = tau (2 * (q * mc + r)) mc.
Proof.
  intros Hmc Hr.
  assert (Hloc : new_location mc r
                 = if r =? 0 then loc_Exact
                   else loc_Inexact (2 * r ?= mc)).
  { unfold new_location, new_location_even, new_location_odd.
    destruct (Z.even mc) eqn:Ev; [reflexivity|].
    destruct (r =? 0); [reflexivity|]. f_equal.
    assert (Ho : Z.odd mc = true) by (now rewrite <- Z.negb_even, Ev).
    apply Z.odd_spec in Ho. destruct Ho as [k Hk].
    destruct (Z.compare_spec (2 * r + 1) mc), (Z.compare_spec (2 * r) mc);
      try reflexivity; lia. }
  rewrite Hloc. unfold tau.
  replace (2 * (q * mc + r)) with (2 * r + (2 * q) * mc) by ring.
  rewrite Z.div_add, Z.mod_add by lia.
  destruct (Z.eqb_spec r 0) as [->|Hr0].
  - rewrite Z.mul_0_r, Z.div_0_l, Z.mod_0_l by lia. cbn [Z.eqb].
    unfold code. cbn [shr_record_of_loc shr_m shr_r shr_s]. lia.
  - destruct (Z.compare_spec (2 * r) mc) as [Heq|Hlt|Hgt];
      unfold code; cbn [shr_record_of_loc shr_m shr_r shr_s].
    + rewrite Heq, Z.div_same, Z.mod_same by lia. cbn [Z.eqb]. lia.
    + rewrite Z.div_small, Z.mod_small by lia.
      destruct (Z.eqb_spec (2 * r) 0); lia.
    + replace (2 * r) with ((2 * r - mc) + 1 * mc) by ring.
      rewrite Z.div_add, Z.mod_add by lia.
      rewrite Z.div_small, Z.mod_small by lia.
      destruct (Z.eqb_spec (2 * r - mc) 0); lia.
Qed.

Lemma dexp_le mx ex mc ec : dexp mx ex mc ec <= ex - ec.
Proof. unfold dexp. lia. Qed.

Lemma div_core_eq mx ex mc ec :
  SFdiv_core_binary prec emax (Zpos mx) ex (Zpos mc) ec
  = (dnum mx ex mc ec / Zpos mc, dexp mx ex mc ec,
     new_location (Zpos mc) (dnum mx ex mc ec mod Zpos mc)).
Proof.
  unfold SFdiv_core_binary. cbn [Zdigits2]. fold (dexp mx ex mc ec).
  pose proof (dexp_le mx ex mc ec) as Hle.
  assert (Hm : match ex - ec - dexp mx ex mc ec with
               | 0 => Zpos mx
               | Zpos _ => Z.shiftl (Zpos mx) (ex - ec - dexp mx ex mc ec)
               | Zneg _ => 0
               end = dnum mx ex mc ec).
  { unfold dnum. destruct (ex - ec - dexp mx ex mc ec) as [|s|s] eqn:Hs; try lia.
    rewrite Z.shiftl_mul_pow2 by lia. reflexivity. }
  rewrite Hm. unfold Z.div, Z.modulo.
  destruct (Z.div_eucl (dnum mx ex mc ec) (Zpos mc)) as [q r]. reflexivity.
Qed.

Lemma dnum_pos mx ex mc ec : 0 < dnum mx ex mc ec.
Proof.
  unfold dnum. pose proof (dexp_le mx ex mc ec).
  pose proof (pow2_pos (ex - ec - dexp mx ex mc ec) ltac:(lia)). nia.
Qed.

Lemma div_precondition mx ex mc ec :
  nonneg_wf (S754_finite false mx ex) -> nonneg_wf (S754_finite false mc ec) ->
  dexp mx ex mc ec
  <= fexp prec emax (Zdigits2 (dnum mx ex mc ec / Zpos mc) + dexp mx ex mc ec).
Proof.
  intros Hx Hc. rewrite fexp_eq.
  destruct (Z.le_gt_cases (dexp mx ex mc ec) (-1074)) as [Hsmall|Hbig]; [lia|].
  pose proof (dexp_le mx ex mc ec) as Hle.
  assert (Hf : dexp mx ex mc ec
               <= Zpos (digits2_pos mx) + ex - (Zpos (digits2_pos mc) + ec) - 53).
  { unfold dexp in *. rewrite fexp_eq in *. lia. }
  set (s := ex - ec - dexp mx ex mc ec) in *.
  pose proof (digits2_pos_bounds mx) as [Lx _].
  pose proof (digits2_pos_bounds mc) as [_ Uc].
  set (dx := Zpos (digits2_pos mx)) in *. set (dc := Zpos (digits2_pos mc)) in *.
  assert (Hq : 2 ^ 52 <= dnum mx ex mc ec / Zpos mc).
  { apply Z.div_le_lower_bound; [lia|]. unfold dnum. fold s.
    apply Z.le_trans with (2 ^ dc * 2 ^ 52).
    - apply Z.mul_le_mono_nonneg_r; [apply Z.pow_nonneg|]; lia.
    - apply Z.le_trans with (2 ^ (dx - 1) * 2 ^ s).
      + rewrite <- !Z.pow_add_r by lia. apply Z.pow_le_mono_r; lia.
      + apply Z.mul_le_mono_nonneg_r; [apply Z.pow_nonneg|]; lia. }
  assert (Hd : 53 <= Zdigits2 (dnum mx ex mc ec / Zpos mc)).
  { set (q := dnum mx ex mc ec / Zpos mc) in *.
    assert (0 < q) by (unpow; lia).
    destruct (Zdigits2_bounds q ltac:(lia)) as (Hqd & _ & Hhi).
    assert (52 < Zdigits2 q) by (apply (Z.pow_lt_mono_r_iff 2); lia).
    lia. }
  lia.
Qed.

Lemma div_finite_ord mx ex mc ec :
  nonneg_wf (S754_finite false mx ex) -> nonneg_wf (S754_finite false mc ec) ->
  nonneg_wf (SFdiv prec emax (S754_finite false mx ex) (S754_finite false mc ec))
  /\ ford (SFdiv prec emax (S754_finite false mx ex) (S754_finite false mc ec))
     = Z.min ((fexp prec emax (Zdigits2 (dnum mx ex mc ec / Zpos mc)
                               + dexp mx ex mc ec) + 1074) * 2 ^ 52
              + rne (tau (2 * dnum mx ex mc ec)
                         (Zpos mc * 2 ^ (fexp prec emax
                                           (Zdigits2 (dnum mx ex mc ec / Zpos mc)
                                            + dexp mx ex mc ec)
                                         - dexp mx ex mc ec))))
             INF.
Proof.
  intros Hx Hc. cbn [SFdiv xorb]. rewrite div_core_eq.
  pose proof (dnum_pos mx ex mc ec) as Hn.
  apply binary_round_aux_ord; try lia.
  - apply Z.div_pos; lia.
  - rewrite new_location_code by (try apply Z.mod_pos_bound; lia).
    f_equal. f_equal. rewrite Z.mul_comm. symmetry. apply Z.div_mod. lia.
  - now apply div_precondition.
Qed.

Lemma div_wf x c :
  nonneg_wf x -> nonneg_wf c -> finite_pos c -> nonneg_wf (SFdiv prec emax x c).
Proof.
  intros Hx Hc Hf.
  destruct c as [[|]|[|]| |[|] mc ec]; try contradiction.
  destruct x as [[|]|[|]| |[|] mx ex]; try contradiction; try exact I.
  now apply div_finite_ord.
Qed.

(** Dividing by a positive finite number is monotone. *)
Lemma div_mono x y c :
  nonneg_wf x -> nonneg_wf y -> nonneg_wf c -> finite_pos c ->
  ford x <= ford y ->
  ford (SFdiv prec emax x c) <= ford (SFdiv prec emax y c).
Proof.
  intros Hx Hy Hc Hf Hle.
  pose proof (ford_range _ (div_wf x c Hx Hc Hf)) as Rx.
  pose proof (ford_range _ (div_wf y c Hy Hc Hf)) as Ry.
  destruct c as [[|]|[|]| |[|] mc ec]; try contradiction.
  destruct x as [[|]|[|]| |[|] mx ex]; try contradiction;
    destruct y as [[|]|[|]| |[|] my ey]; try contradiction;
    try (cbn [SFdiv xorb ford] in *; lia);
    try (exfalso; cbn [ford nonneg_wf] in *; unfold INF in *; unpow; lia).
  destruct (div_finite_ord mx ex mc ec Hx Hc) as [_ ->].
  destruct (div_finite_ord my ey mc ec Hy Hc) as [_ ->].
  apply Z.min_le_compat_r.
  pose proof (dnum_pos mx ex mc ec) as Nx. pose proof (dnum_pos my ey mc ec) as Ny.
  apply ord_mono; try lia.
  - apply Z.div_pos; lia.
  - apply Z.div_pos; lia.
  - rewrite Z.div_mul_cancel_l by lia. reflexivity.
  - rewrite Z.div_mul_cancel_l by lia. reflexivity.
  - now apply div_precondition.
  - now apply div_precondition.
  - pose proof (ford_le_val mx ex my ey Hx Hy Hle) as Hv.
    pose proof (dexp_le mx ex mc ec) as Lx. pose proof (dexp_le my ey mc ec) as Ly.
    set (mu' := Z.min (dexp mx ex mc ec) (dexp my ey mc ec)).
    set (mu := Z.min ex ey) in *.
    unfold dnum.
    assert (Ex : 2 ^ (ex - ec - dexp mx ex mc ec) * 2 ^ (dexp mx ex mc ec - mu')
                 = 2 ^ (ex - mu) * 2 ^ (mu - ec - mu')).
    { rewrite <- !Z.pow_add_r by lia. f_equal. lia. }
    assert (Ey : 2 ^ (ey - ec - dexp my ey mc ec) * 2 ^ (dexp my ey mc ec - mu')
                 = 2 ^ (ey - mu) * 2 ^ (mu - ec - mu')).
    { rewrite <- !Z.pow_add_r by lia. f_equal. lia. }
    pose proof (pow2_pos (mu - ec - mu') ltac:(lia)) as HK.
    replace (2 * (Zpos mx * 2 ^ (ex - ec - dexp mx ex mc ec)) * Zpos mc
             * 2 ^ (dexp mx ex mc ec - mu'))
      with (2 * Zpos mc * Zpos mx
            * (2 ^ (ex - ec - dexp mx ex mc ec) * 2 ^ (dexp mx ex mc ec - mu')))
      by ring.
    replace (2 * (Zpos my * 2 ^ (ey - ec - dexp my ey mc ec)) * Zpos mc
             * 2 ^ (dexp my ey mc ec - mu'))
      with (2 * Zpos mc * Zpos my
            * (2 ^ (ey - ec - dexp my ey mc ec) * 2 ^ (dexp my ey mc ec - mu')))
      by ring.
    rewrite Ex, Ey.
    replace (2 * Zpos mc * Zpos mx * (2 ^ (ex - mu) * 2 ^ (mu - ec - mu')))
      with (Zpos mx * 2 ^ (ex - mu) * (2 * Zpos mc * 2 ^ (mu - ec - mu'))) by ring.
    replace (2 * Zpos mc * Zpos my * (2 ^ (ey - mu) * 2 ^ (mu - ec - mu')))
      with (Zpos my * 2 ^ (ey - mu) * (2 * Zpos mc * 2 ^ (mu - ec - mu'))) by ring.
    apply Z.mul_le_mono_nonneg_r; [nia|exact Hv].
Qed.

(** *** [of_Z] and [Math.round] *)

Lemma of_Z_ford z :
  0 <= z ->
  nonneg_wf (of_Z z)
  /\ ford (of_Z z) = if z =? 0 then 0 else Z.min (ordZ (Z.to_pos z)) INF.
Proof.
  intros Hz. unfold of_Z. destruct z as [|p|p]; try lia.
  - cbn. split; [exact I|reflexivity].
  - cbn [Z.eqb Z.to_pos]. apply of_Z_pos_ord.
Qed.

Lemma of_Z_mono a b : 0 <= a <= b -> ford (of_Z a) <= ford (of_Z b).
Proof.
  intros [Ha Hab].
  destruct (of_Z_ford a Ha) as [_ ->]. destruct (of_Z_ford b ltac:(lia)) as [_ ->].
  destruct (Z.eqb_spec a 0) as [->|Na], (Z.eqb_spec b 0) as [->|Nb]; try lia.
  - pose proof (ordZ_pos (Z.to_pos b)). unfold INF. unpow. lia.
  - apply Z.min_le_compat_r, ordZ_mono. lia.
Qed.

Lemma of_Z_positive z : 0 < z -> 0 < ford (of_Z z).
Proof.
  intros Hz. destruct (of_Z_ford z ltac:(lia)) as [_ ->].
  destruct (Z.eqb_spec z 0); [lia|].
  pose proof (ordZ_pos (Z.to_pos z)). unfold INF. unpow. lia.
Qed.

Lemma round_int_nonneg m e : e < 0 -> 0 <= round_int m e.
Proof.
  intros He. unfold round_int.
  pose proof (pow2_pos (- e) ltac:(lia)). pose proof (pow2_pos (1 - e) ltac:(lia)).
  apply Z.div_pos; lia.
Qed.

Lemma Math_round_fraction m e :
  e < 0 -> Math_round (S754_finite false m e) = of_Z (round_int m e).
Proof.
  intros He. unfold Math_round.
  destruct (Z.leb_spec 0 e) as [|_]; [lia|].
  cbn [cond_Zopp]. rewrite Z.shiftr_div_pow2 by lia. fold (round_int m e).
  destruct (Z.eqb_spec (round_int m e) 0) as [->|]; reflexivity.
Qed.

Lemma Math_round_integer m e :
  0 <= e -> Math_round (S754_finite false m e) = S754_finite false m e.
Proof.
  intros He. unfold Math_round. destruct (Z.leb_spec 0 e); [reflexivity|lia].
Qed.

Lemma Math_round_wf x : nonneg_wf x -> nonneg_wf (Math_round x).
Proof.
  destruct x as [[|]|[|]| |[|] m e]; try contradiction; try (intros; exact I).
  intros Hx. destruct (Z.lt_ge_cases e 0) as [He|He].
  - rewrite Math_round_fraction by exact He.
    apply of_Z_ford, round_int_nonneg, He.
  - now rewrite Math_round_integer.
Qed.

Lemma round_int_scaled m e k :
  e < 0 -> 0 <= k ->
  round_int m e = (2 * (Zpos m * 2 ^ k) + 2 ^ (- e + k)) / 2 ^ (1 - e + k).
Proof.
  intros He Hk. unfold round_int.
  pose proof (pow2_pos k Hk).
  rewrite !Z.pow_add_r by lia.
  replace (2 * (Zpos m * 2 ^ k) + 2 ^ (- e) * 2 ^ k)
    with ((2 * Zpos m + 2 ^ (- e)) * 2 ^ k) by ring.
  rewrite Z.div_mul_cancel_r; [reflexivity| |lia].
  pose proof (pow2_pos (1 - e) ltac:(lia)). lia.
Qed.

Lemma round_int_mono mx ex my ey :
  ex < 0 -> ey < 0 ->
  Zpos mx * 2 ^ (ex - Z.min ex ey) <= Zpos my * 2 ^ (ey - Z.min ex ey) ->
  round_int mx ex <= round_int my ey.
Proof.
  intros Hx Hy Hle. set (mu := Z.min ex ey) in *.
  rewrite (round_int_scaled mx ex (ex - mu)), (round_int_scaled my ey (ey - mu))
    by lia.
  replace (- ex + (ex - mu)) with (- mu) by lia.
  replace (- ey + (ey - mu)) with (- mu) by lia.
  replace (1 - ex + (ex - mu)) with (1 - mu) by lia.
  replace (1 - ey + (ey - mu)) with (1 - mu) by lia.
  apply Z.div_le_mono; [apply pow2_pos|]; lia.
Qed.

Lemma round_int_small m e :
  e < 0 -> Zpos m < 2 ^ 53 -> round_int m e <= 2 ^ 52.
Proof.
  intros He Hm. unfold round_int.
  pose proof (pow2_pos (- e) ltac:(lia)) as Hp.
  assert (H2 : 2 ^ (1 - e) = 2 * 2 ^ (- e)).
  { replace (1 - e) with (Z.succ (- e)) by lia. rewrite Z.pow_succ_r; lia. }
  assert (H1 : 2 <= 2 ^ (- e)).
  { change 2 with (2 ^ 1) at 1. apply Z.pow_le_mono_r; lia. }
  rewrite H2. unpow.
  assert ((2 * Zpos m + 2 ^ (- e)) / (2 * 2 ^ (- e)) < 4503599627370496 + 1); [|lia].
  apply Z.div_lt_upper_bound; nia.
Qed.

(** [Math.round] is monotone on the non-negative numbers. *)
Lemma Math_round_mono x y :
  nonneg_wf x -> nonneg_wf y -> ford x <= ford y ->
  ford (Math_round x) <= ford (Math_round y).
Proof.
  intros Hx Hy Hle.
  pose proof (ford_range _ (Math_round_wf x Hx)) as Rx.
  pose proof (ford_range _ (Math_round_wf y Hy)) as Ry.
  destruct x as [[|]|[|]| |[|] mx ex]; try contradiction;
    destruct y as [[|]|[|]| |[|] my ey]; try contradiction;
    try (cbn [Math_round ford] in *; lia);
    try (exfalso; cbn [ford nonneg_wf] in *; unfold INF in *; unpow; lia).
  destruct (Z.lt_ge_cases ex 0) as [Ex|Ex], (Z.lt_ge_cases ey 0) as [Ey|Ey].
  - rewrite !Math_round_fraction by assumption.
    apply of_Z_mono. split; [now apply round_int_nonneg|].
    apply round_int_mono; try assumption. now apply ford_le_val.
  - rewrite Math_round_fraction, Math_round_integer by assumption.
    pose proof (ordZ_exact my ey Hy Ey) as Hex.
    pose proof (ford_range _ Hy) as Ryy.
    pose proof (pow2_pos ey Ey) as Hp.
    assert (Hbig : 2 ^ 52 <= Zpos my) by (cbn [nonneg_wf] in Hy; apply Hy; lia).
    assert (Hsm : round_int mx ex <= Zpos my * 2 ^ ey).
    { pose proof (round_int_small mx ex Ex ltac:(cbn [nonneg_wf] in Hx; lia)). nia. }
    pose proof (of_Z_mono (round_int mx ex) (Zpos my * 2 ^ ey)
                  (conj (round_int_nonneg mx ex Ex) Hsm)) as Hm.
    destruct (of_Z_ford (Zpos my * 2 ^ ey) ltac:(nia)) as [_ Hf].
    rewrite Hf in Hm.
    destruct (Z.eqb_spec (Zpos my * 2 ^ ey) 0) as [H0|_]; [nia|].
    rewrite Hex in Hm. lia.
  - exfalso. cbn [ford nonneg_wf] in *. unpow. nia.
  - now rewrite !Math_round_integer.
Qed.

Lemma ford_inj (x y : number) :
  nonneg_wf x -> nonneg_wf y -> ford x = ford y -> x = y.
Proof.
  destruct x as [[|]|[|]| |[|] mx ex]; try contradiction;
    destruct y as [[|]|[|]| |[|] my ey]; try contradiction;
    cbn [nonneg_wf ford]; unfold INF; unpow; intros Hx Hy Heq;
    try reflexivity; try lia.
  assert (ex = ey) by nia. subst ey.
  assert (Zpos mx = Zpos my) by lia. congruence.
Qed.

(** A number that is an integer is the conversion of that integer. *)
Lemma of_Z_integer m e :
  nonneg_wf (S754_finite false m e) -> 0 <= e ->
  of_Z (Zpos m * 2 ^ e) = S754_finite false m e.
Proof.
  intros Hwf He. pose proof (pow2_pos e He) as Hp.
  destruct (of_Z_ford (Zpos m * 2 ^ e) ltac:(nia)) as [Hw Hf].
  apply ford_inj; [exact Hw|exact Hwf|].
  rewrite Hf. destruct (Z.eqb_spec (Zpos m * 2 ^ e) 0) as [H0|_]; [nia|].
  rewrite (ordZ_exact m e Hwf He).
  pose proof (ford_range _ Hwf) as R. lia.
Qed.

(** [Math.round] yields a whole number. *)
Lemma Math_round_whole x :
  nonneg_wf x -> exists k, 0 <= k /\ Math_round x = of_Z k.
Proof.
  intros Hx. destruct x as [[|]|[|]| |[|] m e]; try (exfalso; exact Hx).
  - exists 0. split; [lia|reflexivity].
  - exists (2 ^ 1024). split; [apply Z.pow_nonneg; lia|]. now vm_compute.
  - destruct (Z.lt_ge_cases e 0) as [He|He].
    + exists (round_int m e). split; [now apply round_int_nonneg|].
      now apply Math_round_fraction.
    + exists (Zpos m * 2 ^ e). pose proof (pow2_pos e He). split; [nia|].
      rewrite Math_round_integer by exact He. symmetry. now apply of_Z_integer.
Qed.

(** [Math.round] yields the nearest whole number, a tie going up: for
    [x = m * 2^e] the result [k] has [k - 1/2 <= x < k + 1/2]. *)
Lemma Math_round_nearest m e :
  e < 0 ->
  exists k, 0 <= k /\ Math_round (S754_finite false m e) = of_Z k
            /\ (2 * k - 1) * 2 ^ (- e) <= 2 * Zpos m < (2 * k + 1) * 2 ^ (- e).
Proof.
  intros He. exists (round_int m e).
  split; [now apply round_int_nonneg|]. split; [now apply Math_round_fraction|].
  unfold round_int. pose proof (pow2_pos (- e) ltac:(lia)) as Hp.
  replace (2 ^ (1 - e)) with (2 * 2 ^ (- e))
    by (replace (1 - e) with (1 + - e) by lia; rewrite Z.pow_add_r by lia;
        reflexivity).
  set (D := 2 * 2 ^ (- e)). set (a := 2 * Zpos m + 2 ^ (- e)).
  pose proof (Z.div_mod a D ltac:(unfold D; lia)) as Hdm.
  pose proof (Z.mod_pos_bound a D ltac:(unfold D; lia)) as Hr.
  unfold D, a in *. nia.
Qed.

End Binary64Facts.

(* ================================================================= *)
(** ** Arrays: [slice] and [reduce] (facts) *)

Import JS Dashboard.

Section ArrayFacts.
Context {A : Type}.

Lemma slice_prefix (l : list A) (k : nat) :
  slice l 0 (Some (Z.of_nat k)) = firstn k l.
Proof.
  unfold slice, relative_index. cbn [Z.ltb Z.compare].
  assert (H0 : (0 <? 0) = false) by reflexivity.
  replace (Z.min 0 (Z.of_nat (length l))) with 0 by lia.
  destruct (Z.ltb_spec (Z.of_nat k) 0) as [Hneg|_]; [lia|].
  cbn [Z.to_nat skipn]. rewrite Z.sub_0_r.
  destruct (Nat.le_gt_cases k (length l)) as [Hle|Hgt].
  - rewrite Z.min_l, Z.max_l by lia. now rewrite Nat2Z.id.
  - rewrite Z.min_r, Z.max_l by lia. rewrite Nat2Z.id.
    rewrite firstn_all. symmetry. apply firstn_all2. lia.
Qed.

Lemma slice_suffix (l : list A) (k : nat) :
  slice l (Z.of_nat k) None = skipn k l.
Proof.
  unfold slice, relative_index.
  destruct (Z.ltb_spec (Z.of_nat k) 0) as [Hneg|_]; [lia|].
  destruct (Nat.le_gt_cases k (length l)) as [Hle|Hgt].
  - rewrite Z.min_l by lia. rewrite Nat2Z.id.
    rewrite Z.max_l by lia.
    apply firstn_all2. rewrite length_skipn. lia.
  - rewrite Z.min_r by lia. rewrite Nat2Z.id.
    rewrite Z.sub_diag. cbn [Z.max Z.compare Z.to_nat firstn].
    symmetry. apply skipn_all2. lia.
Qed.

(** A negative [end] is not refused: it counts from the end of the array. *)
Lemma slice_negative_end (l : list A) (k : nat) :
  (0 < k)%nat ->
  slice l 0 (Some (- Z.of_nat k)) = firstn (length l - k) l.
Proof.
  intros Hk. unfold slice, relative_index.
  replace (0 <? 0) with false by reflexivity.
  destruct (Z.ltb_spec (- Z.of_nat k) 0) as [_|Hge]; [|lia].
  replace (Z.min 0 (Z.of_nat (length l))) with 0 by lia.
  cbn [Z.to_nat skipn]. rewrite Z.sub_0_r.
  f_equal. lia.
Qed.

Lemma reduce_sum (f : A -> number) (l : list A) (acc : number) :
  reduce (fun sum s => add sum (f s)) acc l = Spec.sumFrom acc (map f l).
Proof.
  unfold reduce. revert acc.
  induction l as [|x l IH]; intros acc; cbn; [reflexivity|apply IH].
Qed.

End ArrayFacts.

(* ================================================================= *)
(** ** Properties of the dashboard statistics *)

Section DashboardFacts.

Lemma calculateImprovementRate_long (history : list SessionHistoryItem) :
  (4 <= length history)%nat ->
  calculateImprovementRate history = Spec.improvementRatePercent history.
Proof.
  intros Hlen. unfold calculateImprovementRate.
  destruct (Nat.ltb_spec (length history) 4) as [Hlt|_]; [lia|].
  cbv zeta. rewrite slice_prefix, slice_suffix, !reduce_sum.
  unfold Spec.improvementRatePercent, Spec.arithmeticMean, Spec.sum,
    Spec.recentHalf, Spec.olderHalf.
  now rewrite !length_map.
Qed.

Lemma calculateImprovementRate_short (history : list SessionHistoryItem) :
  (length history < 4)%nat -> calculateImprovementRate history = of_Z 0.
Proof.
  intros Hlen. unfold calculateImprovementRate.
  destruct (Nat.ltb_spec (length history) 4) as [_|Hge]; [reflexivity|lia].
Qed.

Lemma halves_lengths (history : list SessionHistoryItem) :
  length (Spec.recentHalf history) = (length history / 2)%nat /\
  length (Spec.olderHalf history)
  = (length history - length history / 2)%nat.
Proof.
  unfold Spec.recentHalf, Spec.olderHalf.
  rewrite length_firstn, length_skipn. split; [|reflexivity].
  apply Nat.min_l. apply Nat.Div0.div_le_upper_bound. lia.
Qed.

Lemma recentSessions_firstn (history : list SessionHistoryItem) :
  recentSessions history = firstn 10 history.
Proof. exact (slice_prefix history 10). Qed.

Lemma sub_or_0_measured (o : option number) :
  Spec.measured o = true -> sub_or_0 o = Spec.valueOr0 o.
Proof.
  destruct o as [[[|]|[|]| |[|] m e]|]; cbn; intros H;
    reflexivity || discriminate H.
Qed.

Lemma recentAverage_window (field : SessionHistoryItem -> option number)
    (history : list SessionHistoryItem) :
  forallb (fun s => Spec.measured (field s)) (firstn 10 history) = true ->
  recentAverage field history
  = Spec.windowAverage field (firstn 10 history).
Proof.
  intros Hm. unfold recentAverage. rewrite recentSessions_firstn.
  destruct (firstn 10 history) as [|s w] eqn:Hw; [reflexivity|].
  cbn [length Nat.ltb Nat.leb]. rewrite reduce_sum.
  unfold Spec.windowAverage, Spec.sum.
  do 3 f_equal.
  apply map_ext_in. intros x Hx. apply sub_or_0_measured.
  rewrite forallb_forall in Hm. now apply Hm.
Qed.

Lemma performanceScore_eq (history : list SessionHistoryItem) :
  performanceScore history
  = match history with
    | [] => of_Z 0
    | _ :: _ => Math_round (Spec.arithmeticMean (map score history))
    end.
Proof.
  unfold performanceScore. destruct history as [|s h]; [reflexivity|].
  cbn [length Nat.ltb Nat.leb]. rewrite reduce_sum.
  unfold Spec.arithmeticMean, Spec.sum. now rewrite length_map.
Qed.

(** An older half whose mean is a zero makes the improvement rate NaN or an
    infinity, whatever the recent half holds. *)
Lemma zero_divisor_not_finite (recentAvg : number) (s : bool) :
  is_finite
    (Math_round (mul (div (sub recentAvg (S754_zero s)) (S754_zero s))
                     (of_Z 100))) = false.
Proof.
  destruct recentAvg as [[|]|[|]| |[|] m e], s; reflexivity.
Qed.

Lemma improvementRate_zero_older (history : list SessionHistoryItem)
    (s : bool) :
  (4 <= length history)%nat ->
  Spec.arithmeticMean (map score (Spec.olderHalf history)) = S754_zero s ->
  is_finite (calculateImprovementRate history) = false.
Proof.
  intros Hlen Hzero. rewrite calculateImprovementRate_long by exact Hlen.
  unfold Spec.improvementRatePercent. cbv zeta. rewrite Hzero.
  apply zero_divisor_not_finite.
Qed.

End DashboardFacts.

(* ================================================================= *)
(** ** The win rate *)

Section WinRateFacts.

Lemma lit_0_7_eq : lit_0_7 = S754_finite false 6305039478318694 (-53).
Proof. vm_compute. reflexivity. Qed.

Lemma hundred_eq : of_Z 100 = S754_finite false 7036874417766400 (-46).
Proof. vm_compute. reflexivity. Qed.

Lemma lit_0_7_wf : nonneg_wf lit_0_7 /\ finite_pos lit_0_7.
Proof. rewrite lit_0_7_eq. cbn [nonneg_wf finite_pos]. unpow. lia. Qed.

Lemma hundred_wf : nonneg_wf (of_Z 100) /\ finite_pos (of_Z 100).
Proof. rewrite hundred_eq. cbn [nonneg_wf finite_pos]. unpow. lia. Qed.

Lemma scaled_wf (x : number) :
  nonneg_wf x -> nonneg_wf (mul (mul x lit_0_7) (of_Z 100)).
Proof.
  intros Hx. destruct lit_0_7_wf as [Hc Hcf]. destruct hundred_wf as [Hh Hhf].
  exact (mul_wf _ _ (mul_wf x lit_0_7 Hx Hc Hcf) Hh Hhf).
Qed.

Lemma winRateFormula_wf (x : number) :
  nonneg_wf x -> nonneg_wf (Spec.winRateFormula x).
Proof.
  intros Hx. destruct hundred_wf as [Hh Hhf].
  exact (div_wf _ _ (Math_round_wf _ (scaled_wf x Hx)) Hh Hhf).
Qed.

Lemma winRateFormula_mono (x y : number) :
  nonneg_wf x -> nonneg_wf y -> ford x <= ford y ->
  ford (Spec.winRateFormula x) <= ford (Spec.winRateFormula y).
Proof.
  intros Hx Hy Hle.
  destruct lit_0_7_wf as [Hc Hcf]. destruct hundred_wf as [Hh Hhf].
  pose proof (mul_mono x y lit_0_7 Hx Hy Hc Hcf Hle) as H1.
  pose proof (mul_mono _ _ (of_Z 100) (mul_wf x lit_0_7 Hx Hc Hcf)
                (mul_wf y lit_0_7 Hy Hc Hcf) Hh Hhf H1) as H2.
  pose proof (Math_round_mono _ _ (scaled_wf x Hx) (scaled_wf y Hy) H2) as H3.
  exact (div_mono _ _ (of_Z 100) (Math_round_wf _ (scaled_wf x Hx))
           (Math_round_wf _ (scaled_wf y Hy)) Hh Hhf H3).
Qed.

Lemma gt_zero (x : number) :
  nonneg_wf x -> gt x (of_Z 0) = (0 <? ford x).
Proof.
  intros Hx. pose proof (ford_range x Hx) as R.
  destruct x as [[|]|[|]| |[|] m e]; try contradiction.
  - reflexivity.
  - reflexivity.
  - cbn [nonneg_wf ford] in *. unfold gt, SFltb. cbn [of_Z binary_normalize SFcompare].
    symmetry. apply Z.ltb_lt. unpow. lia.
Qed.

Lemma winRate_formula (st : UserStats) :
  nonneg_wf (totalSessions st) ->
  winRate (Some st) = Spec.winRateFormula (totalSessions st).
Proof.
  unfold winRate. generalize (totalSessions st). intros x Hx.
  rewrite gt_zero by exact Hx.
  destruct (Z.ltb_spec 0 (ford x)) as [_|Hz]; [reflexivity|].
  destruct x as [[|]|[|]| |[|] m e]; try contradiction; try reflexivity.
  exfalso. cbn [nonneg_wf ford] in *. unpow. lia.
Qed.

Lemma of_nat_wf (n : nat) : nonneg_wf (of_nat n).
Proof. apply of_Z_ford. lia. Qed.

Lemma of_nat_mono (n m : nat) :
  (n <= m)%nat -> ford (of_nat n) <= ford (of_nat m).
Proof. intros H. apply of_Z_mono. lia. Qed.

End WinRateFacts.



(** C2 (the code leaves the division unguarded). On the four-session
    histories with scores [50, 50, 0, 0] and [0, 0, 0, 0] the older half has
    mean 0 and the improvement rate handed to the card is [Infinity],
    respectively [NaN]; the card then shows it with a ["+"] and an up arrow,
    respectively with a flat arrow. *)
Theorem improvement_rate_zero_older_half_propagates :
  Spec.arithmeticMean (map score (Spec.olderHalf (map session [50; 50; 0; 0])))
  = of_Z 0
  /\ calculateImprovementRate (map session [50; 50; 0; 0]) = Infinity
  /\ renderImprovementCard (map session [50; 50; 0; 0])
     = {| signPrefix := "+"; shownRate := Infinity; badge := Some ArrowUp |}
  /\ calculateImprovementRate (map session [0; 0; 0; 0]) = NaN
  /\ renderImprovementCard (map session [0; 0; 0; 0])
     = {| signPrefix := ""; shownRate := NaN; badge := Some ArrowFlat |}.
Proof. repeat split; vm_compute; reflexivity. Qed.

(** C3. For every total session count [n] the win rate equals
    [round (n * 0.7 * 100) / 100]; it is 0 when [n] is 0 (and when no stats
    are loaded), 7 when [n] is 10, and it does not decrease when the count
    grows. The rounding is to the nearest whole number: the win rate is a
    whole number [h] of hundredths, and when the product [n * 0.7 * 100] is
    [m * 2^e] with a fraction part, [h - 1/2 <= m * 2^e < h + 1/2]. For
    [n = 3] the product is 209.99999999999997 and the win rate is 2.1, which
    the product divided by 100 is not. *)
Theorem win_rate_formula_and_monotone :
  forall (n k : nat) (minutes : number),
    let stats j := Some {| totalSessions := of_nat j; totalMinutes := minutes |} in
    winRate (stats n) = Spec.winRateFormula (of_nat n)
    /\ winRate (stats 0%nat) = of_Z 0
    /\ winRate None = of_Z 0
    /\ winRate (stats 10%nat) = of_Z 7
    /\ le (winRate (stats n)) (winRate (stats (n + k)%nat)) = true
    /\ winRate (stats 3%nat) = div (of_Z 21) (of_Z 10)
    /\ SFeqb (div (mul (mul (of_nat 3) lit_0_7) (of_Z 100)) (of_Z 100))
              (div (of_Z 21) (of_Z 10)) = false
    /\ (exists h : Z, 0 <= h /\ winRate (stats n) = div (of_Z h) (of_Z 100))
    /\ (forall (m : positive) (e : Z),
           mul (mul (of_nat n) lit_0_7) (of_Z 100) = S754_finite false m e ->
           e < 0 ->
           exists h : Z,
             winRate (stats n) = div (of_Z h) (of_Z 100)
             /\ (2 * h - 1) * 2 ^ (- e) <= 2 * Zpos m
                < (2 * h + 1) * 2 ^ (- e)).
Proof.
  intros n k minutes stats. subst stats. cbv beta.
  assert (Hn : winRate (Some {| totalSessions := of_nat n;
                                totalMinutes := minutes |})
               = Spec.winRateFormula (of_nat n))
    by apply winRate_formula, of_nat_wf.
  split; [exact Hn|].
  split; [reflexivity|]. split; [reflexivity|].
  split; [vm_compute; reflexivity|]. split; [|split; [|split; [|split]]].
  - rewrite !winRate_formula by apply of_nat_wf. cbn [totalSessions].
    unfold le. apply SFleb_ford.
    + apply winRateFormula_wf, of_nat_wf.
    + apply winRateFormula_wf, of_nat_wf.
    + apply winRateFormula_mono; try apply of_nat_wf.
      apply of_nat_mono. lia.
  - vm_compute. reflexivity.
  - vm_compute. reflexivity.
  - rewrite Hn. unfold Spec.winRateFormula.
    destruct (Math_round_whole _ (scaled_wf (of_nat n) (of_nat_wf n)))
      as (h & Hh & ->).
    now exists h.
  - intros m e Hprod He. rewrite Hn. unfold Spec.winRateFormula. rewrite Hprod.
    destruct (Math_round_nearest m e He) as (h & _ & -> & Hnear).
    now exists h.
Qed.

(** C4. Each recent average (vocabulary, clarity, persuasion) is taken over
    the window of the first ten entries of the history, the component's
    [slice(0, 10)]: it is the sum over the window of the sub-score, an absent
    one counting as 0, divided by the number of entries of the window and
    rounded; it is 0 for an empty window. The rounding is to the nearest
    whole number, a tie going up: when the quotient is [m * 2^e] with a
    fraction part, the average is the whole number [k] with
    [k - 1/2 <= m * 2^e < k + 1/2]. A window with vocabulary scores
    [90, undefined, 60] gives 50, and so does [90, undefined, 61], where the
    quotient is 50.33; [2, 3] gives 3 and [1, 1, 2] gives 1. *)
Theorem recent_average_over_window :
  forall (d : dimension) (history : list SessionHistoryItem),
    forallb (fun s => Spec.measured (subScore d s)) (recentSessions history)
    = true ->
    recentSessions history = firstn 10 history
    /\ recentAverageOf d history
       = Spec.windowAverage (subScore d) (recentSessions history)
    /\ recentAverageOf d [] = of_Z 0
    /\ avgVocabulary (map session_v [Some 90; None; Some 60]) = of_Z 50
    /\ avgVocabulary (map session_v [Some 90; None; Some 61]) = of_Z 50
    /\ avgVocabulary (map session_v [Some 2; Some 3]) = of_Z 3
    /\ avgVocabulary (map session_v [Some 1; Some 1; Some 2]) = of_Z 1
    /\ (forall (m : positive) (e : Z),
           Spec.arithmeticMean
             (map (fun s => Spec.valueOr0 (subScore d s))
                  (recentSessions history))
           = S754_finite false m e ->
           e < 0 ->
           exists k : Z,
             recentAverageOf d history = of_Z k
             /\ (2 * k - 1) * 2 ^ (- e) <= 2 * Zpos m
                < (2 * k + 1) * 2 ^ (- e)).
Proof.
  intros d history. rewrite recentSessions_firstn. intros Hm.
  assert (Hw : recentAverageOf d history
               = Spec.windowAverage (subScore d) (firstn 10 history))
    by (destruct d; apply recentAverage_window, Hm).
  split; [reflexivity|]. split; [exact Hw|].
  split; [destruct d; reflexivity|].
  do 4 (split; [vm_compute; reflexivity|]).
  intros m e Hmean He. rewrite Hw. unfold Spec.windowAverage.
  unfold Spec.arithmeticMean in Hmean. rewrite length_map in Hmean.
  destruct (firstn 10 history) as [|s w].
  - discriminate Hmean.
  - rewrite Hmean. destruct (Math_round_nearest m e He) as (k & _ & -> & Hk).
    now exists k.
Qed.

Lemma recent_average_over_window_witness :
  recentSessions (map session_v [Some 90; None; Some 61])
  = firstn 10 (map session_v [Some 90; None; Some 61])
  /\ avgVocabulary (map session_v [Some 90; None; Some 61])
     = Spec.windowAverage vocabularyScore
         (recentSessions (map session_v [Some 90; None; Some 61]))
  /\ exists k : Z,
       avgVocabulary (map session_v [Some 90; None; Some 61]) = of_Z k
       /\ (2 * k - 1) * 2 ^ 47 <= 2 * 7083786913884843 < (2 * k + 1) * 2 ^ 47.
Proof.
  destruct (recent_average_over_window Vocabulary
              (map session_v [Some 90; None; Some 61]))
    as (H1 & H2 & _ & _ & _ & _ & _ & H); [reflexivity|].
  split; [exact H1|]. split; [exact H2|].
  apply (H 7083786913884843%positive (-47)); [vm_compute; reflexivity|lia].
Defined.

(** C5. A history of fewer than four sessions has improvement rate 0, and
    the improvement card shows neither a ["+"] nor the arrow badge. *)
Theorem short_history_no_improvement_indicator :
  forall history : list SessionHistoryItem,
    (length history < 4)%nat ->
    calculateImprovementRate history = of_Z 0
    /\ renderImprovementCard history
       = {| signPrefix := ""; shownRate := of_Z 0; badge := None |}.
Proof.
  intros history Hlen.
  pose proof (calculateImprovementRate_short history Hlen) as Hrate.
  split; [exact Hrate|].
  unfold renderImprovementCard, improvementRate. cbv zeta. rewrite Hrate.
  destruct (Nat.leb_spec 4 (length history)) as [Hge|_]; [lia|].
  reflexivity.
Qed.

Lemma short_history_no_improvement_indicator_witness :
  calculateImprovementRate (map session [90; 10; 50]) = of_Z 0
  /\ renderImprovementCard (map session [90; 10; 50])
     = {| signPrefix := ""; shownRate := of_Z 0; badge := None |}.
Proof.
  apply (short_history_no_improvement_indicator (map session [90; 10; 50])).
  simpl. lia.
Defined.



Section StringFacts.
Import JSString ErrorSpec.
Local Open Scope string_scope.

Lemma append_assoc (a b c : string) : (a ++ b) ++ c = a ++ (b ++ c).
Proof. induction a as [|x a IH]; cbn; [reflexivity|now rewrite IH]. Qed.

Lemma toLowerCase_app (a b : string) :
  toLowerCase (a ++ b) = toLowerCase a ++ toLowerCase b.
Proof. induction a as [|x a IH]; cbn; [reflexivity|now rewrite IH]. Qed.

(** A split of the lowered string comes from a split of the string. *)
Lemma toLowerCase_split (s x y : string) :
  toLowerCase s = x ++ y ->
  exists a b, s = a ++ b /\ toLowerCase a = x /\ toLowerCase b = y.
Proof.
  revert x. induction s as [|c s IH]; intros x Hs.
  - destruct x; [|discriminate]. cbn in Hs. subst y.
    exists "", "". repeat split.
  - destruct x as [|d x].
    + cbn in Hs. exists "", (String c s). repeat split. exact Hs.
    + cbn in Hs. injection Hs as Hd Hrest.
      destruct (IH x Hrest) as (a & b & -> & Ha & Hb).
      exists (String c a), b. cbn. rewrite Ha, Hd. repeat split. exact Hb.
Qed.

Lemma prefix_app (sub s : string) :
  String.prefix sub s = true <-> exists post, s = sub ++ post.
Proof.
  revert s. induction sub as [|c sub IH]; intros s.
  - split; [intros _; exists s; reflexivity|].
    intros _. destruct s; reflexivity.
  - destruct s as [|d s]; cbn.
    + split; [discriminate|]. intros [post H]. discriminate.
    + destruct (ascii_dec c d) as [->|Hne].
      * rewrite IH. split; intros [post H]; exists post.
        -- now rewrite H.
        -- now injection H.
      * split; [discriminate|]. intros [post H]. congruence.
Qed.

Lemma includes_app (s sub : string) :
  includes s sub = true <-> exists pre post, s = pre ++ sub ++ post.
Proof.
  induction s as [|c s IH].
  - cbn [includes]. destruct (String.prefix sub "") eqn:Hp.
    + split; [intros _|reflexivity].
      apply prefix_app in Hp. destruct Hp as [post H]. now exists "", post.
    + split; [discriminate|]. intros (pre & post & H).
      destruct pre; [|discriminate]. cbn in H.
      assert (Ht : String.prefix sub "" = true)
        by (apply prefix_app; now exists post).
      congruence.
  - cbn [includes]. destruct (String.prefix sub (String c s)) eqn:Hp.
    + split; [intros _|reflexivity].
      apply prefix_app in Hp. destruct Hp as [post H]. now exists "", post.
    + rewrite IH. split.
      * intros (pre & post & ->). now exists (String c pre), post.
      * intros (pre & post & H). destruct pre as [|d pre].
        -- cbn in H.
           assert (Ht : String.prefix sub (String c s) = true)
             by (apply prefix_app; now exists post).
           congruence.
        -- cbn in H. injection H as _ H. now exists pre, post.
Qed.

(** The test the component runs is the case-insensitive substring match,
    for a keyword written in lower case. *)
Lemma includes_lower_ci (msg kw : string) :
  toLowerCase kw = kw ->
  includes (toLowerCase msg) kw = true <-> contains_ci msg kw.
Proof.
  intros Hkw. rewrite includes_app. unfold contains_ci. rewrite Hkw. split.
  - intros (x & y & H).
    apply toLowerCase_split in H. destruct H as (pre & rest & -> & _ & H).
    apply toLowerCase_split in H. destruct H as (mid & post & -> & Hm & _).
    now exists pre, mid, post.
  - intros (pre & mid & post & -> & Hm).
    exists (toLowerCase pre), (toLowerCase post).
    now rewrite !toLowerCase_app, Hm.
Qed.

Lemma includes_any_hits (msg : string) (kws : list string) :
  Forall (fun kw => toLowerCase kw = kw) kws ->
  existsb (includes (toLowerCase msg)) kws = true <-> hits msg kws.
Proof.
  intros Hlow. rewrite existsb_exists. unfold hits.
  split; intros (kw & Hin & H); exists kw; (split; [exact Hin|]);
    rewrite Forall_forall in Hlow;
    apply (includes_lower_ci msg kw (Hlow kw Hin)); exact H.
Qed.

Lemma keywords_lower (c : category) :
  Forall (fun kw => toLowerCase kw = kw) (keywords c).
Proof. destruct c; repeat constructor. Qed.

End StringFacts.

Import JSString PersonaErrorBoundary ErrorSpec.

Section ClassificationFacts.
Local Open Scope string_scope.

Lemma scene_test (m : string) :
  includes m "spline" || includes m "3d" || includes m "scene"
  = existsb (includes m) (keywords Scene3D).
Proof. cbn. now rewrite orb_false_r, orb_assoc. Qed.

Lemma calculation_test (m : string) :
  includes m "calculate" || includes m "persona"
  = existsb (includes m) (keywords Calculation).
Proof. cbn. now rewrite orb_false_r. Qed.

Lemma data_test (m : string) :
  includes m "data" || includes m "invalid"
  = existsb (includes m) (keywords DataError).
Proof. cbn. now rewrite orb_false_r. Qed.

Lemma hits_reflect (msg : string) (c : category) :
  if existsb (includes (toLowerCase msg)) (keywords c)
  then hits msg (keywords c) else ~ hits msg (keywords c).
Proof.
  pose proof (includes_any_hits msg (keywords c) (keywords_lower c)) as H.
  destruct (existsb _ _).
  - now apply H.
  - intros Hh. apply H in Hh. discriminate.
Qed.

Lemma getErrorMessage_classified (error : Error) :
  exists c, classified (message error) c
            /\ getErrorMessage (Some error) = shown c error.
Proof.
  unfold getErrorMessage. cbv zeta.
  rewrite scene_test, calculation_test, data_test.
  pose proof (hits_reflect (message error) Scene3D) as H3.
  pose proof (hits_reflect (message error) Calculation) as Hc.
  pose proof (hits_reflect (message error) DataError) as Hd.
  destruct (existsb _ (keywords Scene3D)).
  { exists Scene3D. split; [now constructor|reflexivity]. }
  destruct (existsb _ (keywords Calculation)).
  { exists Calculation. split; [now constructor|reflexivity]. }
  destruct (existsb _ (keywords DataError)).
  { exists DataError. split; [now constructor|reflexivity]. }
  exists Generic. split; [now constructor|reflexivity].
Qed.


End ClassificationFacts.



Import ArchetypeCard.

Section IconFacts.
Local Open Scope string_scope.

(** Away from the two lower-case property names of [Object.prototype] the
    lookup yields a mapped icon or falls back to [Brain]. *)
Lemma getArchetypeIcon_plain (iconName : string) :
  toLowerCase iconName <> "constructor" ->
  toLowerCase iconName <> "__proto__" ->
  getArchetypeIcon iconName
  = Component (match own_property icons (toLowerCase iconName) with
               | Some i => i
               | None => Brain
               end).
Proof.
  intros Hc Hp. unfold getArchetypeIcon, get. cbv zeta.
  destruct (own_property icons (toLowerCase iconName)) as [i|] eqn:Hown;
    [reflexivity|].
  unfold inherited_property.
  destruct (String.eqb_spec (toLowerCase iconName) "constructor") as [E|_];
    [contradiction|].
  destruct (String.eqb_spec (toLowerCase iconName) "__proto__") as [E|_];
    [contradiction|].
  destruct (existsb _ Object_prototype_methods) eqn:Hm; [|reflexivity].
  exfalso. apply existsb_exists in Hm. destruct Hm as (k & Hin & Hk).
  apply String.eqb_eq in Hk. subst k.
  assert (Hlow : toLowerCase (toLowerCase iconName) = toLowerCase iconName).
  { clear. induction iconName as [|c s IH]; cbn; [reflexivity|].
    rewrite IH. f_equal.
    destruct c as [[|] [|] [|] [|] [|] [|] [|] [|]]; reflexivity. }
  cbn in Hin.
  repeat (destruct Hin as [Hin|Hin];
          [rewrite <- Hin in Hlow; discriminate Hlow|]).
  exact Hin.
Qed.

End IconFacts.

(** C9 (the fallback misses inherited properties). The names "constructor"
    (in any case) and "__proto__" are not mapped, yet the lookup finds the
    properties that the [icons] object inherits from [Object.prototype];
    both are truthy, so the result is the function [Object], respectively
    the prototype object, and not the [Brain] icon. The eight mapped names
    are found in any case, and an ordinary unmapped name gives [Brain]. *)
Theorem archetype_icon_inherited_property :
  getArchetypeIcon "constructor" = ObjectConstructor
  /\ getArchetypeIcon "Constructor" = ObjectConstructor
  /\ getArchetypeIcon "__proto__" = ObjectPrototype
  /\ map getArchetypeIcon
       ["BRAIN"%string; "Heart"%string; "scale"%string; "sWord"%string;
        "LightBulb"%string; "book"%string; "STAR"%string; "Target"%string]
     = map Component [Brain; Heart; Scale; Sword; Lightbulb; Book; Star; Target]
  /\ getArchetypeIcon "shield" = Component Brain.
Proof. repeat split. Qed.

(** C10. An archetype whose [isLocked] is [undefined], [null] or [false] gets
    an enabled button that carries the caller's [onClick]; a locked
    archetype gets a disabled button with no [onClick], so that no click
    invokes the caller's handler. *)
Theorem locked_card_never_invokes_onClick :
  forall (H : Type) (archetype : PersonaArchetype) (isActive : bool)
         (onClick : option H) (n : nat),
    let card := ArchetypeCardComponent archetype isActive onClick in
    match isLocked archetype with
    | JSUndefined | JSNull | Present false =>
        btn_disabled card = false
        /\ btn_onClick card = onClick
        /\ click card = onClick
    | Present true =>
        btn_disabled card = true
        /\ btn_onClick card = None
        /\ click card = None
        /\ clicks n card = []
    end.
Proof.
  intros H archetype isActive onClick n card. subst card.
  unfold ArchetypeCardComponent, click.
  destruct (isLocked archetype) as [| |[|]]; cbn; repeat split.
  induction n as [|k IH]; [reflexivity|exact IH].
Qed.

(* ================================================================= *)
(** ** Further properties: the archetype icon and the error boundary *)

Section IconResults.
Local Open Scope string_scope.

Lemma getArchetypeIcon_constructor (iconName : string) :
  toLowerCase iconName = "constructor" ->
  getArchetypeIcon iconName = ObjectConstructor.
Proof. intros H. unfold getArchetypeIcon. rewrite H. reflexivity. Qed.

Lemma getArchetypeIcon_proto (iconName : string) :
  toLowerCase iconName = "__proto__" ->
  getArchetypeIcon iconName = ObjectPrototype.
Proof. intros H. unfold getArchetypeIcon. rewrite H. reflexivity. Qed.

End IconResults.

(** X1. The lookup is decided by the lower-cased name alone. For
    "constructor" it yields the function [Object], for "__proto__" the
    prototype object, both inherited from [Object.prototype]; for every
    other name it yields an icon component: the one mapped to the name, or
    [Brain] when the name is not mapped. So the result is never [undefined]
    and never a built-in method. *)
Theorem archetype_icon_result_kinds :
  forall iconName : string,
    (toLowerCase iconName = "constructor"%string
     /\ getArchetypeIcon iconName = ObjectConstructor)
    \/ (toLowerCase iconName = "__proto__"%string
        /\ getArchetypeIcon iconName = ObjectPrototype)
    \/ (toLowerCase iconName <> "constructor"%string
        /\ toLowerCase iconName <> "__proto__"%string
        /\ getArchetypeIcon iconName
           = Component (match own_property icons (toLowerCase iconName) with
                        | Some mapped => mapped
                        | None => Brain
                        end)).
Proof.
  intros iconName.
  destruct (string_dec (toLowerCase iconName) "constructor") as [Hc|Hc].
  { left. split; [exact Hc|]. exact (getArchetypeIcon_constructor _ Hc). }
  destruct (string_dec (toLowerCase iconName) "__proto__") as [Hp|Hp].
  { right. left. split; [exact Hp|]. exact (getArchetypeIcon_proto _ Hp). }
  right. right. split; [exact Hc|]. split; [exact Hp|].
  exact (getArchetypeIcon_plain _ Hc Hp).
Qed.

Import Boundary BoundarySpec.

Section BoundaryFacts.
Context {H : Type}.
Variable onReset : option H.

Lemma step_settled (s : State) (ev : event) :
  settled s -> settled (fst (step onReset s ev)).
Proof.
  intros Hs. destruct ev as [err info| |]; cbn [step].
  - right. reflexivity.
  - unfold render. destruct (hasError s) eqn:Hh; cbn; [now left|exact Hs].
  - unfold render. destruct (hasError s); [destruct onReset|]; exact Hs.
Qed.

Lemma run_settled (evs : list event) :
  forall s, settled s -> settled (fst (run onReset s evs)).
Proof.
  induction evs as [|ev evs IH]; intros s Hs; cbn [run]; [exact Hs|].
  pose proof (step_settled s ev Hs) as H1.
  destruct (step onReset s ev) as [s1 fx1]. cbn [fst] in H1.
  specialize (IH s1 H1).
  destruct (run onReset s1 evs) as [s2 fx2]. exact IH.
Qed.

Lemma run_app (evs1 evs2 : list event) :
  forall s,
    run onReset s (evs1 ++ evs2)
    = let '(s1, fx1) := run onReset s evs1 in
      let '(s2, fx2) := run onReset s1 evs2 in
      (s2, fx1 ++ fx2).
Proof.
  induction evs1 as [|ev evs1 IH]; intros s; cbn [run app].
  - destruct (run onReset s evs2) as [s2 fx2]. reflexivity.
  - destruct (step onReset s ev) as [s1 fx1]. rewrite IH.
    destruct (run onReset s1 evs1) as [s2 fx2].
    destruct (run onReset s2 evs2) as [s3 fx3].
    now rewrite app_assoc.
Qed.

Lemma run_after_throw (evs : list event) (v : thrown) (info : ErrorInfo) :
  forall s,
    fst (run onReset s (evs ++ [ChildThrows v info]))
    = {| hasError := true; error := v; errorInfo := Some info |}.
Proof.
  intros s. rewrite run_app.
  destruct (run onReset s evs) as [s1 fx1]. reflexivity.
Qed.

End BoundaryFacts.

(** X2. Whatever is thrown and whatever buttons are clicked, the boundary
    either renders its children, and is then in its initial state, or
    renders the fallback with the value it holds, with "Try Again" and with
    "Back to Dashboard" exactly when the props give [onReset]. The value
    held after a throw is the value thrown, whatever it is. The fallback
    then shows the text of the category of the message for an error object
    and the text for a missing error for [null], [undefined] and any other
    falsy value; for a truthy value without a string message the fallback
    itself fails with a [TypeError]. *)
Theorem boundary_fallback_follows_thrown_value :
  forall (H : Type) (onReset : option H) (evs : list event),
    match render onReset (fst (run onReset initialState evs)) with
    | ShowChildren => fst (run onReset initialState evs) = initialState
    | ShowFallback held tryAgain goBack =>
        hasError (fst (run onReset initialState evs)) = true
        /\ held = error (fst (run onReset initialState evs))
        /\ tryAgain = true
        /\ goBack = onReset
        /\ match held with
           | ThrownError err =>
               exists c,
                 classified (message err) c
                 /\ PersonaErrorFallback held tryAgain goBack
                    = Normal {| shownText := shown c err;
                                tryAgainButton := true;
                                goBackButton := onReset |}
           | ThrownNull | ThrownUndefined | ThrownFalsy =>
               PersonaErrorFallback held tryAgain goBack
               = Normal {| shownText := getErrorMessage None;
                           tryAgainButton := true;
                           goBackButton := onReset |}
           | ThrownTruthy =>
               PersonaErrorFallback held tryAgain goBack = Throw TypeError
           end
    end
    /\ forall (v : thrown) (info : ErrorInfo),
         fst (run onReset initialState (evs ++ [ChildThrows v info]))
         = {| hasError := true; error := v; errorInfo := Some info |}.
Proof.
  intros H onReset evs. split; [|intros v info; apply run_after_throw].
  pose proof (run_settled onReset evs initialState (or_introl eq_refl)) as Hs.
  destruct (fst (run onReset initialState evs)) as [h e i] eqn:Hrun.
  unfold render. cbn [hasError error].
  destruct Hs as [Hi|Hh].
  - injection Hi as -> -> ->. reflexivity.
  - cbn in Hh. subst h. repeat split.
    destruct e as [err| | | |]; try reflexivity.
    destruct (getErrorMessage_classified err) as (c & Hc & Hshown).
    exists c. split; [exact Hc|].
    unfold PersonaErrorFallback, errorMessageOf. now rewrite Hshown.
Qed.

(** X3. After any sequence of events, a click on "Try Again" brings the
    children back and leaves the boundary in its initial state, while a
    click on "Back to Dashboard" changes nothing of what the boundary shows:
    after it the fallback is still on screen. *)
Theorem boundary_try_again_recovers :
  forall (H : Type) (onReset : option H) (evs : list event),
    fst (run onReset initialState (evs ++ [ClickTryAgain])) = initialState
    /\ render onReset (fst (run onReset initialState (evs ++ [ClickTryAgain])))
       = ShowChildren
    /\ fst (run onReset initialState (evs ++ [ClickGoBack]))
       = fst (run onReset initialState evs).
Proof.
  intros H onReset evs.
  pose proof (run_settled onReset evs initialState (or_introl eq_refl)) as Hs.
  rewrite !run_app.
  destruct (run onReset initialState evs) as [s fx]. cbn [fst] in *.
  cbn [run step]. unfold render.
  destruct Hs as [->|Hh].
  - cbn. repeat split.
  - rewrite Hh. cbn. repeat split. destruct onReset; reflexivity.
Qed.

Section BoundaryEffects.
Context {H : Type}.
Variable onReset : option H.

Lemma run_effects (evs : list event) :
  forall s,
    length (filter is_log (snd (run onReset s evs)))
    = length (filter is_throw evs)
    /\ (length (filter (fun fx => negb (is_log fx)) (snd (run onReset s evs)))
        <= length (filter is_click evs))%nat
    /\ Forall (fun fx => match fx with
                         | Invoked h => onReset = Some h
                         | ConsoleError _ _ => True
                         end) (snd (run onReset s evs)).
Proof.
  induction evs as [|ev evs IH]; intros s; cbn [run].
  - cbn. split; [reflexivity|split; [lia|constructor]].
  - destruct (step onReset s ev) as [s1 fx1] eqn:Hstep.
    specialize (IH s1). destruct (run onReset s1 evs) as [s2 fx2].
    cbn [snd] in *. destruct IH as (IH1 & IH2 & IH3).
    rewrite !filter_app, !length_app, Forall_app.
    destruct ev as [err info| |]; cbn [step] in Hstep.
    + injection Hstep as _ <-. cbn.
      repeat split; try lia; try exact IH3; repeat constructor.
    + unfold render in Hstep.
      destruct (hasError s); [destruct onReset as [h|]|];
        injection Hstep as _ <-; cbn;
        repeat split; try lia; try exact IH3; repeat constructor.
    + unfold render in Hstep.
      destruct (hasError s); [destruct onReset as [h|]|];
        injection Hstep as _ <-; cbn;
        repeat split; try lia; try exact IH3; repeat constructor.
Qed.

End BoundaryEffects.

(** X4. Over any sequence of events the boundary logs to the console once
    for each error caught, and it calls nothing but the [onReset] of its
    props, at most once for each click; a boundary without [onReset] calls
    nothing at all. *)
Theorem boundary_effects_accounted :
  forall (H : Type) (onReset : option H) (evs : list event),
    length (filter is_log (snd (run onReset initialState evs)))
    = length (filter is_throw evs)
    /\ (length (filter (fun fx => negb (is_log fx))
                       (snd (run onReset initialState evs)))
        <= length (filter is_click evs))%nat
    /\ Forall (fun fx => match fx with
                         | Invoked h => onReset = Some h
                         | ConsoleError _ _ => True
                         end) (snd (run onReset initialState evs)).
Proof. intros H onReset evs. apply run_effects. Qed.

(** X5. The fallback never shows an empty title or an empty description,
    also for a missing error and for an error whose message is empty. *)
Theorem error_text_never_empty :
  forall err : option Error,
    nonempty (PersonaErrorBoundary.title (getErrorMessage err)) = true
    /\ nonempty (PersonaErrorBoundary.description (getErrorMessage err))
       = true.
Proof.
  intros [err|]; [|split; reflexivity].
  destruct (getErrorMessage_classified err) as (c & _ & ->).
  destruct c; cbn; try (split; reflexivity).
  split; [reflexivity|]. destruct (message err); reflexivity.
Qed.

(* ================================================================= *)
(** ** Further properties: the start form *)

Section TrimFacts.
Import StartForm FormSpec.
Local Open Scope string_scope.

Lemma trimStart_split (s : string) :
  exists pre, s = pre ++ trimStart s
              /\ blank pre = true /\ starts_clean (trimStart s) = true.
Proof.
  induction s as [|c s (pre & Hs & Hb & Hc)].
  - exists "". repeat split.
  - cbn [trimStart]. destruct (is_whitespace c) eqn:Hw.
    + exists (String c pre). cbn. rewrite Hw, Hb, <- Hs. repeat split. exact Hc.
    + exists "". cbn. rewrite Hw. repeat split.
Qed.

Lemma trimEnd_split (s : string) :
  exists post, s = trimEnd s ++ post
               /\ blank post = true /\ ends_clean (trimEnd s) = true.
Proof.
  induction s as [|c s (post & Hs & Hb & Hc)].
  - exists "". repeat split.
  - cbn [trimEnd]. destruct (trimEnd s) as [|d kept] eqn:Ht.
    + cbn in Hs. subst post. destruct (is_whitespace c) eqn:Hw.
      * exists (String c s). cbn. rewrite Hw, Hb. repeat split.
      * exists s. cbn. rewrite Hw. repeat split. exact Hb.
    + exists post. cbn [append]. rewrite Hs at 1. repeat split; [exact Hb|].
      exact Hc.
Qed.

Lemma trimEnd_starts_clean (s : string) :
  starts_clean s = true -> starts_clean (trimEnd s) = true.
Proof.
  destruct s as [|c s]; [reflexivity|]. cbn [starts_clean trimEnd].
  intros Hc. destruct (trimEnd s); [|exact Hc].
  destruct (is_whitespace c) eqn:Hw; [discriminate|].
  cbn. now rewrite Hw.
Qed.

Lemma blank_app (a b : string) : blank (a ++ b) = blank a && blank b.
Proof.
  induction a as [|c a IH]; cbn; [reflexivity|]. now rewrite IH, andb_assoc.
Qed.

Lemma trimStart_blank (s : string) :
  blank s = true -> trimStart s = "".
Proof.
  induction s as [|c s IH]; [reflexivity|]. cbn.
  destruct (is_whitespace c); [exact IH|discriminate].
Qed.

Lemma clean_blank_empty (s : string) :
  starts_clean s = true -> blank s = true -> s = "".
Proof.
  destruct s as [|c s]; [reflexivity|]. cbn.
  destruct (is_whitespace c); discriminate.
Qed.

(** What [trim] leaves: the string without the whitespace on both sides. *)
Lemma trim_split (s : string) :
  exists pre post,
    s = pre ++ trim s ++ post
    /\ blank pre = true /\ blank post = true
    /\ starts_clean (trim s) = true /\ ends_clean (trim s) = true.
Proof.
  destruct (trimStart_split s) as (pre & Hs & Hpre & Hstart).
  destruct (trimEnd_split (trimStart s)) as (post & Ht & Hpost & Hend).
  exists pre, post. unfold trim. rewrite <- Ht.
  repeat split; try assumption. now apply trimEnd_starts_clean.
Qed.

Lemma trim_empty_iff_blank (s : string) :
  nonempty (trim s) = negb (blank s).
Proof.
  destruct (trim_split s) as (pre & post & Hs & Hpre & Hpost & Hstart & _).
  destruct (trim s) as [|c t] eqn:Ht.
  - cbn. rewrite Hs, !blank_app, Hpre, Hpost. reflexivity.
  - cbn [nonempty]. rewrite Hs, !blank_app. cbn in Hstart |- *.
    apply negb_true_iff in Hstart. now rewrite Hstart, andb_false_r.
Qed.

Lemma step_calls_clean (f : form) (ev : event) :
  Forall (fun call => nonempty (call_topic call) = true
                      /\ starts_clean (call_topic call) = true
                      /\ ends_clean (call_topic call) = true
                      /\ In (call_topic call) (map trim [topic f]))
         (snd (step f ev)).
Proof.
  destruct ev; cbn [step snd]; try constructor.
  unfold startDisabled, handleStartDebate.
  destruct (nonempty (trim (topic f))) eqn:Hn; cbn [negb]; constructor;
    [|constructor].
  cbn [call_topic]. destruct (trim_split (topic f)) as (_ & _ & _ & _ & _ & Hs & He).
  repeat split; try assumption. now left.
Qed.

End TrimFacts.

Import StartForm FormSpec.

(** X6. The start button is disabled exactly when the topic is blank (empty
    or whitespace only). A click on the enabled button makes one call of
    [onStartDebate], with the style and the duration of the form and with
    the topic stripped of the whitespace around it: the topic typed is
    whitespace, then the topic passed, then whitespace, and the topic
    passed neither starts nor ends with whitespace. *)
Theorem start_passes_trimmed_topic :
  forall f : form,
    startDisabled f = blank (topic f)
    /\ snd (step f ClickStart)
       = (if blank (topic f) then []
          else [{| call_topic := trim (topic f);
                   call_style := selectedStyle f;
                   call_duration := duration f |}])
    /\ exists pre post,
         topic f = (pre ++ trim (topic f) ++ post)%string
         /\ blank pre = true /\ blank post = true
         /\ starts_clean (trim (topic f)) = true
         /\ ends_clean (trim (topic f)) = true.
Proof.
  intros f. split; [|split].
  - unfold startDisabled. now rewrite trim_empty_iff_blank, negb_involutive.
  - cbn [step snd]. unfold startDisabled, handleStartDebate.
    rewrite trim_empty_iff_blank, negb_involutive.
    destruct (blank (topic f)); reflexivity.
  - apply trim_split.
Qed.

Section FormRuns.

Lemma run_calls_clean (evs : list event) :
  forall f,
    Forall (fun call => nonempty (call_topic call) = true
                        /\ starts_clean (call_topic call) = true
                        /\ ends_clean (call_topic call) = true
                        /\ In (call_topic call)
                              (map trim (topic f :: typed evs)))
           (snd (run f evs)).
Proof.
  induction evs as [|ev evs IH]; intros f; cbn [run].
  - constructor.
  - pose proof (step_calls_clean f ev) as H1.
    destruct (step f ev) as [f1 calls1] eqn:Hstep.
    specialize (IH f1). destruct (run f1 evs) as [f2 calls2].
    cbn [snd] in *. apply Forall_app. split.
    + eapply Forall_impl; [|exact H1]. cbn.
      intros call (Hn & Hs & He & [Hin|[]]). repeat split; try assumption.
      now left.
    + eapply Forall_impl; [|exact IH]. cbn.
      intros call (Hn & Hs & He & Hin). repeat split; try assumption.
      destruct ev; cbn [step] in Hstep; injection Hstep as <- _;
        cbn [topic typed map In] in *; tauto.
Qed.

End FormRuns.

(** X7. Whatever the user does with the form, every call of [onStartDebate]
    carries a topic that is not empty, that neither starts nor ends with
    whitespace, and that is the trimmed form of a topic the user typed; in
    particular nothing is started before a topic has been typed. *)
Theorem start_calls_have_clean_topics :
  forall evs : list event,
    Forall (fun call => nonempty (call_topic call) = true
                        /\ starts_clean (call_topic call) = true
                        /\ ends_clean (call_topic call) = true
                        /\ In (call_topic call) (map trim (typed evs)))
           (snd (run initialForm evs)).
Proof.
  intros evs. eapply Forall_impl; [|apply (run_calls_clean evs initialForm)].
  cbn. intros call (Hn & Hs & He & [Hin|Hin]); repeat split; try assumption.
  rewrite <- Hin in Hn. discriminate Hn.
Qed.

(* ================================================================= *)
(** ** Further properties: the dashboard's lists and cards *)

Import Charts.

Section ChartFacts.

Lemma map_indexed_length {A B : Type} (f : A -> nat -> B) (l : list A) :
  forall idx, length (map_indexed f idx l) = length l.
Proof. induction l as [|x l IH]; intros idx; cbn; [reflexivity|now rewrite IH]. Qed.

Lemma map_indexed_map {A B C : Type} (f : A -> nat -> B) (g : B -> C)
    (h : A -> C) (l : list A) :
  (forall x idx, g (f x idx) = h x) ->
  forall idx, map g (map_indexed f idx l) = map h l.
Proof.
  intros Hg. induction l as [|x l IH]; intros idx; cbn; [reflexivity|].
  now rewrite Hg, IH.
Qed.

Lemma map_indexed_app {A B : Type} (f : A -> nat -> B) (l1 l2 : list A) :
  forall idx,
    map_indexed f idx (l1 ++ l2)
    = map_indexed f idx l1 ++ map_indexed f (idx + length l1) l2.
Proof.
  induction l1 as [|x l1 IH]; intros idx; cbn.
  - now rewrite Nat.add_0_r.
  - rewrite IH. do 3 f_equal. lia.
Qed.

Lemma recentList_firstn (history : list SessionHistoryItem) :
  recentList history = firstn 5 history.
Proof. exact (slice_prefix history 5). Qed.

End ChartFacts.

(** X8. The history card lists the first five sessions of the history, and
    the chart has one bar for each of them in the opposite order, the oldest
    of the five first: the scores on the bars are the listed scores
    reversed, there are [min 5 n] bars, and the most recent session is the
    last bar, the one with the highest index. *)
Theorem score_chart_is_recent_list_reversed :
  forall history : list SessionHistoryItem,
    recentList history = firstn 5 history
    /\ length (scoreChart history) = Nat.min 5 (length history)
    /\ map bar_label (scoreChart history) = rev (map score (recentList history))
    /\ forall (s : SessionHistoryItem) (rest : list SessionHistoryItem),
         exists earlier,
           scoreChart (s :: rest)
           = earlier ++ [scoreBar s (Nat.min 4 (length rest))]
           /\ length earlier = Nat.min 4 (length rest).
Proof.
  intros history. split; [apply recentList_firstn|]. split; [|split].
  - unfold scoreChart. fold (recentList history).
    rewrite map_indexed_length, length_rev, recentList_firstn, length_firstn.
    reflexivity.
  - unfold scoreChart. fold (recentList history).
    rewrite (map_indexed_map scoreBar bar_label score) by reflexivity.
    now rewrite map_rev.
  - intros s rest. unfold scoreChart. fold (recentList (s :: rest)).
    rewrite recentList_firstn. change 5%nat with (S 4). rewrite firstn_cons.
    cbn [rev].
    rewrite map_indexed_app. cbn [map_indexed Nat.add].
    rewrite length_rev, length_firstn.
    eexists. split; [reflexivity|].
    now rewrite map_indexed_length, length_rev, length_firstn.
Qed.

Section RateFacts.

Lemma sumFrom_zeros (xs : list number) :
  forallb (fun x => SFeqb x (of_Z 0)) xs = true ->
  Spec.sumFrom (of_Z 0) xs = of_Z 0.
Proof.
  induction xs as [|x xs IH]; [reflexivity|]. cbn [forallb Spec.sumFrom].
  intros Hx. apply andb_true_iff in Hx. destruct Hx as [Hx Hxs].
  destruct x as [[|]|[|]| |[|] m e]; try discriminate Hx; exact (IH Hxs).
Qed.

Lemma of_nat_positive (k : nat) :
  (0 < k)%nat ->
  exists F, of_nat k = F /\ nonneg_wf F /\ 0 < ford F.
Proof.
  intros Hk. exists (of_nat k). split; [reflexivity|]. split.
  - apply of_nat_wf.
  - apply of_Z_positive. lia.
Qed.

Lemma zero_mean (xs : list number) :
  xs <> [] ->
  forallb (fun x => SFeqb x (of_Z 0)) xs = true ->
  Spec.arithmeticMean xs = of_Z 0.
Proof.
  intros Hne Hz. unfold Spec.arithmeticMean, Spec.sum.
  rewrite (sumFrom_zeros xs Hz).
  destruct (of_nat_positive (length xs)) as (F & -> & Hwf & Hpos).
  { destruct xs; [contradiction|cbn; lia]. }
  destruct F as [[|]|[|]| |[|] m e]; try contradiction; try reflexivity.
  cbn in Hpos. lia.
Qed.

Lemma forallb_over_map {A B : Type} (f : B -> bool) (g : A -> B)
    (l : list A) :
  forallb f (map g l) = forallb (fun x => f (g x)) l.
Proof. induction l as [|x l IH]; cbn; [reflexivity|now rewrite IH]. Qed.

(** The difference of a finite number with itself is [+0]. *)
Lemma sub_diag (s : bool) (m : positive) (e : Z) :
  sub (S754_finite s m e) (S754_finite s m e) = S754_zero false.
Proof.
  unfold sub. cbn [SFsub]. now rewrite Z.sub_diag.
Qed.

End RateFacts.

(** X9. When every session of the older half scored 0, in a history of at
    least four sessions, the improvement rate is not a finite number: the
    card shows [NaN%] or an infinite percentage. *)
Theorem improvement_rate_undefined_when_older_scores_zero :
  forall history : list SessionHistoryItem,
    (4 <= length history)%nat ->
    forallb (fun s => SFeqb (score s) (of_Z 0)) (Spec.olderHalf history) = true ->
    is_finite (calculateImprovementRate history) = false
    /\ is_finite (shownRate (renderImprovementCard history)) = false.
Proof.
  intros history Hlen Hz.
  assert (H : is_finite (calculateImprovementRate history) = false).
  { apply (improvementRate_zero_older history false Hlen).
    apply zero_mean.
    - destruct (halves_lengths history) as [_ Hl].
      intros Hnil. apply (f_equal (@length number)) in Hnil.
      rewrite length_map, Hl in Hnil. cbn [length] in Hnil.
      assert (length history / 2 < length history)%nat
        by (apply Nat.div_lt; lia).
      lia.
    - now rewrite forallb_over_map. }
  split; exact H.
Qed.

Lemma improvement_rate_undefined_when_older_scores_zero_witness :
  is_finite (calculateImprovementRate (map session [10; 20; 30; 0; 0; 0]))
  = false
  /\ is_finite (shownRate (renderImprovementCard
                             (map session [10; 20; 30; 0; 0; 0]))) = false.
Proof.
  apply (improvement_rate_undefined_when_older_scores_zero
           (map session [10; 20; 30; 0; 0; 0])).
  - simpl. lia.
  - reflexivity.
Defined.

(** X10. When the two halves of a history of at least four sessions have
    the same finite mean, not zero, the improvement rate is a zero: the card
    shows no ["+"] and a flat arrow. *)
Theorem improvement_rate_zero_when_means_agree :
  forall (history : list SessionHistoryItem) (s : bool) (m : positive) (e : Z),
    (4 <= length history)%nat ->
    Spec.arithmeticMean (map score (Spec.recentHalf history))
    = S754_finite s m e ->
    Spec.arithmeticMean (map score (Spec.olderHalf history))
    = S754_finite s m e ->
    calculateImprovementRate history = S754_zero s
    /\ renderImprovementCard history
       = {| signPrefix := ""; shownRate := S754_zero s;
            badge := Some ArrowFlat |}.
Proof.
  intros history s m e Hlen Hr Ho.
  assert (H : calculateImprovementRate history = S754_zero s).
  { rewrite calculateImprovementRate_long by exact Hlen.
    unfold Spec.improvementRatePercent. cbv zeta. rewrite Hr, Ho, sub_diag.
    destruct s; reflexivity. }
  split; [exact H|].
  unfold renderImprovementCard, improvementRate. cbv zeta. rewrite H.
  destruct (Nat.leb_spec 4 (length history)) as [_|Hlt]; [|lia].
  destruct s; reflexivity.
Qed.

Lemma improvement_rate_zero_when_means_agree_witness :
  calculateImprovementRate (map session [70; 50; 40; 80]) = S754_zero false
  /\ renderImprovementCard (map session [70; 50; 40; 80])
     = {| signPrefix := ""; shownRate := S754_zero false;
          badge := Some ArrowFlat |}.
Proof.
  apply (improvement_rate_zero_when_means_agree
           (map session [70; 50; 40; 80]) false 8444249301319680 (-47)).
  - simpl. lia.
  - vm_compute. reflexivity.
  - vm_compute. reflexivity.
Defined.

(* ================================================================= *)
(** ** Further rounding facts: exact values, sums, quotients and signs *)

Import Rounding RangeSpec.

(** *** Rounding a scaled integer *)

Section RoundingFacts.

Lemma shl_align_eq (m : positive) (e e' : Z) :
  shl_align m e e'
  = (Z.to_pos (Zpos m * 2 ^ (e - Z.min e e')), Z.min e e').
Proof.
  unfold shl_align. destruct (e' - e) as [|d|d] eqn:Hd.
  - rewrite Z.min_l by lia. now rewrite Z.sub_diag, Z.pow_0_r, Z.mul_1_r.
  - rewrite Z.min_l by lia. now rewrite Z.sub_diag, Z.pow_0_r, Z.mul_1_r.
  - rewrite Z.min_r by lia. f_equal.
    replace (e - e') with (Zpos d) by lia.
    rewrite <- iter_xO. reflexivity.
Qed.

Lemma bexp_le (p : positive) (e : Z) : bexp p e <= e.
Proof. unfold bexp. lia. Qed.

Lemma bman_pos (p : positive) (e : Z) : 0 < bman p e.
Proof.
  unfold bman. pose proof (bexp_le p e).
  pose proof (pow2_pos (e - bexp p e) ltac:(lia)). nia.
Qed.

Lemma bman_digits (p : positive) (e : Z) :
  Zdigits2 (bman p e) + bexp p e = Zpos (digits2_pos p) + e.
Proof.
  unfold bman. pose proof (bexp_le p e).
  rewrite Zdigits2_shift by lia. cbn [Zdigits2]. lia.
Qed.

Lemma binary_round_eq (sx : bool) (p : positive) (e : Z) :
  binary_round prec emax sx p e
  = binary_round_aux prec emax sx (bman p e) (bexp p e) loc_Exact.
Proof.
  unfold binary_round. rewrite shl_align_eq. fold (bexp p e). fold (bman p e).
  rewrite Z2Pos.id by apply bman_pos. reflexivity.
Qed.

Lemma binary_round_ord (p : positive) (e : Z) :
  nonneg_wf (binary_round prec emax false p e)
  /\ ford (binary_round prec emax false p e) = Z.min (ordB p e) INF.
Proof.
  rewrite binary_round_eq. unfold ordB. rewrite <- (bman_digits p e).
  pose proof (bman_pos p e).
  apply binary_round_aux_ord; try lia.
  - apply code_exact.
  - rewrite bman_digits. unfold bexp. lia.
Qed.

Lemma ordB_mono (p : positive) (e : Z) (q : positive) (e' : Z) :
  Zpos p * 2 ^ (e - Z.min e e') <= Zpos q * 2 ^ (e' - Z.min e e') ->
  ordB p e <= ordB q e'.
Proof.
  intros Hle. unfold ordB. rewrite <- (bman_digits p e), <- (bman_digits q e').
  pose proof (bman_pos p e). pose proof (bman_pos q e').
  pose proof (bexp_le p e) as Rp. pose proof (bexp_le q e') as Rq.
  apply ord_mono; try lia.
  - rewrite Z.mul_1_r, Z.mul_comm, Z.div_mul; lia.
  - rewrite Z.mul_1_r, Z.mul_comm, Z.div_mul; lia.
  - rewrite bman_digits. unfold bexp. lia.
  - rewrite bman_digits. unfold bexp. lia.
  - unfold bman. set (mu := Z.min (bexp p e) (bexp q e')).
    set (nu := Z.min e e') in *.
    rewrite !Z.mul_1_r.
    replace (2 * (Zpos p * 2 ^ (e - bexp p e)) * 2 ^ (bexp p e - mu))
      with (2 * Zpos p * (2 ^ (e - bexp p e) * 2 ^ (bexp p e - mu))) by ring.
    replace (2 * (Zpos q * 2 ^ (e' - bexp q e')) * 2 ^ (bexp q e' - mu))
      with (2 * Zpos q * (2 ^ (e' - bexp q e') * 2 ^ (bexp q e' - mu))) by ring.
    rewrite <- !Z.pow_add_r by lia.
    replace (e - bexp p e + (bexp p e - mu)) with ((e - nu) + (nu - mu)) by lia.
    replace (e' - bexp q e' + (bexp q e' - mu)) with ((e' - nu) + (nu - mu)) by lia.
    rewrite !Z.pow_add_r by lia.
    pose proof (pow2_pos (nu - mu) ltac:(lia)).
    replace (2 * Zpos p * (2 ^ (e - nu) * 2 ^ (nu - mu)))
      with (Zpos p * 2 ^ (e - nu) * (2 * 2 ^ (nu - mu))) by ring.
    replace (2 * Zpos q * (2 ^ (e' - nu) * 2 ^ (nu - mu)))
      with (Zpos q * 2 ^ (e' - nu) * (2 * 2 ^ (nu - mu))) by ring.
    apply Z.mul_le_mono_nonneg_r; lia.
Qed.

(** A value that is a number rounds to itself. *)
Lemma ordB_exact (m : positive) (e : Z) :
  nonneg_wf (S754_finite false m e) ->
  ordB m e = ford (S754_finite false m e).
Proof.
  intros Hwf. destruct (wf_digits m e Hwf) as [Hd Hn].
  cbn [nonneg_wf] in Hwf.
  assert (Hf : fexp prec emax (Zpos (digits2_pos m) + e) = e).
  { rewrite fexp_eq. destruct (Z.eq_dec e (-1074)); lia. }
  unfold ordB, bman, bexp. rewrite Hf, Z.min_id, Z.sub_diag, Z.pow_0_r.
  rewrite !Z.mul_1_r, tau_exact. cbn [ford].
  replace (4 * Zpos m) with (Zpos m * 4) by lia.
  rewrite rne_low by (apply Z.mod_mul; lia).
  rewrite Z.div_mul by lia. reflexivity.
Qed.

Lemma wf_ford_exact (m : positive) (e : Z) :
  nonneg_wf (S754_finite false m e) ->
  ford (S754_finite false m e) = Z.min (ordB m e) INF.
Proof.
  intros Hwf. rewrite ordB_exact by exact Hwf.
  pose proof (ford_range _ Hwf). lia.
Qed.

Lemma value_le_ford (mx : positive) (ex : Z) (my : positive) (ey : Z) :
  nonneg_wf (S754_finite false mx ex) -> nonneg_wf (S754_finite false my ey) ->
  Zpos mx * 2 ^ (ex - Z.min ex ey) <= Zpos my * 2 ^ (ey - Z.min ex ey) ->
  ford (S754_finite false mx ex) <= ford (S754_finite false my ey).
Proof.
  intros Hx Hy Hv. rewrite <- (ordB_exact mx ex Hx), <- (ordB_exact my ey Hy).
  now apply ordB_mono.
Qed.

Lemma finite_ford_pos (m : positive) (e : Z) :
  nonneg_wf (S754_finite false m e) ->
  0 < ford (S754_finite false m e) < INF.
Proof. cbn [nonneg_wf ford]. unfold INF. unpow. lia. Qed.

Lemma valid_nonneg_wf (m : positive) (e : Z) :
  valid_binary prec emax (S754_finite false m e) = true ->
  nonneg_wf (S754_finite false m e).
Proof.
  cbn [valid_binary]. unfold bounded, canonical_mantissa.
  intros Hv. apply andb_true_iff in Hv. destruct Hv as [Hc Hb].
  apply Z.eqb_eq in Hc. apply Z.leb_le in Hb. rewrite fexp_eq in Hc.
  change (emax - prec) with 971 in Hb.
  pose proof (digits2_pos_bounds m) as [Hlo Hhi].
  set (d := Zpos (digits2_pos m)) in *.
  cbn [nonneg_wf]. split; [lia|]. split.
  - apply Z.lt_le_trans with (1 := Hhi). apply Z.pow_le_mono_r; lia.
  - intros He. replace 52 with (d - 1) by lia. exact Hlo.
Qed.

End RoundingFacts.

(** *** Addition *)

Section AdditionFacts.

Lemma aligned_fst (m : positive) (e e' : Z) :
  Zpos (fst (shl_align m e (Z.min e e'))) = Zpos m * 2 ^ (e - Z.min e e').
Proof.
  rewrite shl_align_eq. cbn [fst].
  replace (Z.min e (Z.min e e')) with (Z.min e e') by lia.
  pose proof (pow2_pos (e - Z.min e e') ltac:(lia)).
  rewrite Z2Pos.id by nia. reflexivity.
Qed.

Lemma add_finite_eq (mx : positive) (ex : Z) (my : positive) (ey : Z) :
  SFadd prec emax (S754_finite false mx ex) (S754_finite false my ey)
  = binary_round prec emax false
      (Z.to_pos (Zpos mx * 2 ^ (ex - Z.min ex ey)
                 + Zpos my * 2 ^ (ey - Z.min ex ey)))
      (Z.min ex ey).
Proof.
  cbn [SFadd cond_Zopp]. cbv zeta.
  rewrite (aligned_fst mx ex ey).
  rewrite (Z.min_comm ex ey) at 2. rewrite (aligned_fst my ey ex).
  rewrite (Z.min_comm ey ex).
  pose proof (pow2_pos (ex - Z.min ex ey) ltac:(lia)).
  pose proof (pow2_pos (ey - Z.min ex ey) ltac:(lia)).
  destruct (Zpos mx * 2 ^ (ex - Z.min ex ey)
            + Zpos my * 2 ^ (ey - Z.min ex ey)) as [|s|s] eqn:Hs; try nia.
  reflexivity.
Qed.

Lemma add_wf (x y : number) :
  nonneg_wf x -> nonneg_wf y -> nonneg_wf (SFadd prec emax x y).
Proof.
  intros Hx Hy.
  destruct x as [[|]|[|]| |[|] mx ex]; try contradiction;
    destruct y as [[|]|[|]| |[|] my ey]; try contradiction;
    try exact I; try exact Hx; try exact Hy.
  rewrite add_finite_eq. apply binary_round_ord.
Qed.

Lemma add_comm_nonneg (x y : number) :
  nonneg_wf x -> nonneg_wf y -> SFadd prec emax x y = SFadd prec emax y x.
Proof.
  intros Hx Hy.
  destruct x as [[|]|[|]| |[|] mx ex]; try contradiction;
    destruct y as [[|]|[|]| |[|] my ey]; try contradiction; try reflexivity.
  rewrite !add_finite_eq, (Z.min_comm ey ex), Z.add_comm. reflexivity.
Qed.

Lemma add_finite_ford (mx : positive) (ex : Z) (my : positive) (ey : Z) :
  ford (SFadd prec emax (S754_finite false mx ex) (S754_finite false my ey))
  = Z.min (ordB (Z.to_pos (Zpos mx * 2 ^ (ex - Z.min ex ey)
                           + Zpos my * 2 ^ (ey - Z.min ex ey)))
                (Z.min ex ey)) INF.
Proof. rewrite add_finite_eq. apply binary_round_ord. Qed.

Lemma add_mono_l (a a' b : number) :
  nonneg_wf a -> nonneg_wf a' -> nonneg_wf b ->
  ford a <= ford a' ->
  ford (SFadd prec emax a b) <= ford (SFadd prec emax a' b).
Proof.
  intros Ha Ha' Hb Hle.
  pose proof (ford_range _ (add_wf a b Ha Hb)) as R1.
  pose proof (ford_range _ (add_wf a' b Ha' Hb)) as R2.
  destruct b as [[|]|[|]| |[|] mb eb]; try contradiction.
  - (* b = +0 *)
    destruct a as [[|]|[|]| |[|] ma ea]; try contradiction;
      destruct a' as [[|]|[|]| |[|] ma' ea']; try contradiction; exact Hle.
  - (* b = Infinity *)
    destruct a as [[|]|[|]| |[|] ma ea]; try contradiction;
      destruct a' as [[|]|[|]| |[|] ma' ea']; try contradiction;
      cbn [SFadd ford]; lia.
  - (* b finite *)
    destruct a as [[|]|[|]| |[|] ma ea]; try contradiction;
      destruct a' as [[|]|[|]| |[|] ma' ea']; try contradiction;
      try (cbn [SFadd ford] in *; lia);
      try (exfalso; cbn [ford nonneg_wf] in *; unfold INF in *; unpow; lia).
    + (* 0 + b <= a' + b *)
      change (SFadd prec emax (S754_zero false) (S754_finite false mb eb))
        with (S754_finite false mb eb).
      rewrite (wf_ford_exact mb eb Hb), add_finite_ford.
      apply Z.min_le_compat_r, ordB_mono.
      set (nu := Z.min ea' eb).
      replace (Z.min eb nu) with nu by lia.
      pose proof (pow2_pos (ea' - nu) ltac:(lia)).
      pose proof (pow2_pos (eb - nu) ltac:(lia)).
      rewrite Z2Pos.id by nia. rewrite Z.sub_diag, Z.pow_0_r. nia.
    + (* a + b <= a' + b *)
      rewrite !add_finite_ford. apply Z.min_le_compat_r, ordB_mono.
      pose proof (ford_le_val ma ea ma' ea' Ha Ha' Hle) as Hv.
      set (n1 := Z.min ea eb) in *. set (n2 := Z.min ea' eb) in *.
      set (mu := Z.min n1 n2). set (nu := Z.min ea ea') in *.
      pose proof (pow2_pos (ea - n1) ltac:(lia)).
      pose proof (pow2_pos (eb - n1) ltac:(lia)).
      pose proof (pow2_pos (ea' - n2) ltac:(lia)).
      pose proof (pow2_pos (eb - n2) ltac:(lia)).
      rewrite !Z2Pos.id by nia.
      rewrite !Z.mul_add_distr_r, <- !Z.mul_assoc, <- !Z.pow_add_r by lia.
      replace (ea - n1 + (n1 - mu)) with ((ea - nu) + (nu - mu)) by lia.
      replace (ea' - n2 + (n2 - mu)) with ((ea' - nu) + (nu - mu)) by lia.
      replace (eb - n1 + (n1 - mu)) with (eb - mu) by lia.
      replace (eb - n2 + (n2 - mu)) with (eb - mu) by lia.
      rewrite !Z.pow_add_r by lia.
      pose proof (pow2_pos (nu - mu) ltac:(lia)).
      apply Z.add_le_mono_r. rewrite !Z.mul_assoc.
      apply Z.mul_le_mono_nonneg_r; lia.
Qed.

Lemma add_mono (a a' b b' : number) :
  nonneg_wf a -> nonneg_wf a' -> nonneg_wf b -> nonneg_wf b' ->
  ford a <= ford a' -> ford b <= ford b' ->
  ford (SFadd prec emax a b) <= ford (SFadd prec emax a' b').
Proof.
  intros Ha Ha' Hb Hb' H1 H2.
  apply Z.le_trans with (ford (SFadd prec emax a' b)).
  - now apply add_mono_l.
  - rewrite (add_comm_nonneg a' b), (add_comm_nonneg a' b') by assumption.
    now apply add_mono_l.
Qed.

Lemma add_negative_zero (acc : number) :
  nonneg_wf acc -> add acc (S754_zero true) = acc.
Proof. destruct acc as [[|]|[|]| |[|] m e]; try contradiction; reflexivity. Qed.

End AdditionFacts.

(** *** Integers below [2^53] are numbers *)

Section IntegerFacts.

Lemma of_Z_repr (a : Z) (m : positive) (e : Z) :
  nonneg_wf (S754_finite false m e) -> e <= 0 -> Zpos m = a * 2 ^ (- e) ->
  of_Z a = S754_finite false m e.
Proof.
  intros Hwf He Hm.
  pose proof (pow2_pos (- e) ltac:(lia)) as Hp.
  destruct a as [|p|p]; try lia.
  unfold of_Z. cbn [binary_normalize].
  destruct (binary_round_ord p 0) as [Hw Hf].
  apply ford_inj; [exact Hw|exact Hwf|].
  rewrite Hf, (wf_ford_exact m e Hwf). f_equal.
  apply Z.le_antisymm; apply ordB_mono.
  - rewrite Z.min_r by lia. rewrite Z.sub_diag, Z.pow_0_r, Z.sub_0_l. lia.
  - rewrite Z.min_l by lia. rewrite Z.sub_diag, Z.pow_0_r, Z.sub_0_l. lia.
Qed.

Lemma of_Z_exact (a : Z) :
  0 < a < 2 ^ 53 ->
  exists (m : positive) (e : Z),
    of_Z a = S754_finite false m e
    /\ nonneg_wf (S754_finite false m e)
    /\ e <= 0 /\ Zpos m = a * 2 ^ (- e).
Proof.
  intros [Ha Hb]. destruct a as [|p|p]; try lia.
  pose proof (digits2_pos_bounds p) as [Hlo Hhi].
  set (d := Zpos (digits2_pos p)) in *.
  assert (Hd1 : 1 <= d) by (unfold d; lia).
  assert (Hd : d <= 53).
  { destruct (Z.le_gt_cases d 53) as [H|H]; [exact H|].
    assert (2 ^ 53 <= 2 ^ (d - 1)) by (apply Z.pow_le_mono_r; lia). lia. }
  pose proof (pow2_pos (53 - d) ltac:(lia)) as Hp.
  assert (Hup : Zpos p * 2 ^ (53 - d) < 2 ^ 53).
  { replace 53 with (d + (53 - d)) at 2 by lia. rewrite Z.pow_add_r by lia.
    apply Z.mul_lt_mono_pos_r; lia. }
  assert (Hdn : 2 ^ 52 <= Zpos p * 2 ^ (53 - d)).
  { replace 52 with ((d - 1) + (53 - d)) by lia. rewrite Z.pow_add_r by lia.
    apply Z.mul_le_mono_nonneg_r; lia. }
  assert (Hm : Zpos (Z.to_pos (Zpos p * 2 ^ (53 - d))) = Zpos p * 2 ^ (53 - d)).
  { apply Z2Pos.id. nia. }
  assert (Hwf : nonneg_wf (S754_finite false (Z.to_pos (Zpos p * 2 ^ (53 - d)))
                                       (d - 53))).
  { cbn [nonneg_wf]. rewrite Hm. lia. }
  exists (Z.to_pos (Zpos p * 2 ^ (53 - d))), (d - 53).
  assert (Hv : Zpos (Z.to_pos (Zpos p * 2 ^ (53 - d)))
               = Zpos p * 2 ^ (- (d - 53))).
  { rewrite Hm. f_equal. f_equal. lia. }
  split; [|split; [exact Hwf|split; [lia|exact Hv]]].
  apply of_Z_repr; [exact Hwf|lia|exact Hv].
Qed.

Lemma of_Z_finite_pos (a : Z) : 0 < a < 2 ^ 53 -> finite_pos (of_Z a).
Proof.
  intros Ha. destruct (of_Z_exact a Ha) as (m & e & -> & _). exact I.
Qed.

Lemma of_Z_position (a : Z) :
  0 < a -> ford (of_Z a) = Z.min (ordB (Z.to_pos a) 0) INF.
Proof.
  intros Ha. destruct a as [|p|p]; try lia.
  unfold of_Z. cbn [binary_normalize Z.to_pos]. apply binary_round_ord.
Qed.

(** The sum of two integers below [2^53] is the correctly rounded sum. *)
Lemma add_of_Z (a b : Z) :
  0 < a < 2 ^ 53 -> 0 < b < 2 ^ 53 -> add (of_Z a) (of_Z b) = of_Z (a + b).
Proof.
  intros Ha Hb.
  destruct (of_Z_exact a Ha) as (ma & ea & Ea & Wa & La & Va).
  destruct (of_Z_exact b Hb) as (mb & eb & Eb & Wb & Lb & Vb).
  assert (Hw : nonneg_wf (of_Z (a + b))) by (apply of_Z_ford; lia).
  rewrite Ea, Eb. apply ford_inj; [now apply add_wf|exact Hw|].
  unfold add. rewrite add_finite_ford, of_Z_position by lia. f_equal.
  set (mu := Z.min ea eb).
  pose proof (pow2_pos (ea - mu) ltac:(lia)) as P1.
  pose proof (pow2_pos (eb - mu) ltac:(lia)) as P2.
  pose proof (pow2_pos (- mu) ltac:(lia)) as P3.
  assert (Hval : Zpos ma * 2 ^ (ea - mu) + Zpos mb * 2 ^ (eb - mu)
                 = (a + b) * 2 ^ (- mu)).
  { rewrite Va, Vb, <- !Z.mul_assoc, <- !Z.pow_add_r by lia.
    replace (- ea + (ea - mu)) with (- mu) by lia.
    replace (- eb + (eb - mu)) with (- mu) by lia. ring. }
  apply Z.le_antisymm; apply ordB_mono.
  - rewrite Z.min_l by lia. rewrite Z.sub_diag, Z.pow_0_r, Z.sub_0_l.
    rewrite !Z2Pos.id by nia. lia.
  - rewrite Z.min_r by lia. rewrite Z.sub_diag, Z.pow_0_r, Z.sub_0_l.
    rewrite !Z2Pos.id by nia. lia.
Qed.

Lemma div_of_Z_le_number (a n : Z) (mb : positive) (eb : Z) :
  0 < a < 2 ^ 53 -> 0 < n < 2 ^ 53 ->
  nonneg_wf (S754_finite false mb eb) -> eb <= 0 ->
  a * 2 ^ (- eb) <= Zpos mb * n ->
  ford (div (of_Z a) (of_Z n)) <= ford (S754_finite false mb eb).
Proof.
  intros Ha Hn Wq Lq Hle.
  destruct (of_Z_exact a Ha) as (ma & ea & Ea & Wa & La & Va).
  destruct (of_Z_exact n Hn) as (mn & en & En & Wn & Ln & Vn).
  rewrite Ea, En. unfold div.
  destruct (div_finite_ord ma ea mn en Wa Wn) as [_ ->].
  rewrite (wf_ford_exact mb eb Wq). apply Z.min_le_compat_r.
  unfold ordB. rewrite <- (bman_digits mb eb).
  pose proof (dnum_pos ma ea mn en) as Nx.
  pose proof (bman_pos mb eb) as Nb.
  pose proof (bexp_le mb eb) as Lb.
  pose proof (dexp_le ma ea mn en) as Ld.
  apply ord_mono; try lia.
  - apply Z.div_pos; lia.
  - rewrite Z.div_mul_cancel_l by lia. reflexivity.
  - rewrite Z.mul_1_r, Z.mul_comm, Z.div_mul; lia.
  - now apply div_precondition.
  - rewrite bman_digits. unfold bexp. lia.
  - unfold dnum, bman.
    set (de := dexp ma ea mn en) in *. set (be := bexp mb eb) in *.
    set (mu := Z.min de be).
    rewrite !Z.mul_1_r, Va, Vn.
    assert (F1 : 2 ^ (- ea) * 2 ^ (ea - en - de) * 2 ^ (de - mu)
                 = 2 ^ (- eb) * 2 ^ (eb - mu) * 2 ^ (- en)).
    { rewrite <- !Z.pow_add_r by lia. f_equal. lia. }
    assert (F2 : 2 ^ (eb - be) * 2 ^ (be - mu) = 2 ^ (eb - mu)).
    { rewrite <- Z.pow_add_r by lia. f_equal. lia. }
    pose proof (pow2_pos (eb - mu) ltac:(lia)) as P5.
    pose proof (pow2_pos (- en) ltac:(lia)) as P6.
    replace (2 * (a * 2 ^ (- ea) * 2 ^ (ea - en - de)) * 2 ^ (de - mu))
      with (2 * a * (2 ^ (- ea) * 2 ^ (ea - en - de) * 2 ^ (de - mu))) by ring.
    replace (2 * (Zpos mb * 2 ^ (eb - be)) * (n * 2 ^ (- en)) * 2 ^ (be - mu))
      with (2 * Zpos mb * n * 2 ^ (- en) * (2 ^ (eb - be) * 2 ^ (be - mu)))
      by ring.
    rewrite F1, F2.
    replace (2 * a * (2 ^ (- eb) * 2 ^ (eb - mu) * 2 ^ (- en)))
      with (a * 2 ^ (- eb) * (2 * 2 ^ (eb - mu) * 2 ^ (- en))) by ring.
    replace (2 * Zpos mb * n * 2 ^ (- en) * 2 ^ (eb - mu))
      with (Zpos mb * n * (2 * 2 ^ (eb - mu) * 2 ^ (- en))) by ring.
    apply Z.mul_le_mono_nonneg_r; [nia|exact Hle].
Qed.

Lemma div_of_Z_ge_number (a n : Z) (mb : positive) (eb : Z) :
  0 < a < 2 ^ 53 -> 0 < n < 2 ^ 53 ->
  nonneg_wf (S754_finite false mb eb) -> eb <= 0 ->
  Zpos mb * n <= a * 2 ^ (- eb) ->
  ford (S754_finite false mb eb) <= ford (div (of_Z a) (of_Z n)).
Proof.
  intros Ha Hn Wq Lq Hle.
  destruct (of_Z_exact a Ha) as (ma & ea & Ea & Wa & La & Va).
  destruct (of_Z_exact n Hn) as (mn & en & En & Wn & Ln & Vn).
  rewrite Ea, En. unfold div.
  destruct (div_finite_ord ma ea mn en Wa Wn) as [_ ->].
  rewrite (wf_ford_exact mb eb Wq). apply Z.min_le_compat_r.
  unfold ordB. rewrite <- (bman_digits mb eb).
  pose proof (dnum_pos ma ea mn en) as Nx.
  pose proof (bman_pos mb eb) as Nb.
  pose proof (bexp_le mb eb) as Lb.
  pose proof (dexp_le ma ea mn en) as Ld.
  apply ord_mono; try lia.
  - apply Z.div_pos; lia.
  - rewrite Z.mul_1_r, Z.mul_comm, Z.div_mul; lia.
  - rewrite Z.div_mul_cancel_l by lia. reflexivity.
  - rewrite bman_digits. unfold bexp. lia.
  - now apply div_precondition.
  - unfold dnum, bman.
    set (de := dexp ma ea mn en) in *. set (be := bexp mb eb) in *.
    set (mu := Z.min be de).
    rewrite !Z.mul_1_r, Va, Vn.
    assert (F1 : 2 ^ (- ea) * 2 ^ (ea - en - de) * 2 ^ (de - mu)
                 = 2 ^ (- eb) * 2 ^ (eb - mu) * 2 ^ (- en)).
    { rewrite <- !Z.pow_add_r by lia. f_equal. lia. }
    assert (F2 : 2 ^ (eb - be) * 2 ^ (be - mu) = 2 ^ (eb - mu)).
    { rewrite <- Z.pow_add_r by lia. f_equal. lia. }
    pose proof (pow2_pos (eb - mu) ltac:(lia)) as P5.
    pose proof (pow2_pos (- en) ltac:(lia)) as P6.
    replace (2 * (a * 2 ^ (- ea) * 2 ^ (ea - en - de)) * 2 ^ (de - mu))
      with (2 * a * (2 ^ (- ea) * 2 ^ (ea - en - de) * 2 ^ (de - mu))) by ring.
    replace (2 * (Zpos mb * 2 ^ (eb - be)) * (n * 2 ^ (- en)) * 2 ^ (be - mu))
      with (2 * Zpos mb * n * 2 ^ (- en) * (2 ^ (eb - be) * 2 ^ (be - mu)))
      by ring.
    rewrite F1, F2.
    replace (2 * a * (2 ^ (- eb) * 2 ^ (eb - mu) * 2 ^ (- en)))
      with (a * 2 ^ (- eb) * (2 * 2 ^ (eb - mu) * 2 ^ (- en))) by ring.
    replace (2 * Zpos mb * n * 2 ^ (- en) * 2 ^ (eb - mu))
      with (Zpos mb * n * (2 * 2 ^ (eb - mu) * 2 ^ (- en))) by ring.
    apply Z.mul_le_mono_nonneg_r; [nia|exact Hle].
Qed.

(** A quotient of integers is not above an integer bound of it. *)
Lemma div_of_Z_le (a n q : Z) :
  0 < a < 2 ^ 53 -> 0 < n < 2 ^ 53 -> 0 < q < 2 ^ 53 -> a <= q * n ->
  ford (div (of_Z a) (of_Z n)) <= ford (of_Z q).
Proof.
  intros Ha Hn Hq Hle.
  destruct (of_Z_exact q Hq) as (mq & eq & -> & Wq & Lq & Vq).
  apply div_of_Z_le_number; try assumption.
  rewrite Vq. pose proof (pow2_pos (- eq) ltac:(lia)).
  replace (q * 2 ^ (- eq) * n) with (q * n * 2 ^ (- eq)) by ring.
  apply Z.mul_le_mono_nonneg_r; lia.
Qed.

End IntegerFacts.

(** *** Percentages *)

Section PercentFacts.

Lemma hundred_ford : ford (of_Z 100) = 4636737291354636288.
Proof. reflexivity. Qed.

Lemma hundred_next : ford (of_Z 100) < ford (of_Z 101).
Proof. now vm_compute. Qed.

Lemma percent_cases (x : number) :
  percent x = true ->
  x = S754_zero true \/ (nonneg_wf x /\ ford x <= ford (of_Z 100)).
Proof.
  unfold percent. intros H.
  apply andb_true_iff in H. destruct H as [H H100].
  apply andb_true_iff in H. destruct H as [Hv H0].
  destruct x as [[|]|[|]| |[|] m e]; try discriminate H0; try discriminate H100.
  - now left.
  - right. split; [exact I|]. rewrite hundred_ford. cbn. lia.
  - right. pose proof (valid_nonneg_wf m e Hv) as Hwf. split; [exact Hwf|].
    destruct hundred_wf as [Hh _].
    now apply (SFleb_ford (S754_finite false m e) (of_Z 100) Hwf Hh).
Qed.

Lemma wf_percent (x : number) :
  nonneg_wf x -> ford x <= ford (of_Z 100) ->
  le (of_Z 0) x = true /\ le x (of_Z 100) = true.
Proof.
  intros Hwf Hle. destruct hundred_wf as [Hh _]. split.
  - apply (SFleb_ford (of_Z 0) x); [exact I|exact Hwf|].
    pose proof (ford_range x Hwf). cbn [of_Z binary_normalize ford]. lia.
  - now apply (SFleb_ford x (of_Z 100)).
Qed.

Lemma of_Z_small (k : Z) :
  0 <= k <= 100 -> nonneg_wf (of_Z k) /\ ford (of_Z k) <= ford (of_Z 100).
Proof.
  intros Hk. split; [apply of_Z_ford; lia|apply of_Z_mono; lia].
Qed.

Lemma Math_round_small (x : number) :
  nonneg_wf x -> ford x <= ford (of_Z 100) ->
  exists k, 0 <= k <= 100 /\ Math_round x = of_Z k.
Proof.
  intros Hwf Hle. destruct hundred_wf as [Hh _].
  pose proof (Math_round_mono x (of_Z 100) Hwf Hh Hle) as Hm.
  replace (Math_round (of_Z 100)) with (of_Z 100) in Hm by (vm_compute; reflexivity).
  destruct x as [[|]|[|]| |[|] m e]; try (exfalso; exact Hwf).
  - exists 0. split; [lia|reflexivity].
  - exfalso. rewrite hundred_ford in Hle. cbn [ford] in Hle. unfold INF in Hle.
    unpow. lia.
  - destruct (Z.lt_ge_cases e 0) as [He|He].
    + rewrite Math_round_fraction in * by exact He.
      pose proof (round_int_nonneg m e He) as Hr.
      exists (round_int m e). split; [|reflexivity]. split; [exact Hr|].
      destruct (Z.le_gt_cases (round_int m e) 100) as [Hok|Hbig]; [exact Hok|].
      exfalso. pose proof (of_Z_mono 101 (round_int m e) ltac:(lia)) as H101.
      pose proof hundred_next. lia.
    + exfalso. rewrite hundred_ford in Hle. cbn [nonneg_wf ford] in *.
      unpow. lia.
Qed.

Lemma sumFrom_le_hundreds (xs : list number) :
  forall (acc : number) (k : Z),
    0 <= k -> 100 * (k + Z.of_nat (length xs)) < 2 ^ 53 ->
    nonneg_wf acc -> ford acc <= ford (of_Z (100 * k)) ->
    forallb percent xs = true ->
    nonneg_wf (Spec.sumFrom acc xs)
    /\ ford (Spec.sumFrom acc xs)
       <= ford (of_Z (100 * (k + Z.of_nat (length xs)))).
Proof.
  induction xs as [|x xs IH]; intros acc k Hk Hb Ha Hle Hall;
    cbn [Spec.sumFrom length].
  - rewrite Z.add_0_r. now split.
  - cbn [forallb] in Hall. apply andb_true_iff in Hall.
    destruct Hall as [Hx Hxs].
    cbn [length] in Hb. rewrite Nat2Z.inj_succ in Hb. rewrite Nat2Z.inj_succ.
    replace (k + Z.succ (Z.of_nat (length xs)))
      with ((k + 1) + Z.of_nat (length xs)) by lia.
    assert (Hb' : 100 * ((k + 1) + Z.of_nat (length xs)) < 2 ^ 53) by lia.
    assert (Hk' : 0 <= k + 1) by lia.
    destruct hundred_wf as [Hh _].
    assert (Hw : nonneg_wf (of_Z (100 * k))) by (apply of_Z_ford; lia).
    destruct (percent_cases x Hx) as [->|[Wx Lx]].
    + rewrite add_negative_zero by exact Ha.
      apply (IH acc (k + 1) Hk' Hb' Ha); [|exact Hxs].
      apply Z.le_trans with (1 := Hle). apply of_Z_mono. lia.
    + apply (IH (add acc x) (k + 1) Hk' Hb' (add_wf _ _ Ha Wx)); [|exact Hxs].
      apply Z.le_trans with (ford (add (of_Z (100 * k)) (of_Z 100))).
      * now apply add_mono.
      * destruct (Z.eq_dec k 0) as [->|Hk0].
        -- now vm_compute.
        -- rewrite add_of_Z by (unpow; lia).
           replace (100 * k + 100) with (100 * (k + 1)) by ring. lia.
Qed.

Lemma mean_le_hundred (xs : list number) :
  xs <> [] -> Z.of_nat (length xs) < 2 ^ 32 ->
  forallb percent xs = true ->
  nonneg_wf (Spec.arithmeticMean xs)
  /\ ford (Spec.arithmeticMean xs) <= ford (of_Z 100).
Proof.
  intros Hne Hlen Hall. unfold Spec.arithmeticMean, Spec.sum, of_nat.
  set (n := Z.of_nat (length xs)) in *.
  assert (Hn : 0 < n) by (destruct xs; [contradiction|cbn in n; lia]).
  assert (H32 : 2 ^ 32 = 4294967296) by reflexivity.
  assert (Hb : 100 * (0 + n) < 2 ^ 53) by (unpow; lia).
  destruct (sumFrom_le_hundreds xs (of_Z 0) 0 ltac:(lia) Hb I (Z.le_refl _) Hall)
    as [Ws Ls].
  fold n in Ls. rewrite Z.add_0_l in Ls.
  assert (Wn : nonneg_wf (of_Z n)) by (apply of_Z_ford; lia).
  assert (Fn : finite_pos (of_Z n)) by (apply of_Z_finite_pos; unpow; lia).
  assert (Wh : nonneg_wf (of_Z (100 * n))) by (apply of_Z_ford; lia).
  split; [exact (div_wf _ _ Ws Wn Fn)|].
  apply Z.le_trans with (ford (div (of_Z (100 * n)) (of_Z n))).
  - exact (div_mono _ _ _ Ws Wh Wn Fn Ls).
  - apply div_of_Z_le; unpow; lia.
Qed.

End PercentFacts.

(* ================================================================= *)
(** ** Inputs outside the declared constraints *)

Section CopiesFacts.







End CopiesFacts.




(* ================================================================= *)
(** ** Further properties: the ranges of the displayed figures *)

(** *** The bars of the chart *)

Section ChartRangeFacts.

Lemma bar_height_percent (s : SessionHistoryItem) (idx : nat) :
  percent (score s) = true ->
  le (of_Z 0) (bar_height (scoreBar s idx)) = true
  /\ le (bar_height (scoreBar s idx)) (of_Z 100) = true.
Proof.
  intros Hp. cbn [scoreBar bar_height].
  destruct (percent_cases _ Hp) as [->|[Hwf Hle]]; [split; reflexivity|].
  destruct hundred_wf as [Hh Hhf].
  pose proof (div_wf _ _ Hwf Hh Hhf) as Hd.
  pose proof (div_mono _ _ _ Hwf Hh Hh Hhf Hle) as Hdm.
  apply wf_percent.
  - exact (mul_wf _ _ Hd Hh Hhf).
  - pose proof (mul_mono _ _ _ Hd (div_wf _ _ Hh Hh Hhf) Hh Hhf Hdm) as Hm.
    unfold mul, div. apply Z.le_trans with (1 := Hm). now vm_compute.
Qed.

Lemma bar_opacity_range (s : SessionHistoryItem) (idx : nat) :
  (idx < 5)%nat ->
  le lit_0_3 (bar_opacity (scoreBar s idx)) = true
  /\ le (bar_opacity (scoreBar s idx)) (of_Z 1) = true.
Proof.
  intros Hi. cbn [scoreBar bar_opacity].
  do 5 (destruct idx as [|idx]; [split; vm_compute; reflexivity|]). lia.
Qed.

Lemma bar_opacity_increasing (s t : SessionHistoryItem) (i j : nat) :
  (i < j)%nat -> (j < 5)%nat ->
  lt (bar_opacity (scoreBar s i)) (bar_opacity (scoreBar t j)) = true.
Proof.
  intros Hij Hj. cbn [scoreBar bar_opacity].
  do 5 (destruct j as [|j]; [do 5 (destruct i as [|i]; [try lia; vm_compute; reflexivity|]); lia|]).
  lia.
Qed.

Lemma chart_bars_range (l : list SessionHistoryItem) :
  forall idx,
    (idx + length l <= 5)%nat ->
    forallb (fun s => percent (score s)) l = true ->
    Forall (fun b => le (of_Z 0) (bar_height b) = true
                     /\ le (bar_height b) (of_Z 100) = true
                     /\ le lit_0_3 (bar_opacity b) = true
                     /\ le (bar_opacity b) (of_Z 1) = true)
           (map_indexed scoreBar idx l).
Proof.
  induction l as [|s l IH]; intros idx Hlen Hp; cbn [map_indexed]; [constructor|].
  cbn [length] in Hlen. cbn [forallb] in Hp.
  apply andb_true_iff in Hp. destruct Hp as [Hs Hl].
  constructor; [|apply IH; [lia|exact Hl]].
  destruct (bar_height_percent s idx Hs) as [H1 H2].
  destruct (bar_opacity_range s idx ltac:(lia)) as [H3 H4].
  repeat split; assumption.
Qed.

Lemma forallb_rev {A : Type} (f : A -> bool) (l : list A) :
  forallb f (rev l) = forallb f l.
Proof.
  induction l as [|x l IH]; [reflexivity|]. cbn [rev forallb].
  rewrite forallb_app, IH. cbn [forallb]. rewrite andb_true_r. apply andb_comm.
Qed.

End ChartRangeFacts.

(** X11. The bars of the score chart stay inside the chart. When the scores
    of the listed sessions are percentages (proper numbers from 0 to 100),
    the height of every bar, computed as [(score / 100) * 100], lies between
    0 and 100 percent, and its opacity between 0.3 and 1. Below index 5 the
    opacity grows strictly with the index, so that a more recent session
    gets the more opaque bar. *)
Theorem score_chart_bars_within_range :
  forall history : list SessionHistoryItem,
    forallb (fun s => percent (score s)) (recentList history) = true ->
    Forall (fun b => le (of_Z 0) (bar_height b) = true
                     /\ le (bar_height b) (of_Z 100) = true
                     /\ le lit_0_3 (bar_opacity b) = true
                     /\ le (bar_opacity b) (of_Z 1) = true)
           (scoreChart history)
    /\ forall (s t : SessionHistoryItem) (i j : nat),
         (i < j)%nat -> (j < 5)%nat ->
         lt (bar_opacity (scoreBar s i)) (bar_opacity (scoreBar t j)) = true.
Proof.
  intros history Hp. split.
  - unfold scoreChart. fold (recentList history). apply chart_bars_range.
    + rewrite length_rev, recentList_firstn, length_firstn. cbn [Nat.add]. lia.
    + now rewrite forallb_rev.
  - intros s t i j. apply bar_opacity_increasing.
Qed.

Lemma score_chart_bars_within_range_witness :
  Forall (fun b => le (of_Z 0) (bar_height b) = true
                   /\ le (bar_height b) (of_Z 100) = true
                   /\ le lit_0_3 (bar_opacity b) = true
                   /\ le (bar_opacity b) (of_Z 1) = true)
         (scoreChart (map session [88; 73; 100; 0; 41; 7]))
  /\ forall (s t : SessionHistoryItem) (i j : nat),
       (i < j)%nat -> (j < 5)%nat ->
       lt (bar_opacity (scoreBar s i)) (bar_opacity (scoreBar t j)) = true.
Proof.
  apply (score_chart_bars_within_range (map session [88; 73; 100; 0; 41; 7])).
  vm_compute. reflexivity.
Defined.

(** *** The recent averages *)

Section AverageFacts.

Lemma sub_or_0_percent (o : option number) :
  percent_or_absent o = true -> percent (sub_or_0 o) = true.
Proof.
  destruct o as [v|]; cbn [percent_or_absent sub_or_0]; [|reflexivity].
  intros Hp. unfold or_else. destruct (JS.truthy v); [exact Hp|reflexivity].
Qed.

Lemma recentAverage_small (field : SessionHistoryItem -> option number)
    (history : list SessionHistoryItem) :
  forallb (fun s => percent_or_absent (field s)) (recentSessions history) = true ->
  exists k, 0 <= k <= 100 /\ recentAverage field history = of_Z k.
Proof.
  intros Hp. unfold recentAverage. cbv zeta.
  assert (Hlen : (length (recentSessions history) <= 10)%nat).
  { rewrite recentSessions_firstn, length_firstn. lia. }
  destruct (Nat.ltb_spec 0 (length (recentSessions history))) as [Hpos|Hz].
  - rewrite reduce_sum.
    destruct (mean_le_hundred
                (map (fun s => sub_or_0 (field s)) (recentSessions history)))
      as [Hw Hle].
    + intros Hnil. apply (f_equal (@length number)) in Hnil.
      rewrite length_map in Hnil. cbn [length] in Hnil. lia.
    + rewrite length_map. change (2 ^ 32) with 4294967296. lia.
    + rewrite forallb_over_map. apply forallb_forall. intros s Hs.
      apply sub_or_0_percent. rewrite forallb_forall in Hp. now apply Hp.
    + unfold Spec.arithmeticMean, Spec.sum in Hw, Hle.
      rewrite length_map in Hw, Hle. now apply Math_round_small.
  - exists 0. split; [lia|reflexivity].
Qed.

End AverageFacts.

(** X12. Each recent average (vocabulary, clarity, persuasion) is a whole
    number from 0 to 100 whenever the sub-scores present in the window are
    percentages, an absent one counting as 0: the figure shown with a [%]
    and used as the width of the metric bar never leaves the range. *)
Theorem recent_average_is_whole_percentage :
  forall (d : dimension) (history : list SessionHistoryItem),
    forallb (fun s => percent_or_absent (subScore d s)) (recentSessions history)
    = true ->
    exists k : Z, 0 <= k <= 100 /\ recentAverageOf d history = of_Z k.
Proof.
  intros d history Hp. destruct d; exact (recentAverage_small _ history Hp).
Qed.

Lemma recent_average_is_whole_percentage_witness :
  exists k : Z,
    0 <= k <= 100
    /\ recentAverageOf Vocabulary (map session_v [Some 90; None; Some 61])
       = of_Z k.
Proof.
  apply (recent_average_is_whole_percentage Vocabulary
           (map session_v [Some 90; None; Some 61])).
  vm_compute. reflexivity.
Defined.

(** X13. The figure on the Avg badge, the rounded mean of the three recent
    averages, is a whole number from 0 to 100 whenever the sub-scores
    present in the window are percentages. *)
Theorem metrics_average_is_whole_percentage :
  forall history : list SessionHistoryItem,
    forallb subscores_in_range (recentSessions history) = true ->
    exists k : Z, 0 <= k <= 100 /\ metricsAverage history = of_Z k.
Proof.
  intros history Hp.
  assert (Hd : forall f : SessionHistoryItem -> option number,
             (forall s, subscores_in_range s = true ->
                        percent_or_absent (f s) = true) ->
             exists k, 0 <= k <= 100 /\ recentAverage f history = of_Z k).
  { intros f Hf. apply recentAverage_small. apply forallb_forall.
    intros s Hs. apply Hf. rewrite forallb_forall in Hp. now apply Hp. }
  destruct (Hd vocabularyScore) as (kv & Hkv & Hv).
  { unfold subscores_in_range. intros s H.
    apply andb_true_iff in H. destruct H as [H _].
    apply andb_true_iff in H. now destruct H. }
  destruct (Hd clarityScore) as (kc & Hkc & Hc).
  { unfold subscores_in_range. intros s H.
    apply andb_true_iff in H. destruct H as [H _].
    apply andb_true_iff in H. now destruct H. }
  destruct (Hd persuasionScore) as (kp & Hkp & Hpe).
  { unfold subscores_in_range. intros s H.
    apply andb_true_iff in H. now destruct H. }
  unfold metricsAverage, avgVocabulary, avgClarity, avgPersuasion.
  rewrite Hv, Hc, Hpe.
  destruct (of_Z_small kv Hkv) as [Wv Lv].
  destruct (of_Z_small kc Hkc) as [Wc Lc].
  destruct (of_Z_small kp Hkp) as [Wp Lp].
  destruct hundred_wf as [Hh _].
  assert (W3 : nonneg_wf (of_Z 3) /\ finite_pos (of_Z 3)) by (split; exact I || (cbn; unpow; lia)).
  destruct W3 as [W3 F3].
  pose proof (add_wf _ _ Wv Wc) as Wvc.
  pose proof (add_wf _ _ Wvc Wp) as Wvcp.
  pose proof (add_mono _ _ _ _ Wv Hh Wc Hh Lv Lc) as Lvc.
  pose proof (add_mono _ _ _ _ Wvc (add_wf _ _ Hh Hh) Wp Hh Lvc Lp) as Lvcp.
  apply Math_round_small.
  - exact (div_wf _ _ Wvcp W3 F3).
  - pose proof (div_mono _ _ (of_Z 3) Wvcp
                  (add_wf _ _ (add_wf _ _ Hh Hh) Hh) W3 F3 Lvcp) as Hdiv.
    apply Z.le_trans with (1 := Hdiv). now vm_compute.
Qed.

Lemma metrics_average_is_whole_percentage_witness :
  exists k : Z,
    0 <= k <= 100
    /\ metricsAverage
         [ {| score := of_Z 70; vocabularyScore := Some (of_Z 90);
              clarityScore := None; persuasionScore := Some (of_Z 100) |};
           {| score := of_Z 55; vocabularyScore := Some (of_Z 61);
              clarityScore := Some (of_Z 48); persuasionScore := None |} ]
       = of_Z k.
Proof.
  apply (metrics_average_is_whole_percentage
           [ {| score := of_Z 70; vocabularyScore := Some (of_Z 90);
                clarityScore := None; persuasionScore := Some (of_Z 100) |};
             {| score := of_Z 55; vocabularyScore := Some (of_Z 61);
                clarityScore := Some (of_Z 48); persuasionScore := None |} ]).
  vm_compute. reflexivity.
Defined.

(** X14. The Performance Score is a whole number from 0 to 100 whenever the
    scores of the history are percentages, for every history an array can
    hold (fewer than [2^32] sessions): summing the scores in binary64 and
    dividing by their number never pushes the mean above 100. *)
Theorem performance_score_is_whole_percentage :
  forall history : list SessionHistoryItem,
    Z.of_nat (length history) < 2 ^ 32 ->
    forallb (fun s => percent (score s)) history = true ->
    exists k : Z, 0 <= k <= 100 /\ performanceScore history = of_Z k.
Proof.
  intros history Hlen Hall. rewrite performanceScore_eq.
  destruct history as [|s h] eqn:Eh.
  - exists 0. split; [lia|reflexivity].
  - rewrite <- Eh in *.
    destruct (mean_le_hundred (map score history)) as [Hw Hle].
    + rewrite Eh. discriminate.
    + now rewrite length_map.
    + now rewrite forallb_over_map.
    + now apply Math_round_small.
Qed.

Lemma performance_score_is_whole_percentage_witness :
  exists k : Z,
    0 <= k <= 100 /\ performanceScore (map session [88; 73; 100; 0; 41]) = of_Z k.
Proof.
  apply (performance_score_is_whole_percentage
           (map session [88; 73; 100; 0; 41])).
  - vm_compute. reflexivity.
  - vm_compute. reflexivity.
Defined.

(** X15. Whatever proper number [totalSessions] holds, a fraction, a
    negative number, an infinity or [NaN] included, the win rate is a number
    that is not negative, never [NaN]; it is [0] whenever [totalSessions] is
    not above 0. *)
Theorem win_rate_never_negative :
  forall st : UserStats,
    valid_binary prec emax (totalSessions st) = true ->
    le (of_Z 0) (winRate (Some st)) = true
    /\ (gt (totalSessions st) (of_Z 0) = false -> winRate (Some st) = of_Z 0).
Proof.
  intros st Hv. split.
  - unfold winRate. revert Hv. generalize (totalSessions st). intros x Hv.
    destruct x as [[|]|[|]| |[|] m e]; try reflexivity.
    pose proof (valid_nonneg_wf m e Hv) as Hwf.
    rewrite gt_zero by exact Hwf.
    destruct (Z.ltb_spec 0 (ford (S754_finite false m e))) as [_|_]; [|reflexivity].
    pose proof (winRateFormula_wf _ Hwf) as Hw.
    unfold Spec.winRateFormula in Hw.
    apply (SFleb_ford (of_Z 0) _ I Hw).
    pose proof (ford_range _ Hw) as R. change (ford (of_Z 0)) with 0. lia.
  - unfold winRate. now intros ->.
Qed.

Lemma win_rate_never_negative_witness :
  le (of_Z 0)
     (winRate (Some {| totalSessions := div (of_Z 5) (of_Z 2);
                       totalMinutes := of_Z 40 |})) = true
  /\ (gt (div (of_Z 5) (of_Z 2)) (of_Z 0) = false ->
      winRate (Some {| totalSessions := div (of_Z 5) (of_Z 2);
                       totalMinutes := of_Z 40 |}) = of_Z 0).
Proof.
  apply (win_rate_never_negative
           {| totalSessions := div (of_Z 5) (of_Z 2); totalMinutes := of_Z 40 |}).
  vm_compute. reflexivity.
Defined.

(* ================================================================= *)
(** ** Further properties: the direction of the improvement rate *)

(** *** Signs *)

Section SignFacts.

Lemma binary_round_aux_opp (m e : Z) (l : location) :
  binary_round_aux prec emax true m e l
  = SFopp (binary_round_aux prec emax false m e l).
Proof.
  unfold binary_round_aux.
  destruct (shr_fexp prec emax m e l) as [mrs e1].
  destruct (shr_fexp prec emax
              (round_nearest_even (shr_m mrs) (loc_of_shr_record mrs)) e1
              loc_Exact) as [mrs2 e2].
  destruct (shr_m mrs2); [reflexivity| |reflexivity].
  destruct (e2 <=? emax - prec); reflexivity.
Qed.

Lemma binary_round_opp (p : positive) (e : Z) :
  binary_round prec emax true p e = SFopp (binary_round prec emax false p e).
Proof. rewrite !binary_round_eq. apply binary_round_aux_opp. Qed.

Lemma SFopp_involutive (x : number) : SFopp (SFopp x) = x.
Proof. destruct x as [[|]|[|]| |[|] m e]; reflexivity. Qed.

Lemma div_opp (w c : number) :
  nonneg_wf w -> finite_pos c -> div (SFopp w) c = SFopp (div w c).
Proof.
  intros Hw Hc. destruct c as [[|]|[|]| |[|] mc ec]; try contradiction.
  destruct w as [[|]|[|]| |[|] mw ew]; try contradiction; try reflexivity.
  unfold div. cbn [SFopp negb SFdiv xorb].
  destruct (SFdiv_core_binary prec emax (Zpos mw) ew (Zpos mc) ec) as [[mz ez] lz].
  apply binary_round_aux_opp.
Qed.

Lemma mul_opp (w c : number) :
  nonneg_wf w -> finite_pos c -> mul (SFopp w) c = SFopp (mul w c).
Proof.
  intros Hw Hc. destruct c as [[|]|[|]| |[|] mc ec]; try contradiction.
  destruct w as [[|]|[|]| |[|] mw ew]; try contradiction; try reflexivity.
  unfold mul. cbn [SFopp negb SFmul xorb].
  apply binary_round_aux_opp.
Qed.

Lemma not_below_zero (x : number) : nonneg_wf x -> lt x (of_Z 0) = false.
Proof. destruct x as [[|]|[|]| |[|] m e]; try contradiction; reflexivity. Qed.

Lemma not_above_zero (w : number) :
  nonneg_wf w -> gt (SFopp w) (of_Z 0) = false.
Proof. destruct w as [[|]|[|]| |[|] m e]; try contradiction; reflexivity. Qed.

Lemma Math_round_not_above_zero (u : number) :
  nonneg_wf u -> gt (Math_round (SFopp u)) (of_Z 0) = false.
Proof.
  intros Hu. destruct u as [[|]|[|]| |[|] m e]; try contradiction;
    try reflexivity.
  cbn [SFopp negb]. unfold Math_round.
  destruct (Z.leb_spec 0 e) as [He|He]; [reflexivity|].
  cbn [cond_Zopp]. rewrite Z.shiftr_div_pow2 by lia.
  set (r := (2 * - Zpos m + 2 ^ (- e)) / 2 ^ (1 - e)).
  assert (Hr : r <= 0).
  { pose proof (pow2_pos (- e) ltac:(lia)) as P1.
    pose proof (pow2_pos (1 - e) ltac:(lia)) as P2.
    assert (r < 1); [|lia].
    apply Z.div_lt_upper_bound; [lia|].
    replace (1 - e) with (1 + - e) by lia. rewrite Z.pow_add_r by lia.
    change (2 ^ 1) with 2. lia. }
  destruct (Z.eqb_spec r 0) as [_|Hnz]; [reflexivity|].
  destruct r as [|p|p]; try lia.
  unfold of_Z. cbn [binary_normalize]. rewrite binary_round_opp.
  apply not_above_zero, binary_round_ord.
Qed.

Lemma sub_finite_eq (mx : positive) (ex : Z) (my : positive) (ey : Z) :
  SFsub prec emax (S754_finite false mx ex) (S754_finite false my ey)
  = binary_normalize prec emax
      (Zpos mx * 2 ^ (ex - Z.min ex ey) - Zpos my * 2 ^ (ey - Z.min ex ey))
      (Z.min ex ey) false.
Proof.
  cbn [SFsub cond_Zopp]. cbv zeta.
  rewrite (aligned_fst mx ex ey).
  rewrite (Z.min_comm ex ey) at 2. rewrite (aligned_fst my ey ex).
  rewrite (Z.min_comm ey ex). reflexivity.
Qed.

Lemma sub_not_below (x y : number) :
  nonneg_wf x -> nonneg_wf y -> finite_pos y -> ford y <= ford x ->
  nonneg_wf (sub x y).
Proof.
  intros Hx Hy Hf Hle.
  destruct y as [[|]|[|]| |[|] my ey]; try contradiction.
  pose proof (finite_ford_pos my ey Hy) as Py.
  destruct x as [[|]|[|]| |[|] mx ex]; try contradiction.
  - exfalso. cbn [ford] in *. lia.
  - exact I.
  - unfold sub. rewrite sub_finite_eq.
    pose proof (ford_le_val my ey mx ex Hy Hx Hle) as Hv.
    rewrite (Z.min_comm ey ex) in Hv.
    destruct (Zpos mx * 2 ^ (ex - Z.min ex ey)
              - Zpos my * 2 ^ (ey - Z.min ex ey)) as [|p|p] eqn:Hd; try lia.
    + exact I.
    + cbn [binary_normalize]. apply binary_round_ord.
Qed.

Lemma sub_not_above (x y : number) :
  nonneg_wf x -> nonneg_wf y -> finite_pos y -> ford x <= ford y ->
  sub x y = S754_zero false \/ nonneg_wf (SFopp (sub x y)).
Proof.
  intros Hx Hy Hf Hle.
  destruct y as [[|]|[|]| |[|] my ey]; try contradiction.
  pose proof (finite_ford_pos my ey Hy) as Py.
  destruct x as [[|]|[|]| |[|] mx ex]; try contradiction.
  - right. exact Hy.
  - exfalso. cbn [ford] in *. lia.
  - unfold sub. rewrite sub_finite_eq.
    pose proof (ford_le_val mx ex my ey Hx Hy Hle) as Hv.
    destruct (Zpos mx * 2 ^ (ex - Z.min ex ey)
              - Zpos my * 2 ^ (ey - Z.min ex ey)) as [|p|p] eqn:Hd; try lia.
    + left. reflexivity.
    + right. cbn [binary_normalize].
      rewrite binary_round_opp, SFopp_involutive. apply binary_round_ord.
Qed.

Lemma rateOf_not_negative (r o : number) :
  nonneg_wf r -> nonneg_wf o -> ford o <= ford r ->
  lt (rateOf r o) (of_Z 0) = false.
Proof.
  intros Hr Ho Hle. destruct hundred_wf as [Hh Hhf]. unfold rateOf.
  destruct o as [[|]|[|]| |[|] mo eo] eqn:Eo; try contradiction.
  - destruct r as [[|]|[|]| |[|] mr er]; try contradiction; reflexivity.
  - destruct r as [[|]|[|]| |[|] mr er]; try contradiction; reflexivity.
  - rewrite <- Eo in *.
    assert (Hf : finite_pos o) by (rewrite Eo; exact I).
    pose proof (sub_not_below r o Hr Ho Hf Hle) as Hs.
    apply not_below_zero, Math_round_wf.
    exact (mul_wf _ _ (div_wf _ _ Hs Ho Hf) Hh Hhf).
Qed.

Lemma rateOf_not_positive (r o : number) :
  nonneg_wf r -> nonneg_wf o -> ford r <= ford o ->
  gt (rateOf r o) (of_Z 0) = false.
Proof.
  intros Hr Ho Hle. destruct hundred_wf as [Hh Hhf]. unfold rateOf.
  destruct o as [[|]|[|]| |[|] mo eo] eqn:Eo; try contradiction.
  - destruct r as [[|]|[|]| |[|] mr er]; try contradiction; try reflexivity.
    exfalso. pose proof (finite_ford_pos mr er Hr). cbn [ford] in *. lia.
  - destruct r as [[|]|[|]| |[|] mr er]; try contradiction; reflexivity.
  - rewrite <- Eo in *.
    assert (Hf : finite_pos o) by (rewrite Eo; exact I).
    destruct (sub_not_above r o Hr Ho Hf Hle) as [Hz|Hn].
    + rewrite Hz, Eo. reflexivity.
    + rewrite <- (SFopp_involutive (sub r o)).
      rewrite (div_opp _ o Hn Hf).
      rewrite (mul_opp (div (SFopp (sub r o)) o) (of_Z 100)
                 (div_wf _ _ Hn Ho Hf) Hhf).
      apply Math_round_not_above_zero.
      exact (mul_wf _ _ (div_wf _ _ Hn Ho Hf) Hh Hhf).
Qed.

Lemma nonneg_score_cases (x : number) :
  nonneg_score x = true -> x = S754_zero true \/ nonneg_wf x.
Proof.
  unfold nonneg_score. intros H. apply andb_true_iff in H. destruct H as [Hv H0].
  destruct x as [[|]|[|]| |[|] m e]; try discriminate H0.
  - now left.
  - right. exact I.
  - right. exact I.
  - right. exact (valid_nonneg_wf m e Hv).
Qed.

Lemma sumFrom_nonneg (xs : list number) :
  forall acc,
    nonneg_wf acc -> forallb nonneg_score xs = true ->
    nonneg_wf (Spec.sumFrom acc xs).
Proof.
  induction xs as [|x xs IH]; intros acc Ha Hall; cbn [Spec.sumFrom];
    [exact Ha|].
  cbn [forallb] in Hall. apply andb_true_iff in Hall. destruct Hall as [Hx Hxs].
  apply IH; [|exact Hxs].
  destruct (nonneg_score_cases x Hx) as [->|Hw].
  - now rewrite add_negative_zero.
  - now apply add_wf.
Qed.

Lemma mean_nonneg (xs : list number) :
  xs <> [] -> forallb nonneg_score xs = true ->
  nonneg_wf (Spec.arithmeticMean xs) \/ Spec.arithmeticMean xs = NaN.
Proof.
  intros Hne Hall. unfold Spec.arithmeticMean, Spec.sum.
  pose proof (sumFrom_nonneg xs (of_Z 0) I Hall) as Hs.
  destruct (of_nat_positive (length xs)) as (F & -> & Hwf & Hpos).
  { destruct xs; [contradiction|cbn; lia]. }
  destruct F as [[|]|[|]| |[|] m e] eqn:EF; try contradiction.
  - cbn [ford] in Hpos. lia.
  - destruct (Spec.sumFrom (of_Z 0) xs) as [[|]|[|]| |[|] ms es];
      try contradiction; (left; exact I) || (right; reflexivity).
  - left. rewrite <- EF in *. apply div_wf; [exact Hs|exact Hwf|].
    rewrite EF. exact I.
Qed.

Lemma le_nonneg (x y : number) :
  (nonneg_wf x \/ x = NaN) -> (nonneg_wf y \/ y = NaN) ->
  le x y = true -> nonneg_wf x /\ nonneg_wf y /\ ford x <= ford y.
Proof.
  intros [Hx| ->] [Hy| ->] Hle.
  - split; [exact Hx|]. split; [exact Hy|]. now apply SFleb_ford.
  - destruct x as [[|]|[|]| |[|] m e]; discriminate Hle.
  - discriminate Hle.
  - discriminate Hle.
Qed.

Lemma improvementRate_rateOf (history : list SessionHistoryItem) :
  (4 <= length history)%nat ->
  improvementRate history
  = rateOf (Spec.arithmeticMean (map score (Spec.recentHalf history)))
           (Spec.arithmeticMean (map score (Spec.olderHalf history))).
Proof. intros Hlen. apply calculateImprovementRate_long, Hlen. Qed.

Lemma halves_nonneg (history : list SessionHistoryItem) :
  (4 <= length history)%nat ->
  forallb (fun s => nonneg_score (score s)) history = true ->
  (nonneg_wf (Spec.arithmeticMean (map score (Spec.recentHalf history)))
   \/ Spec.arithmeticMean (map score (Spec.recentHalf history)) = NaN)
  /\ (nonneg_wf (Spec.arithmeticMean (map score (Spec.olderHalf history)))
      \/ Spec.arithmeticMean (map score (Spec.olderHalf history)) = NaN).
Proof.
  intros Hlen Hall.
  destruct (halves_lengths history) as [Lr Lo].
  assert (Hdiv : (2 <= length history / 2)%nat).
  { apply Nat.div_le_lower_bound; lia. }
  assert (Hlt : (length history / 2 < length history)%nat)
    by (apply Nat.div_lt; lia).
  rewrite <- (firstn_skipn (length history / 2) history) in Hall.
  fold (Spec.recentHalf history) in Hall. fold (Spec.olderHalf history) in Hall.
  rewrite forallb_app in Hall. apply andb_true_iff in Hall.
  destruct Hall as [Hr Ho].
  split; apply mean_nonneg.
  - intros Hnil. apply (f_equal (@length number)) in Hnil.
    rewrite length_map, Lr in Hnil. cbn [length] in Hnil. lia.
  - now rewrite forallb_over_map.
  - intros Hnil. apply (f_equal (@length number)) in Hnil.
    rewrite length_map, Lo in Hnil. cbn [length] in Hnil. lia.
  - now rewrite forallb_over_map.
Qed.

End SignFacts.

(** X16. The arrow of the improvement card never contradicts the two means
    it is computed from. For a history of at least four sessions whose
    scores are proper numbers and not negative: when the mean of the older
    half is not above the mean of the recent half, the rate is not negative
    and the arrow is up or flat; when the mean of the recent half is not
    above the mean of the older half, the rate is not positive, no ["+"] is
    shown and the arrow is down or flat. This covers an older mean of 0,
    where the rate is [Infinity] or [NaN]. *)
Theorem improvement_arrow_follows_the_means :
  forall history : list SessionHistoryItem,
    (4 <= length history)%nat ->
    forallb (fun s => nonneg_score (score s)) history = true ->
    let recentAvg := Spec.arithmeticMean (map score (Spec.recentHalf history)) in
    let olderAvg := Spec.arithmeticMean (map score (Spec.olderHalf history)) in
    (le olderAvg recentAvg = true ->
     lt (improvementRate history) (of_Z 0) = false
     /\ (badge (renderImprovementCard history) = Some ArrowUp
         \/ badge (renderImprovementCard history) = Some ArrowFlat))
    /\ (le recentAvg olderAvg = true ->
        gt (improvementRate history) (of_Z 0) = false
        /\ signPrefix (renderImprovementCard history) = ""%string
        /\ (badge (renderImprovementCard history) = Some ArrowDown
            \/ badge (renderImprovementCard history) = Some ArrowFlat)).
Proof.
  intros history Hlen Hall recentAvg olderAvg.
  destruct (halves_nonneg history Hlen Hall) as [Hr Ho].
  fold recentAvg in Hr. fold olderAvg in Ho.
  pose proof (improvementRate_rateOf history Hlen) as Hrate.
  fold recentAvg olderAvg in Hrate.
  assert (Hb : badge (renderImprovementCard history)
               = Some (arrowOf (improvementRate history))).
  { unfold renderImprovementCard. cbn [badge].
    destruct (Nat.leb_spec 4 (length history)); [reflexivity|lia]. }
  split.
  - intros Hle. destruct (le_nonneg _ _ Ho Hr Hle) as (Wo & Wr & Hord).
    pose proof (rateOf_not_negative recentAvg olderAvg Wr Wo Hord) as Hn.
    rewrite <- Hrate in Hn. split; [exact Hn|].
    rewrite Hb. unfold arrowOf. rewrite Hn.
    destruct (gt (improvementRate history) (of_Z 0)); [now left|now right].
  - intros Hle. destruct (le_nonneg _ _ Hr Ho Hle) as (Wr & Wo & Hord).
    pose proof (rateOf_not_positive recentAvg olderAvg Wr Wo Hord) as Hn.
    rewrite <- Hrate in Hn. split; [exact Hn|]. split.
    + unfold renderImprovementCard. cbn [signPrefix]. now rewrite Hn.
    + rewrite Hb. unfold arrowOf. rewrite Hn.
      destruct (lt (improvementRate history) (of_Z 0)); [now left|now right].
Qed.

Lemma improvement_arrow_follows_the_means_witness :
  let history := map session [62; 58; 71; 66; 40] in
  let recentAvg := Spec.arithmeticMean (map score (Spec.recentHalf history)) in
  let olderAvg := Spec.arithmeticMean (map score (Spec.olderHalf history)) in
  (le olderAvg recentAvg = true ->
   lt (improvementRate history) (of_Z 0) = false
   /\ (badge (renderImprovementCard history) = Some ArrowUp
       \/ badge (renderImprovementCard history) = Some ArrowFlat))
  /\ (le recentAvg olderAvg = true ->
      gt (improvementRate history) (of_Z 0) = false
      /\ signPrefix (renderImprovementCard history) = ""%string
      /\ (badge (renderImprovementCard history) = Some ArrowDown
          \/ badge (renderImprovementCard history) = Some ArrowFlat)).
Proof.
  apply (improvement_arrow_follows_the_means (map session [62; 58; 71; 66; 40])).
  - simpl. lia.
  - vm_compute. reflexivity.
Defined.

(* ================================================================= *)
(** ** Further properties: the minutes of the history list *)

(** *** [Math.floor] *)

Section FloorFacts.

Lemma Math_floor_between (v : number) (k : Z) :
  nonneg_wf v -> 0 <= k < 2 ^ 52 ->
  ford (of_Z k) <= ford v -> ford v < ford (of_Z (k + 1)) ->
  Math_floor v = of_Z k.
Proof.
  intros Hv Hk Hlo Hhi.
  assert (Hk1 : 0 < k + 1 < 2 ^ 53) by (unpow; lia).
  destruct (of_Z_exact (k + 1) Hk1) as (m1 & e1 & E1 & W1 & L1 & V1).
  rewrite E1 in Hhi.
  destruct v as [[|]|[|]| |[|] m e]; try contradiction.
  - (* v = +0 *)
    destruct (Z.eq_dec k 0) as [->|Hk0]; [reflexivity|].
    pose proof (of_Z_positive k ltac:(lia)). cbn [ford] in Hlo. lia.
  - (* v = Infinity *)
    exfalso. pose proof (finite_ford_pos m1 e1 W1). cbn [ford] in *. lia.
  - destruct (Z.lt_ge_cases e 0) as [He|He].
    + pose proof (pow2_pos (- e) ltac:(lia)) as Pe.
      assert (Hq : Zpos m / 2 ^ (- e) = k).
      { symmetry. apply Z.div_unique with (Zpos m - k * 2 ^ (- e)); [|ring].
        left. split.
        - (* k * 2^(-e) <= m *)
          destruct (Z.eq_dec k 0) as [->|Hk0]; [lia|].
          destruct (of_Z_exact k ltac:(unpow; lia)) as (mk & ek & Ek & Wk & Lk & Vk).
          rewrite Ek in Hlo.
          pose proof (ford_le_val mk ek m e Wk Hv Hlo) as Hval.
          set (mu := Z.min ek e) in *.
          pose proof (pow2_pos (e - mu) ltac:(lia)) as Pm.
          assert (F : 2 ^ (- ek) * 2 ^ (ek - mu) = 2 ^ (- e) * 2 ^ (e - mu)).
          { rewrite <- !Z.pow_add_r by lia. f_equal. lia. }
          rewrite Vk in Hval.
          replace (k * 2 ^ (- ek) * 2 ^ (ek - mu))
            with (k * (2 ^ (- ek) * 2 ^ (ek - mu))) in Hval by ring.
          rewrite F, Z.mul_assoc in Hval.
          apply Z.mul_le_mono_pos_r in Hval; lia.
        - (* m < (k + 1) * 2^(-e) *)
          destruct (Z.lt_ge_cases (Zpos m) ((k + 1) * 2 ^ (- e))) as [Hlt|Hge];
            [lia|].
          exfalso.
          assert (ford (S754_finite false m1 e1)
                  <= ford (S754_finite false m e)); [|lia].
          apply value_le_ford; [exact W1|exact Hv|].
          set (mu := Z.min e1 e).
          pose proof (pow2_pos (e - mu) ltac:(lia)) as Pm.
          assert (F : 2 ^ (- e1) * 2 ^ (e1 - mu) = 2 ^ (- e) * 2 ^ (e - mu)).
          { rewrite <- !Z.pow_add_r by lia. f_equal. lia. }
          rewrite V1.
          replace ((k + 1) * 2 ^ (- e1) * 2 ^ (e1 - mu))
            with ((k + 1) * (2 ^ (- e1) * 2 ^ (e1 - mu))) by ring.
          rewrite F, Z.mul_assoc.
          apply Z.mul_le_mono_nonneg_r; lia. }
      unfold Math_floor. destruct (Z.leb_spec 0 e) as [|_]; [lia|].
      cbn [cond_Zopp]. rewrite Z.shiftr_div_pow2 by lia. rewrite Hq.
      destruct (Z.eqb_spec k 0) as [->|_]; reflexivity.
    + exfalso.
      pose proof (of_Z_mono (k + 1) (2 ^ 52) ltac:(lia)) as Hm.
      rewrite E1 in Hm.
      replace (ford (of_Z (2 ^ 52))) with (1074 * 2 ^ 52 + 2 ^ 52) in Hm
        by (vm_compute; reflexivity).
      cbn [nonneg_wf ford] in *. unpow. lia.
Qed.

(** The quotient of a whole number of seconds by 60 lies in the minute it
    belongs to. *)
Lemma minutes_quotient (d : Z) :
  0 <= d < 2 ^ 50 ->
  nonneg_wf (div (of_Z d) (of_Z 60))
  /\ ford (of_Z (d / 60)) <= ford (div (of_Z d) (of_Z 60))
  /\ ford (div (of_Z d) (of_Z 60)) < ford (of_Z (d / 60 + 1)).
Proof.
  intros Hd.
  assert (H50 : 2 ^ 50 = 1125899906842624) by reflexivity.
  assert (W60 : nonneg_wf (of_Z 60) /\ finite_pos (of_Z 60)).
  { split; [apply of_Z_ford; lia|exact I]. }
  destruct W60 as [W60 F60].
  assert (Wd : nonneg_wf (of_Z d)) by (apply of_Z_ford; lia).
  assert (Wv : nonneg_wf (div (of_Z d) (of_Z 60)))
    by exact (div_wf _ _ Wd W60 F60).
  split; [exact Wv|].
  pose proof (Z.div_mod d 60 ltac:(lia)) as Hdm.
  pose proof (Z.mod_pos_bound d 60 ltac:(lia)) as Hr.
  set (k := d / 60) in *.
  assert (Hk : 0 <= k) by (apply Z.div_pos; lia).
  destruct (Z.eq_dec d 0) as [Hd0|Hd0].
  { subst d. split; now vm_compute. }
  split.
  - destruct (Z.eq_dec k 0) as [Hk0|Hk0].
    + rewrite Hk0. pose proof (ford_range _ Wv). change (ford (of_Z 0)) with 0. lia.
    + destruct (of_Z_exact k ltac:(unpow; lia)) as (mk & ek & Ek & Wk & Lk & Vk).
      rewrite Ek.
      apply div_of_Z_ge_number; [unpow; lia|unpow; lia|exact Wk|exact Lk|].
      rewrite Vk. pose proof (pow2_pos (- ek) ltac:(lia)).
      replace (k * 2 ^ (- ek) * 60) with (60 * k * 2 ^ (- ek)) by ring.
      apply Z.mul_le_mono_nonneg_r; lia.
  - (* below k + 1: the number (64 k + 63) / 64 lies in between *)
    destruct (of_Z_exact (64 * k + 63) ltac:(unpow; lia))
      as (mq & eq & Eq & Wq & Lq & Vq).
    destruct (of_Z_exact (k + 1) ltac:(unpow; lia))
      as (m1 & e1 & E1 & W1 & L1 & V1).
    assert (Heq : -53 < eq).
    { destruct (Z.lt_ge_cases (-53) eq) as [H|H]; [exact H|]. exfalso.
      cbn [nonneg_wf] in Wq.
      assert (2 ^ 53 <= 2 ^ (- eq)) by (apply Z.pow_le_mono_r; lia).
      nia. }
    assert (WY : nonneg_wf (S754_finite false mq (eq - 6))).
    { cbn [nonneg_wf] in *. lia. }
    apply Z.le_lt_trans with (ford (S754_finite false mq (eq - 6))).
    + apply div_of_Z_le_number; [unpow; lia|unpow; lia|exact WY|lia|].
      rewrite Vq. replace (- (eq - 6)) with (- eq + 6) by lia.
      rewrite Z.pow_add_r by lia. change (2 ^ 6) with 64.
      pose proof (pow2_pos (- eq) ltac:(lia)).
      replace (d * (2 ^ (- eq) * 64)) with (64 * d * 2 ^ (- eq)) by ring.
      replace ((64 * k + 63) * 2 ^ (- eq) * 60)
        with (60 * (64 * k + 63) * 2 ^ (- eq)) by ring.
      apply Z.mul_le_mono_nonneg_r; lia.
    + rewrite E1.
      destruct (Z.lt_ge_cases (ford (S754_finite false mq (eq - 6)))
                  (ford (S754_finite false m1 e1))) as [Hlt|Hge]; [exact Hlt|].
      exfalso.
      pose proof (ford_le_val m1 e1 mq (eq - 6) W1 WY Hge) as Hval.
      set (mu := Z.min e1 (eq - 6)) in *.
      pose proof (pow2_pos (- 6 - mu) ltac:(lia)) as Pm.
      rewrite V1, Vq in Hval.
      assert (F1 : 2 ^ (- e1) * 2 ^ (e1 - mu) = 64 * 2 ^ (- 6 - mu)).
      { change 64 with (2 ^ 6). rewrite <- !Z.pow_add_r by lia. f_equal. lia. }
      assert (F2 : 2 ^ (- eq) * 2 ^ (eq - 6 - mu) = 2 ^ (- 6 - mu)).
      { rewrite <- !Z.pow_add_r by lia. f_equal. lia. }
      replace ((k + 1) * 2 ^ (- e1) * 2 ^ (e1 - mu))
        with ((k + 1) * (2 ^ (- e1) * 2 ^ (e1 - mu))) in Hval by ring.
      replace ((64 * k + 63) * 2 ^ (- eq) * 2 ^ (eq - 6 - mu))
        with ((64 * k + 63) * (2 ^ (- eq) * 2 ^ (eq - 6 - mu))) in Hval by ring.
      rewrite F1, F2 in Hval. nia.
Qed.

End FloorFacts.

(** X17. For a session that lasted a whole number [d] of seconds, below
    [2^50], the history list shows exactly [d / 60] minutes, the integer
    quotient: the rounding of the binary64 division never carries the
    quotient over to the next minute. *)
Theorem minutes_label_is_whole_minutes :
  forall d : Z,
    0 <= d < 2 ^ 50 -> minutesLabel (of_Z d) = of_Z (d / 60).
Proof.
  intros d Hd. destruct (minutes_quotient d Hd) as (Wv & Hlo & Hhi).
  unfold minutesLabel. apply Math_floor_between; try assumption.
  assert (H50 : 2 ^ 50 = 1125899906842624) by reflexivity.
  split; [apply Z.div_pos; lia|].
  apply Z.div_lt_upper_bound; unpow; lia.
Qed.

Lemma minutes_label_is_whole_minutes_witness :
  minutesLabel (of_Z 419) = of_Z (419 / 60).
Proof.
  apply (minutes_label_is_whole_minutes 419). lia.
Defined.
